(** * mjxgui: the expression tree, its LaTeX serialisation and the cursor

    A shallow embedding of [src/modules/expression-backend.js] and
    [src/modules/cursor.js].

    The JavaScript program builds a mutable object graph: an [Expression]
    holds top-level components, every [Component] owns an array of
    [Block]s, every [Block] holds children, and both kinds of node carry a
    [parent] back reference.  The cursor keeps references into this graph
    and compares them by identity ([===], [indexOf]).  The embedding keeps
    this sharing: objects live in a store (a list indexed by reference) and
    every field that holds an object in the source holds a reference here. *)

From Stdlib Require Import ZArith Lia Ascii String.
From stdpp Require Import base tactics option list strings.

Local Open Scope string_scope.
Local Open Scope list_scope.
Local Open Scope Z_scope.

(** ** Results of JavaScript computations *)

(** A method either returns, or throws a [TypeError] (property access on
    [null] or [undefined], call of something that is not a function).  The
    recursive serialisation is given fuel; [OutOfFuel] is not a behaviour of
    the program and is shown not to occur where a claim needs a result. *)
Inductive res (A : Type) : Type :=
  | Ok (a : A)
  | TypeError
  | OutOfFuel.
Arguments Ok {A} a.
Arguments TypeError {A}.
Arguments OutOfFuel {A}.

#[global] Instance res_ret : MRet res := fun A a => Ok a.
#[global] Instance res_bind : MBind res := fun A B f m =>
  match m with
  | Ok a => f a
  | TypeError => TypeError
  | OutOfFuel => OutOfFuel
  end.

(** ** Strings *)

(** Strings are sequences of code units below 256.  [String.prototype.trim]
    removes white space and line terminators at both ends; in this range
    these are TAB, LF, VT, FF, CR, SPACE and NBSP. *)
Definition is_space (a : ascii) : bool :=
  let n := nat_of_ascii a in
  (n =? 9)%nat || (n =? 10)%nat || (n =? 11)%nat || (n =? 12)%nat
  || (n =? 13)%nat || (n =? 32)%nat || (n =? 160)%nat.

Fixpoint ltrim (s : string) : string :=
  match s with
  | EmptyString => EmptyString
  | String a s' => if is_space a then ltrim s' else s
  end.

Fixpoint rtrim (s : string) : string :=
  match s with
  | EmptyString => EmptyString
  | String a s' =>
      match rtrim s' with
      | EmptyString => if is_space a then EmptyString else String a EmptyString
      | t => String a t
      end
  end.

Definition trim (s : string) : string := rtrim (ltrim s).

(** The one-character string holding a backslash. *)
Definition backslash : string := String (ascii_of_nat 92) EmptyString.

(** ** Arrays *)

(** [Array.prototype.splice(start, ...)] clamps [start]: a negative value
    counts from the end, a value past the end is the length. *)
Definition splice_start {A} (l : list A) (i : Z) : nat :=
  if i <? 0 then Z.to_nat (Z.max (Z.of_nat (length l) + i) 0)
  else Z.to_nat (Z.min i (Z.of_nat (length l))).

(** [l.splice(i, 0, x)] *)
Definition splice_add {A} (l : list A) (i : Z) (x : A) : list A :=
  take (splice_start l i) l ++ x :: drop (splice_start l i) l.

(** [l.splice(i, 1)] *)
Definition splice_remove {A} (l : list A) (i : Z) : list A :=
  take (splice_start l i) l ++ drop (S (splice_start l i)) l.

(** [l[i]] for an integer [i]: [None] stands for [undefined]. *)
Definition js_at {A} (l : list A) (i : Z) : option A :=
  if 0 <=? i then l !! Z.to_nat i else None.

(** [l.indexOf(x)]: the first index holding [x], or -1. *)
Fixpoint indexOf_from {A} (eqb : A -> A -> bool) (l : list A) (x : A) (i : Z) : Z :=
  match l with
  | [] => -1
  | y :: l' => if eqb y x then i else indexOf_from eqb l' x (i + 1)
  end.

Definition indexOf {A} (eqb : A -> A -> bool) (l : list A) (x : A) : Z :=
  indexOf_from eqb l x 0.

(** ** Addresses *)

(** [position] and [child] are JavaScript numbers that only ever hold
    multiples of 0.5: they start at -0.5 and are changed by adding or
    subtracting 0.5 or 1, by rounding, or by assigning an index plus or
    minus 0.5.  An address is stored as TWICE its value, so -0.5 is [-1],
    an integer [n] is [2 * n] and [n + 0.5] is [2 * n + 1]. *)
Abbreviation addr := Z (only parsing).

(** [Math.ceil(a)] and [Math.floor(a)], as integers. *)
Definition ceil2 (a : addr) : Z := (a + 1) / 2.
Definition floor2 (a : addr) : Z := a / 2.

(** The address of the integer [n] and of [n - 0.5]. *)
Definition of_int (n : Z) : addr := 2 * n.
Definition before (n : Z) : addr := 2 * n - 1.

(** A half-integer address: [n - 0.5] for an integer [n]. *)
Definition is_half (a : addr) : Prop := a mod 2 = 1.

(** [l[a]] where [a] is an address: defined only at integers in range. *)
Definition js_index {A} (l : list A) (a : addr) : option A :=
  if Z.even a then js_at l (a / 2) else None.

(** ** The object graph *)

Abbreviation ref := nat (only parsing).

(** A field holding an object, [null] or [undefined]. *)
Inductive jsref : Type :=
  | Null
  | Undefined
  | Ref (r : ref).

(** An element of [Block.children]: a string or a component. *)
Inductive child_t : Type :=
  | CStr (s : string)
  | CRef (r : ref).

(** The classes that extend [Component], with the data their constructors
    take: [latexData] for symbols and templates, the parsed [rows] and
    [cols] for a matrix. *)
Inductive cls : Type :=
  | TextComponent
  | MJXGUISymbol (latexData : string)
  | FrameBox
  | MatrixComponent (rows cols : nat)
  | TemplateThreeBlockComponent (latexData : string)
  | TemplateOneBlockComponent (latexData : string)
  | TemplateTwoBlockComponent (latexData : string)
  | TemplateTwoBlockContinuousComponent (latexData : string)
  | TrigonometricTwoBlockComponent (latexData : string)
  | TemplateUndersetComponent (latexData : string)
  | TemplateOversetUndersetComponent (latexData : string)
  | Limit | Subscript | SubscriptLeft | Superscript | SuperscriptLeft
  | SubSupRight | SubSupLeft | Degree | Sqrt | NthRoot
  | BracketR | BracketRL | BracketRR | BracketS | BracketSL | BracketSR
  | BracketC | BracketCL | BracketCR | BracketA | BracketAL | BracketAR
  | BracketV | BracketVL | BracketVR | BracketP | Pipe
  | OversetOverbrace | UndersetUnderbrace | OversetLeftRightArrow
  | UnderRightArrow | UnderLeftArrow | UndersetLeftRightArrow
  | XRightArrow | XLeftArrow | XLeftRightArrow | Harpoons
  | UnderHarpoons | OverHarpoons | LArray | Divide | OverUnder | RFloor.

Record Block : Type := mkBlock {
  children : list child_t;
  block_parent : jsref
}.

Record Component : Type := mkComponent {
  class : cls;
  blocks : list ref;
  parent : jsref;
  color : option string
}.

Inductive obj : Type :=
  | OBlock (b : Block)
  | OComp (c : Component).

Abbreviation store := (list obj) (only parsing).

Definition child_eqb (x y : child_t) : bool :=
  match x, y with
  | CRef a, CRef b => Nat.eqb a b
  | _, _ => false
  end.

(** [component instanceof TextComponent || component instanceof MJXGUISymbol] *)
Definition is_leaf_cls (k : cls) : bool :=
  match k with
  | TextComponent | MJXGUISymbol _ => true
  | _ => false
  end.

(** The number of blocks each constructor creates. *)
Definition arity (k : cls) : nat :=
  match k with
  | MJXGUISymbol _ => 0
  | MatrixComponent rows cols => rows * cols
  | TextComponent | FrameBox | TemplateOneBlockComponent _
  | Degree | Sqrt
  | BracketR | BracketRL | BracketRR | BracketS | BracketSL | BracketSR
  | BracketC | BracketCL | BracketCR | BracketA | BracketAL | BracketAR
  | BracketV | BracketVL | BracketVR | BracketP
  | OversetLeftRightArrow | UnderRightArrow | UnderLeftArrow
  | UndersetLeftRightArrow | UnderHarpoons | OverHarpoons | RFloor => 1
  | TemplateThreeBlockComponent _ | TemplateOversetUndersetComponent _
  | SubSupRight | SubSupLeft | OverUnder => 3
  | _ => 2
  end%nat.

(** ** Serialisation: the [toLatex] methods *)

(** Every [toLatex] of a component class other than the matrix is a
    template literal: literal text interleaved with
    [this.blocks[i].toLatex()]. *)
Inductive piece : Type :=
  | Lit (s : string)
  | Blk (i : nat).

Definition template (k : cls) : list piece :=
  match k with
  | TextComponent => [Blk 0]
  | MJXGUISymbol d => [Lit d; Lit " "]
  | MatrixComponent _ _ => []
  | TemplateThreeBlockComponent d => [Lit backslash; Lit d; Lit "_{"; Blk 0; Lit "}^{"; Blk 1; Lit "}{"; Blk 2; Lit "}"]
  | TemplateOneBlockComponent d => [Lit backslash; Lit d; Lit "{"; Blk 0; Lit "}"]
  | TemplateTwoBlockComponent d => [Lit backslash; Lit d; Lit "_{"; Blk 0; Lit "}{"; Blk 1; Lit "}"]
  | TemplateTwoBlockContinuousComponent d => [Lit backslash; Lit d; Lit "{"; Blk 0; Lit "}{"; Blk 1; Lit "}"]
  | TrigonometricTwoBlockComponent d => [Lit backslash; Lit d; Lit "^{"; Blk 0; Lit "}{"; Blk 1; Lit "}"]
  | TemplateUndersetComponent d => [Lit "\displaystyle"; Lit backslash; Lit d; Lit "\underset{"; Blk 0; Lit "}{"; Blk 1; Lit "}"]
  | TemplateOversetUndersetComponent d => [Lit "\displaystyle"; Lit backslash; Lit d; Lit "\overset{"; Blk 0; Lit "}{\underset{"; Blk 1; Lit "}{"; Blk 2; Lit "}}"]
  | FrameBox => [Lit "\boxed{"; Blk 0; Lit "}"]
  | Limit => [Lit "\lim_{"; Blk 0; Lit "}{"; Blk 1; Lit "}"]
  | Subscript => [Lit "{"; Blk 0; Lit "}_{"; Blk 1; Lit "}"]
  | SubscriptLeft => [Lit "_{"; Blk 0; Lit "}{"; Blk 1; Lit "}"]
  | Superscript => [Lit "{"; Blk 0; Lit "}^{"; Blk 1; Lit "}"]
  | SuperscriptLeft => [Lit "^{"; Blk 0; Lit "}{"; Blk 1; Lit "}"]
  | SubSupRight => [Lit "{"; Blk 0; Lit "}_{"; Blk 1; Lit "}^{"; Blk 2; Lit "}"]
  | SubSupLeft => [Lit "^{"; Blk 0; Lit "}_{"; Blk 1; Lit "}{"; Blk 2; Lit "}"]
  | Degree => [Lit "{"; Blk 0; Lit "}^{\circ}"]
  | Sqrt => [Lit "\sqrt{"; Blk 0; Lit "}"]
  | NthRoot => [Lit "\sqrt["; Blk 0; Lit "]{"; Blk 1; Lit "}"]
  | BracketR => [Lit "\left({"; Blk 0; Lit "}\right)"]
  | BracketRL => [Lit "\left({"; Blk 0; Lit "}\right."]
  | BracketRR => [Lit "\left.{"; Blk 0; Lit "}\right)"]
  | BracketS => [Lit "\left[{"; Blk 0; Lit "}\right]"]
  | BracketSL => [Lit "\left[{"; Blk 0; Lit "}\right."]
  | BracketSR => [Lit "\left.{"; Blk 0; Lit "}\right]"]
  | BracketC => [Lit "\left\{{"; Blk 0; Lit "}\right\}"]
  | BracketCL => [Lit "\left\{{"; Blk 0; Lit "}\right."]
  | BracketCR => [Lit "\left.{"; Blk 0; Lit "}\right\}"]
  | BracketA => [Lit "\left\langle{"; Blk 0; Lit "}\right\rangle"]
  | BracketAL => [Lit "\left\langle{"; Blk 0; Lit "}\right."]
  | BracketAR => [Lit "\left.{"; Blk 0; Lit "}\right\rangle"]
  | BracketV => [Lit "\left|{"; Blk 0; Lit "}\right|"]
  | BracketVL => [Lit "\left|{"; Blk 0; Lit "}\right."]
  | BracketVR => [Lit "\left.{"; Blk 0; Lit "}\right|"]
  | BracketP => [Lit "\left\|{"; Blk 0; Lit "}\right\|"]
  | Pipe => [Lit "\left.{"; Blk 0; Lit "}\right|{"; Blk 1; Lit "}"]
  | OversetOverbrace => [Lit "\overset{"; Blk 0; Lit "}{\overbrace{"; Blk 1; Lit "}}"]
  | UndersetUnderbrace => [Lit "\underset{"; Blk 0; Lit "}{\underbrace{"; Blk 1; Lit "}}"]
  | OversetLeftRightArrow => [Lit "\overset{"; Blk 0; Lit "}{\longleftrightarrow}"]
  | UnderRightArrow => [Lit "\underset{"; Blk 0; Lit "}{\longrightarrow}"]
  | UnderLeftArrow => [Lit "\underset{"; Blk 0; Lit "}{\longleftarrow}"]
  | UndersetLeftRightArrow => [Lit "\underset{"; Blk 0; Lit "}{\longleftrightarrow}"]
  | XRightArrow => [Lit "\xrightarrow["; Blk 0; Lit "]{"; Blk 1; Lit "}"]
  | XLeftArrow => [Lit "\xleftarrow["; Blk 0; Lit "]{"; Blk 1; Lit "}"]
  | XLeftRightArrow => [Lit "\underset{"; Blk 0; Lit "}{\stackrel{"; Blk 1; Lit "}{\longleftrightarrow}}"]
  | Harpoons => [Lit "\underset{"; Blk 0; Lit "}{\stackrel{"; Blk 1; Lit "}{\rightleftharpoons}}"]
  | UnderHarpoons => [Lit "\underset{"; Blk 0; Lit "}\rightleftharpoons"]
  | OverHarpoons => [Lit "\overset{"; Blk 0; Lit "}\rightleftharpoons"]
  | LArray => [Lit "\begin{array}{c}{"; Blk 0; Lit "}\\{"; Blk 1; Lit "}\end{array}"]
  | Divide => [Lit "^{"; Blk 0; Lit "}/_{"; Blk 1; Lit "}"]
  | OverUnder => [Lit "\overset{"; Blk 0; Lit "}{\underset{"; Blk 1; Lit "}{"; Blk 2; Lit "}}"]
  | RFloor => [Lit "{"; Blk 0; Lit "}\rfloor"]
  end.

(** The text of an empty block, [this.parent.color] filled in. *)
Definition placeholder (col : string) : string :=
  "\color{" +:+ col +:+ "}{\boxed{&#8200;}}".

(** A colour inside a template literal: [null] prints as its name. *)
Definition color_string (c : option string) : string := default "null" c.

Section toLatex.
(** [rec] is the method call [x.toLatex()] on the object behind a
    reference, dispatched on what the object is. *)
Variable rec : ref -> res string.
Variable h : store.

(** The loop of [Block.toLatex]. *)
Fixpoint concat_children (cs : list child_t) (latex : string) : res string :=
  match cs with
  | [] => Ok latex
  | CStr s :: cs' => concat_children cs' (latex +:+ s)
  | CRef r :: cs' => s ← rec r; concat_children cs' (latex +:+ s)
  end.

Definition Block_toLatex (b : Block) : res string :=
  match children b with
  | [] =>
      match block_parent b with
      | Ref p =>
          match h !! p with
          | Some (OComp c) => Ok (placeholder (color_string (color c)))
          | Some (OBlock _) => Ok (placeholder "undefined")
          | None => TypeError
          end
      | Null | Undefined => TypeError
      end
  | cs => latex ← concat_children cs ""; Ok (trim latex)
  end.

(** A template literal, evaluated from left to right. *)
Fixpoint fill (bs : list ref) (t : list piece) : res string :=
  match t with
  | [] => Ok ""
  | Lit s :: t' => r ← fill bs t'; Ok (s +:+ r)
  | Blk i :: t' =>
      match bs !! i with
      | None => TypeError
      | Some b => s ← rec b; r ← fill bs t'; Ok (s +:+ r)
      end
  end.

(** The inner loop of [MatrixComponent.toLatex]: [n] columns are left,
    the current one is [j = cols - n]. *)
Fixpoint matrix_row (bs : list ref) (rows cols i n : nat) (output : string)
  : res string :=
  match n with
  | O => Ok output
  | S n' =>
      let j := (cols - n)%nat in
      match bs !! (i * cols + j)%nat with
      | None => TypeError
      | Some b =>
          s ← rec b;
          let output := output +:+ s in
          let output :=
            if (j =? cols - 1)%nat then
              if negb (i =? rows - 1)%nat then output +:+ " \\ " else output
            else output +:+ " & " in
          matrix_row bs rows cols i n' output
      end
  end.

(** The outer loop: [n] rows are left, the current one is [i = rows - n]. *)
Fixpoint matrix_rows (bs : list ref) (rows cols n : nat) (output : string)
  : res string :=
  match n with
  | O => Ok output
  | S n' =>
      output ← matrix_row bs rows cols (rows - n)%nat cols output;
      matrix_rows bs rows cols n' output
  end.

Definition Matrix_toLatex (bs : list ref) (rows cols : nat) : res string :=
  output ← matrix_rows bs rows cols rows "\begin{matrix}";
  Ok (output +:+ "\end{matrix}").

Definition Component_toLatex (c : Component) : res string :=
  match class c with
  | MatrixComponent rows cols => Matrix_toLatex (blocks c) rows cols
  | k => fill (blocks c) (template k)
  end.

Definition toLatex_obj (o : obj) : res string :=
  match o with
  | OBlock b => Block_toLatex b
  | OComp c => Component_toLatex c
  end.

(** The loop of [Expression.toLatex]. *)
Fixpoint concat_components (cs : list ref) (latex : string) : res string :=
  match cs with
  | [] => Ok latex
  | c :: cs' => s ← rec c; concat_components cs' (latex +:+ s)
  end.
End toLatex.

(** [x.toLatex()] for the object behind [x]; a reference outside the store
    does not exist in the program and is treated as an error. *)
Fixpoint render (fuel : nat) (h : store) (x : ref) : res string :=
  match fuel with
  | O => OutOfFuel
  | S n =>
      match h !! x with
      | None => TypeError
      | Some o => toLatex_obj (render n h) h o
      end
  end.

Definition Expression_toLatex (fuel : nat) (h : store) (components : list ref)
  : res string :=
  latex ← concat_components (render fuel h) components ""; Ok (trim latex).

(** ** Constructors *)

(** [Colors.getNew()] is called by every constructor except those of
    [TextComponent], [MJXGUISymbol] and [FrameBox], whose colour stays
    [null]. *)
Definition has_color (k : cls) : bool :=
  match k with
  | TextComponent | MJXGUISymbol _ | FrameBox => false
  | _ => true
  end.

(** [new K(par, ...)]: the component is allocated at the next free
    reference and its blocks right after it, each with [parent] set to the
    component.  [col] is the colour the random palette draws.  A [par] that
    is [undefined] is replaced by the default value [null] of the
    constructor's parameter. *)
Definition new_component (k : cls) (par : jsref) (col : string) (h : store)
  : ref * store :=
  let c := length h in
  let bs := seq (S c) (arity k) in
  (c, h ++ OComp {| class := k; blocks := bs;
                    parent := match par with Undefined => Null | p => p end;
                    color := if has_color k then Some col else None |}
        :: map (fun _ => OBlock {| children := []; block_parent := Ref c |}) bs).

(** [Block.addChild(x, i)] and [Block.removeChild(i)] *)
Definition Block_addChild (b : Block) (x : child_t) (i : Z) : Block :=
  {| children := splice_add (children b) i x; block_parent := block_parent b |}.

Definition Block_removeChild (b : Block) (i : Z) : Block :=
  {| children := splice_remove (children b) i; block_parent := block_parent b |}.

(** [const _ = new TextComponent(par); _.blocks[0].addChild(text)]: the
    block of the new component is the one just allocated after it. *)
Definition new_text (par : jsref) (text : string) (h : store) : ref * store :=
  let '(c, h1) := new_component TextComponent par "" h in
  (c, <[S c := OBlock (Block_addChild (mkBlock [] (Ref c)) (CStr text) 0)]> h1).

(** ** The cursor *)

(** The cursor together with the store and the [components] array of its
    expression.  [child] and [position] are addresses (twice the number). *)
Record state : Type := mkState {
  heap : store;
  components : list ref;
  block : jsref;
  component : jsref;
  child : addr;
  position : addr;
  latex : string
}.

(** [new Cursor(new Expression(), display)] *)
Definition init : state :=
  {| heap := []; components := []; block := Null; component := Null;
     child := -1; position := -1; latex := "" |}.

(** A value read from an array: [undefined] when there is none. *)
Definition js_ref (o : option ref) : jsref := from_option Ref Undefined o.

(** Access to [v.children]: [v] has to be a block. *)
Definition get_block (h : store) (v : jsref) : res (ref * Block) :=
  match v with
  | Ref b => match h !! b with Some (OBlock B) => Ok (b, B) | _ => TypeError end
  | _ => TypeError
  end.

(** Access to [v.blocks]: [v] has to be a component. *)
Definition get_comp (h : store) (v : jsref) : res (ref * Component) :=
  match v with
  | Ref c => match h !! c with Some (OComp C) => Ok (c, C) | _ => TypeError end
  | _ => TypeError
  end.

(** [x instanceof TextComponent || x instanceof MJXGUISymbol] for a value
    read from an array of components. *)
Definition is_leaf (h : store) (x : option ref) : bool :=
  match x with
  | Some r => match h !! r with Some (OComp C) => is_leaf_cls (class C) | _ => false end
  | None => false
  end.

(** The same test for an element of [children]. *)
Definition is_leaf_child (h : store) (x : option child_t) : bool :=
  match x with
  | Some (CRef r) => is_leaf h (Some r)
  | _ => false
  end.

(** [Component.isEmpty()] *)
Fixpoint isEmpty (h : store) (bs : list ref) : res bool :=
  match bs with
  | [] => Ok true
  | b :: bs' =>
      match h !! b with
      | Some (OBlock B) =>
          if (length (children B) =? 0)%nat then isEmpty h bs' else Ok false
      | _ => TypeError
      end
  end.

Definition addText (text : string) (st : state) : res state :=
  match block st with
  | Null =>
      let '(c, h) := new_text Null text (heap st) in
      Ok {| heap := h;
            components := splice_add (components st) (ceil2 (position st)) c;
            block := Null; component := component st;
            child := -1; position := position st + 2; latex := latex st |}
  | Ref b =>
      let '(c, h) := new_text (Ref b) text (heap st) in
      match h !! b with
      | Some (OBlock B) =>
          Ok {| heap := <[b := OBlock (Block_addChild B (CRef c) (ceil2 (child st)))]> h;
                components := components st;
                block := Ref b; component := component st;
                child := child st + 2; position := position st; latex := latex st |}
      | _ => TypeError
      end
  | Undefined => TypeError
  end.

(** [addComponent(component)] for a component [c] already constructed. *)
Definition addComponent (c : ref) (st : state) : res state :=
  match block st with
  | Null =>
      let comps := splice_add (components st) (ceil2 (position st)) c in
      let pos := of_int (ceil2 (position st)) in
      if is_leaf (heap st) (Some c) then
        Ok {| heap := heap st; components := comps;
              block := Null; component := Null;
              child := -1; position := pos + 1; latex := latex st |}
      else
        '(_, C) ← get_comp (heap st) (Ref c);
        Ok {| heap := heap st; components := comps;
              block := js_ref (blocks C !! 0%nat); component := Ref c;
              child := -1; position := pos; latex := latex st |}
  | v =>
      '(b, B) ← get_block (heap st) v;
      let h := <[b := OBlock (Block_addChild B (CRef c) (ceil2 (child st)))]> (heap st) in
      if is_leaf (heap st) (Some c) then
        Ok {| heap := h; components := components st;
              block := block st; component := component st;
              child := child st + 2; position := position st; latex := latex st |}
      else
        '(_, C) ← get_comp (heap st) (Ref c);
        Ok {| heap := h; components := components st;
              block := js_ref (blocks C !! 0%nat); component := Ref c;
              child := -1; position := position st; latex := latex st |}
  end.

(** What the key handler and the palette do: construct the component with
    the current block as its parent, then add it. *)
Definition insert (k : cls) (col : string) (st : state) : res state :=
  let '(c, h) := new_component k (block st) col (heap st) in
  addComponent c {| heap := h; components := components st;
                    block := block st; component := component st;
                    child := child st; position := position st;
                    latex := latex st |}.

(** The two branches of [removeComponent] taken when [this.block] is not
    [null]. *)
Definition removeComponent_in (st : state) : res state :=
  '(c, C) ← get_comp (heap st) (component st);
  match parent C with
  | Null =>
      let i := indexOf Nat.eqb (components st) c in
      let comps := if i =? -1 then components st
                   else splice_remove (components st) i in
      Ok {| heap := heap st; components := comps;
            block := Null; component := Null;
            child := -1; position := position st - 1; latex := latex st |}
  | pv =>
      '(pb, PB) ← get_block (heap st) pv;
      let i := indexOf child_eqb (children PB) (CRef c) in
      if i =? -1 then
        Ok {| heap := heap st; components := components st;
              block := Ref pb; component := block_parent PB;
              child := child st; position := position st; latex := latex st |}
      else
        Ok {| heap := <[pb := OBlock (Block_removeChild PB i)]> (heap st);
              components := components st;
              block := Ref pb; component := block_parent PB;
              child := before i; position := position st; latex := latex st |}
  end.

(** [removeComponent()]: at top level it steps into the leaf on the left
    and calls itself; [this.block] is then a block or [undefined], never
    [null], so the second call takes one of the two branches above. *)
Definition removeComponent (st : state) : res state :=
  match block st with
  | Null =>
      let prev := js_at (components st) (floor2 (position st)) in
      if is_leaf (heap st) prev then
        '(c, C) ← get_comp (heap st) (js_ref prev);
        removeComponent_in
          {| heap := heap st; components := components st;
             block := js_ref (blocks C !! 0%nat); component := Ref c;
             child := -1; position := of_int (floor2 (position st));
             latex := latex st |}
      else Ok st
  | _ => removeComponent_in st
  end.

(** The state with new cursor fields; store and expression untouched. *)
Definition move (st : state) (b c : jsref) (ch pos : addr) : state :=
  {| heap := heap st; components := components st;
     block := b; component := c; child := ch; position := pos;
     latex := latex st |}.

(** [bs.indexOf(v)] for the value of [this.block]. *)
Definition index_of_block (bs : list ref) (v : jsref) : Z :=
  match v with
  | Ref b => indexOf Nat.eqb bs b
  | _ => -1
  end.

Definition seekRight (st : state) : res state :=
  let maxPos := before (Z.of_nat (length (components st))) in
  if maxPos <=? position st then Ok st
  else
    match block st with
    | Null =>
        let pos := position st + 1 in
        let x := js_index (components st) pos in
        if is_leaf (heap st) x then
          Ok (move st Null Null (-1) (pos + 1))
        else
          '(c, C) ← get_comp (heap st) (js_ref x);
          Ok (move st (js_ref (blocks C !! 0%nat)) (Ref c) (-1) pos)
    | v =>
        '(b, B) ← get_block (heap st) v;
        if child st =? before (Z.of_nat (length (children B))) then
          '(c, C) ← get_comp (heap st) (component st);
          let pos := index_of_block (blocks C) v in
          if pos =? Z.of_nat (length (blocks C)) - 1 then
            match parent C with
            | Null => Ok (move st Null Null (-1) (position st + 1))
            | pv =>
                '(pb, PB) ← get_block (heap st) pv;
                Ok (move st (Ref pb) (block_parent PB)
                      (of_int (indexOf child_eqb (children PB) (CRef c)) + 1)
                      (position st))
            end
          else
            Ok (move st (js_ref (js_at (blocks C) (pos + 1))) (component st)
                  (-1) (position st))
        else
          let next := js_at (children B) (ceil2 (child st)) in
          if is_leaf_child (heap st) next then
            Ok (move st (block st) (component st) (child st + 2) (position st))
          else
            match next with
            | Some (CRef r) =>
                '(c, C) ← get_comp (heap st) (Ref r);
                Ok (move st (js_ref (blocks C !! 0%nat)) (Ref c) (-1) (position st))
            | _ => TypeError
            end
    end.

Definition seekLeft (st : state) : res state :=
  if position st <=? -1 then Ok st
  else
    match block st with
    | Null =>
        let pos := position st - 1 in
        let x := js_index (components st) pos in
        if is_leaf (heap st) x then
          Ok (move st Null Null (-1) (pos - 1))
        else
          '(c, C) ← get_comp (heap st) (js_ref x);
          '(b, B) ← get_block (heap st)
                      (js_ref (js_at (blocks C) (Z.of_nat (length (blocks C)) - 1)));
          Ok (move st (Ref b) (Ref c) (before (Z.of_nat (length (children B)))) pos)
    | v =>
        if child st =? -1 then
          '(c, C) ← get_comp (heap st) (component st);
          let pos := index_of_block (blocks C) v in
          if pos =? 0 then
            match parent C with
            | Null => Ok (move st Null Null (-1) (position st - 1))
            | pv =>
                '(pb, PB) ← get_block (heap st) pv;
                Ok (move st (Ref pb) (block_parent PB)
                      (of_int (indexOf child_eqb (children PB) (CRef c)) - 1)
                      (position st))
            end
          else
            '(b, B) ← get_block (heap st) (js_ref (js_at (blocks C) (pos - 1)));
            Ok (move st (Ref b) (component st)
                  (before (Z.of_nat (length (children B)))) (position st))
        else
          '(_, B0) ← get_block (heap st) v;
          let prev := js_at (children B0) (floor2 (child st)) in
          if is_leaf_child (heap st) prev then
            Ok (move st (block st) (component st) (child st - 2) (position st))
          else
            match prev with
            | Some (CRef r) =>
                '(c, C) ← get_comp (heap st) (Ref r);
                '(b, B) ← get_block (heap st)
                            (js_ref (js_at (blocks C) (Z.of_nat (length (blocks C)) - 1)));
                Ok (move st (Ref b) (Ref c)
                      (before (Z.of_nat (length (children B)))) (position st))
            | _ => TypeError
            end
    end.

Definition backspace (st : state) : res state :=
  if (length (components st) =? 0)%nat then Ok st
  else if position st =? -1 then Ok st
  else
    match block st with
    | Null =>
        let prev := js_at (components st) (floor2 (position st)) in
        if is_leaf (heap st) prev then removeComponent st
        else
          '(c, C) ← get_comp (heap st) (js_ref prev);
          '(b, B) ← get_block (heap st)
                      (js_ref (js_at (blocks C) (Z.of_nat (length (blocks C)) - 1)));
          Ok (move st (Ref b) (Ref c) (before (Z.of_nat (length (children B))))
                (of_int (floor2 (position st))))
    | v =>
        '(c, C) ← get_comp (heap st) (component st);
        e ← isEmpty (heap st) (blocks C);
        if (e : bool) then removeComponent st
        else if child st <=? -1 then
          let blockPos := index_of_block (blocks C) v in
          if blockPos =? 0 then Ok st
          else
            '(b, B) ← get_block (heap st) (js_ref (js_at (blocks C) (blockPos - 1)));
            Ok (move st (Ref b) (component st)
                  (before (Z.of_nat (length (children B)))) (position st))
        else
          '(b, B) ← get_block (heap st) v;
          Ok {| heap := <[b := OBlock (Block_removeChild B (floor2 (child st)))]> (heap st);
                components := components st;
                block := block st; component := component st;
                child := child st - 2; position := position st;
                latex := latex st |}
    end.

(** [Cursor.toLatex()]: serialises the expression and stores the result in
    [this.latex]. *)
Definition toLatex (fuel : nat) (st : state) : res (string * state) :=
  l ← Expression_toLatex fuel (heap st) (components st);
  Ok (l, {| heap := heap st; components := components st;
            block := block st; component := component st;
            child := child st; position := position st; latex := l |}).

Definition set_heap (st : state) (h : store) : state :=
  {| heap := h; components := components st;
     block := block st; component := component st;
     child := child st; position := position st; latex := latex st |}.

Definition set_components (st : state) (cs : list ref) : state :=
  {| heap := heap st; components := cs;
     block := block st; component := component st;
     child := child st; position := position st; latex := latex st |}.

(** [Component.removeBlock(i)] followed by [Component.addBlock(x, i)] *)
Definition replace_block (C : Component) (i : Z) (x : ref) : Component :=
  {| class := class C;
     blocks := splice_add (splice_remove (blocks C) i) i x;
     parent := parent C; color := color C |}.

(** [F.blocks[0] = b] *)
Definition set_block0 (F : Component) (b : ref) : Component :=
  {| class := class F; blocks := <[0%nat := b]> (blocks F);
     parent := parent F; color := color F |}.

(** [Cursor.toDisplayLatex()]: the caret and the frame are constructed and
    put into the tree, the expression is serialised, and both are taken
    out again.  A call that throws is [TypeError]: the value says that the
    call does not return and nothing about the objects it leaves behind.
    In the branch taken when [this.block] is not [null] the source throws
    only after [this.component.blocks] was changed (with [this.block]
    undefined it throws at [this.block.addChild], the frame standing in
    the place of the block), so the store after a [TypeError] of this
    function is not the store before the call.  What is proved of the
    store after a call is proved from a result [Ok]; the state a throw
    leaves behind is given by [toDisplayLatex_outcome], of which this
    function is the result. *)
Definition toDisplayLatex (fuel : nat) (st : state) : res (string * state) :=
  let '(caret, h) := new_text (block st) "|" (heap st) in
  let '(frame, h) := new_component FrameBox (block st) "" h in
  match block st with
  | Null =>
      let st1 := set_components (set_heap st h)
                   (splice_add (components st) (ceil2 (position st)) caret) in
      '(l, st2) ← toLatex fuel st1;
      Ok (l, set_components st2
               (splice_remove (components st2) (ceil2 (position st2))))
  | v =>
      '(c, C) ← get_comp h (component st);
      '(b, B) ← get_block h v;
      '(_, F) ← get_comp h (Ref frame);
      let i := index_of_block (blocks C) v in
      let h := <[c := OComp (replace_block C i frame)]> h in
      let h := <[frame := OComp (set_block0 F b)]> h in
      let h := <[b := OBlock (Block_addChild B (CRef caret) (ceil2 (child st)))]> h in
      '(l, st2) ← toLatex fuel (set_heap st h);
      '(c, C) ← get_comp (heap st2) (component st2);
      let i := indexOf Nat.eqb (blocks C) frame in
      let h := <[c := OComp (replace_block C i b)]> (heap st2) in
      '(b, B) ← get_block h (block st2);
      let h := <[b := OBlock (Block_removeChild B (ceil2 (child st2)))]> h in
      Ok (l, set_heap st2 h)
  end.

(** ** Operations and reachable states *)

(** What the key handler and the palette hand to the cursor: a text, a
    component of some class constructed with the current block as parent
    (and the colour the palette drew), or a key that moves or deletes. *)

Inductive op : Type :=
  | OpText (text : string)
  | OpInsert (k : cls) (col : string)
  | OpBackspace
  | OpSeekLeft
  | OpSeekRight.

Definition run_op (o : op) (st : state) : res state :=
  match o with
  | OpText text => addText text st
  | OpInsert k col => insert k col st
  | OpBackspace => backspace st
  | OpSeekLeft => seekLeft st
  | OpSeekRight => seekRight st
  end.

Fixpoint run (os : list op) (st : state) : res state :=
  match os with
  | [] => Ok st
  | o :: os' => st' ← run_op o st; run os' st'
  end.

(** The states reachable from the initial one by operations that satisfy
    [P]. *)
Inductive reachable_by (P : op -> Prop) : state -> Prop :=
  | reachable_init : reachable_by P init
  | reachable_step (st st' : state) (o : op) :
      reachable_by P st -> P o -> run_op o st = Ok st' -> reachable_by P st'.

(** Every operation is allowed. *)
Definition reachable : state -> Prop := reachable_by (fun _ => True).

(** A matrix that is inserted has at least one cell. *)
Definition with_cells (o : op) : Prop :=
  match o with
  | OpInsert (MatrixComponent rows cols) _ => (0 < rows)%nat /\ (0 < cols)%nat
  | _ => True
  end.

(** ** Reference definitions for the serialisation *)

(** The markup one child of a block contributes: a string itself, a
    component its own [toLatex()]. *)
Definition child_markup (rec : ref -> res string) (c : child_t) : res string :=
  match c with
  | CStr s => Ok s
  | CRef r => rec r
  end.

(** Strings put one after the other, in order. *)
Fixpoint concat_strings (l : list string) : string :=
  match l with
  | [] => ""
  | s :: l' => s +:+ concat_strings l'
  end.

Fixpoint all_space (s : string) : bool :=
  match s with
  | EmptyString => true
  | String a s' => is_space a && all_space s'
  end.

Definition starts_with_space (s : string) : bool :=
  match s with
  | EmptyString => false
  | String a _ => is_space a
  end.

Fixpoint ends_with_space (s : string) : bool :=
  match s with
  | EmptyString => false
  | String a EmptyString => is_space a
  | String _ s' => ends_with_space s'
  end.

(** What follows cell [k] of a matrix laid out row by row: the column
    separator, except after the last cell of a row, where it is the row
    separator, except in the last row, where it is nothing. *)
Definition matrix_separator (rows cols k : nat) : string :=
  let i := (k / cols)%nat in
  let j := (k mod cols)%nat in
  if (j =? cols - 1)%nat then
    if (i =? rows - 1)%nat then "" else " \\ "
  else " & ".

Definition matrix_markup (rows cols : nat) (cells : list string) : string :=
  "\begin{matrix}"
  +:+ concat_strings (imap (fun k cell => cell +:+ matrix_separator rows cols k) cells)
  +:+ "\end{matrix}".

(** Cell [k] of a matrix and the text it contributes. *)
Definition matrix_cell_at (cells : list string) (k : nat) : string :=
  nth k cells "".

Definition matrix_item (rows cols : nat) (cells : list string) (k : nat) : string :=
  matrix_cell_at cells k +:+ matrix_separator rows cols k.

(** ** Scenarios *)

(** A square root holding the symbol alpha: the markup of the only child
    of its block ends with the space the symbol appends. *)
Definition sqrt_alpha : list op :=
  [OpInsert Sqrt "red"; OpInsert (MJXGUISymbol "\alpha") "red"].

(** A square root inside a square root, the letter a typed into the inner
    one, and the cursor moved out of the inner one: it rests in the block
    of the outer root, right after the inner root. *)
Definition nested_sqrt : list op :=
  [OpInsert Sqrt "red"; OpInsert Sqrt "blue"; OpText "a"; OpSeekRight].

Definition from_ok {A} (d : A) (r : res A) : A :=
  match r with
  | Ok a => a
  | _ => d
  end.

Definition nested_sqrt_state : state :=
  Eval vm_compute in from_ok init (run nested_sqrt init).

(** A square root inserted into the empty expression: the cursor is inside
    its block. *)
Definition one_sqrt : list op := [OpInsert Sqrt "red"].

Definition one_sqrt_state : state :=
  Eval vm_compute in from_ok init (run one_sqrt init).

(** The letter a typed into the empty expression. *)
Definition one_letter : list op := [OpText "a"].

Definition one_letter_state : state :=
  Eval vm_compute in from_ok init (run one_letter init).



(** ** Invariants *)

(** The states of the text round trip: [n] text components at top level,
    pairwise distinct, and the cursor right after the last one. *)
Definition text_run (n : nat) (st : state) : Prop :=
  block st = Null /\ component st = Null /\ child st = -1
  /\ position st = before (Z.of_nat n)
  /\ length (components st) = n
  /\ NoDup (components st)
  /\ forall c, c ∈ components st ->
       exists C, heap st !! c = Some (OComp C)
                 /\ class C = TextComponent /\ parent C = Null.

(** A cursor at rest: at top level it stands in a gap between two
    components or at an end of the expression, inside a block in a gap
    between two children or at an end of the block. *)
Definition resting (st : state) : Prop :=
  match block st with
  | Null =>
      component st = Null
      /\ exists i : nat, (i <= length (components st))%nat
                         /\ position st = before (Z.of_nat i)
  | Ref b =>
      exists (B : Block) (i : nat),
        heap st !! b = Some (OBlock B)
        /\ (i <= length (children B))%nat
        /\ child st = before (Z.of_nat i)
  | Undefined => False
  end.

(** Every block of the store is owned by some object. *)
Definition owned (h : store) : Prop :=
  forall b B, h !! b = Some (OBlock B) -> exists c, block_parent B = Ref c.

(** What every reachable state satisfies, whatever was inserted. *)
Definition light (st : state) : Prop :=
  owned (heap st)
  /\ is_half (child st)
  /\ (block st = Null <-> component st = Null)
  /\ (block st = Null <-> is_half (position st)).

(** ** The shape of the store and of the cursor *)

(** [anc h c t]: following [parent] upwards from the component [c] ends
    at the top-level component [t]; every step goes from a component to
    the block that lists it among its children, and on to the component
    that owns this block.  References decrease along the way. *)
Inductive anc (h : store) : ref -> ref -> Prop :=
  | anc_top (c : ref) (C : Component) :
      h !! c = Some (OComp C) -> parent C = Null -> anc h c c
  | anc_step (c pb c' t : ref) (C C' : Component) (PB : Block) :
      h !! c = Some (OComp C) -> parent C = Ref pb ->
      h !! pb = Some (OBlock PB) -> CRef c ∈ children PB ->
      block_parent PB = Ref c' ->
      h !! c' = Some (OComp C') -> is_leaf_cls (class C') = false ->
      (c' < pb)%nat -> (pb < c)%nat ->
      anc h c' t -> anc h c t.

(** A component of the store: its blocks are the ones allocated with it,
    each a block owned by it; a component that is not a leaf has a block;
    its parent is null or an older block. *)
Definition comp_ok (h : store) (x : ref) (C : Component) : Prop :=
  blocks C = seq (S x) (arity (class C))
  /\ (forall b, b ∈ blocks C ->
        exists B, h !! b = Some (OBlock B) /\ block_parent B = Ref x)
  /\ (is_leaf_cls (class C) = false -> (0 < arity (class C))%nat)
  /\ match parent C with
     | Null => True
     | Undefined => False
     | Ref pb => (pb < x)%nat /\ exists PB, h !! pb = Some (OBlock PB)
     end.

(** A block of the store: no child occurs twice; its parent is a component
    that lists it among its blocks; unless that is a leaf, every child is
    a component whose parent is this block; the block of a leaf holds
    strings only. *)
Definition block_ok (h : store) (x : ref) (B : Block) : Prop :=
  NoDup (children B)
  /\ exists c C,
       block_parent B = Ref c /\ h !! c = Some (OComp C) /\ x ∈ blocks C
       /\ (is_leaf_cls (class C) = false ->
           forall ch, ch ∈ children B ->
             exists y Y, ch = CRef y /\ h !! y = Some (OComp Y)
                         /\ parent Y = Ref x)
       /\ (is_leaf_cls (class C) = true ->
           forall ch, ch ∈ children B -> exists s, ch = CStr s).

Definition store_ok (h : store) : Prop :=
  forall x o, h !! x = Some o ->
    match o with
    | OComp C => comp_ok h x C
    | OBlock B => block_ok h x B
    end.

(** [skel h h']: the store [h'] has every component of [h] unchanged and
    every block of [h] with the same parent, possibly other children.
    Allocation and every change of a block's children are such steps. *)
Definition skel (h h' : store) : Prop :=
  (forall x C, h !! x = Some (OComp C) -> h' !! x = Some (OComp C))
  /\ (forall x B, h !! x = Some (OBlock B) ->
        exists B', h' !! x = Some (OBlock B')
                   /\ block_parent B' = block_parent B).

(** The top-level components are components without parent. *)
Definition tops_ok (h : store) (comps : list ref) : Prop :=
  forall t, t ∈ comps -> exists T, h !! t = Some (OComp T) /\ parent T = Null.

(** The cursor rests at top level, in the gap before component [i]. *)
Definition at_top (comps : list ref) (cv : jsref) (ch pos : addr) : Prop :=
  cv = Null /\ ch = -1
  /\ exists i : nat, (i <= length comps)%nat /\ pos = before (Z.of_nat i).

(** The cursor rests in block [b], in the gap before child [i]; the block
    belongs to the current component, which is not a leaf and lies in the
    top-level component [position] points at. *)
Definition inside (h : store) (comps : list ref) (b : ref) (cv : jsref)
    (ch pos : addr) : Prop :=
  exists (B : Block) (c : ref) (C : Component) (t i k : nat),
    h !! b = Some (OBlock B) /\ block_parent B = Ref c /\ cv = Ref c
    /\ h !! c = Some (OComp C) /\ is_leaf_cls (class C) = false
    /\ (i <= length (children B))%nat /\ ch = before (Z.of_nat i)
    /\ anc h c t /\ comps !! k = Some t /\ pos = of_int (Z.of_nat k).

Definition cursor_ok (st : state) : Prop :=
  NoDup (components st)
  /\ tops_ok (heap st) (components st)
  /\ match block st with
     | Null => at_top (components st) (component st) (child st) (position st)
     | Undefined => False
     | Ref b => inside (heap st) (components st) b (component st)
                  (child st) (position st)
     end.

Definition inv (st : state) : Prop := store_ok (heap st) /\ cursor_ok st.


(** [ranked h m N]: the rank [m], below [N], grows along every reference
    that the serialisation follows (from a component to its blocks, from a
    block to its children), the objects referred to exist, every component
    has the number of blocks its class serialises, and an empty block has
    an owner to take the colour from.  Serialisation of such a store
    terminates and does not throw. *)
Definition ranked (h : store) (m : ref -> nat) (N : nat) : Prop :=
  forall x o, h !! x = Some o ->
    (m x < N)%nat
    /\ match o with
       | OComp C =>
           length (blocks C) = arity (class C)
           /\ forall b, b ∈ blocks C -> is_Some (h !! b) /\ (m x < m b)%nat
       | OBlock B =>
           (children B = [] ->
            exists p, block_parent B = Ref p /\ is_Some (h !! p))
           /\ forall y, CRef y ∈ children B ->
                is_Some (h !! y) /\ (m x < m y)%nat
       end.

(** What an observer of the document can compare before and after a call:
    the expression, the cursor's block, component, child and position, and
    every object of the store, parent pointers included. *)
Definition same_document (st st' : state) : Prop :=
  components st' = components st
  /\ block st' = block st /\ component st' = component st
  /\ child st' = child st /\ position st' = position st
  /\ forall x o, heap st !! x = Some o -> heap st' !! x = Some o.

(** The rank of the store decorated for display: the frame, allocated
    last, sits between the current component and the current block. *)
Definition display_rank (f b : ref) (x : ref) : nat :=
  if decide (x = f) then (2 * b - 1)%nat else (2 * x)%nat.

(** * The rest of the expression, the key handler and the editor *)

(** ** [Expression.add] and [Expression.remove] *)

(** Both take an optional [position]: without it [add] appends and
    [remove] takes the last component. *)
Definition Expression_add (cs : list ref) (c : ref) (position : option Z)
  : list ref :=
  splice_add cs (default (Z.of_nat (length cs)) position) c.

Definition Expression_remove (cs : list ref) (position : option Z)
  : list ref :=
  splice_remove cs (default (Z.of_nat (length cs) - 1) position).

(** ** [Cursor.updateDisplay] *)

(** The display element is represented by the text assigned to its
    [innerHTML]; the calls into MathJax are outside the embedding. *)
Definition updateDisplay (fuel : nat) (st : state) : res (string * state) :=
  '(d, st') ← toDisplayLatex fuel st;
  Ok ("$$" +:+ d +:+ "$$", st').

(** ** [Cursor.keyPress] *)

(** The set [characters]: the one-character strings typed as they are. *)
Definition characters : list string :=
  map (fun a => String a EmptyString)
      (list_ascii_of_string
         ("abcdefghijklmnopqrstuvwxyzABCDEFGHIJKLMNOPQRSTUVWXYZ1234567890!@^*()[];:'"
          +:+ String (ascii_of_nat 34) EmptyString
          +:+ "/?.,<>-=+`~")).

(** The [switch] over [event.key] taken when the control key is held:
    the component it constructs, if any.  [lastKey] is [undefined] before
    the first key, [None] here. *)
Definition keyPress_component (key : string) (lastKey : option string)
  : option cls :=
  let symbolKey := "y" in
  let greekKey := "w" in
  let trigoKey := "t" in
  let last (k : string) : bool := bool_decide (lastKey = Some k) in
  let sym (d : string) := Some (MJXGUISymbol d) in
  if String.eqb key "R" then Some NthRoot
  else if String.eqb key "f" then Some (TemplateTwoBlockContinuousComponent "dfrac")
  else if String.eqb key "h" then Some Superscript
  else if String.eqb key "r" then
    if last greekKey then sym "\rho" else Some Sqrt
  else if String.eqb key "0" then
    if last greekKey then sym "\phi" else None
  else if String.eqb key "3" then
    if last greekKey then sym "\epsilon" else None
  else if String.eqb key "9" then Some BracketR
  else if String.eqb key "[" then Some BracketS
  else if String.eqb key "{" then Some BracketC
  else if String.eqb key "i" then
    if last symbolKey then sym "\infty"
    else Some (TemplateThreeBlockComponent "displaystyle\int\limits")
  else if String.eqb key "I" then Some (TemplateOneBlockComponent "displaystyle\int")
  else if String.eqb key "s" then
    if last greekKey then sym "\sigma"
    else if last trigoKey then sym "\sin"
    else Some (TemplateThreeBlockComponent "displaystyle\sum")
  else if String.eqb key "c" then
    if last trigoKey then sym "\cos" else None
  else if String.eqb key "S" then Some (TemplateOneBlockComponent "displaystyle\sum")
  else if String.eqb key "v" then Some (TemplateOneBlockComponent "overrightarrow")
  else if String.eqb key "a" then
    if last greekKey then sym "\alpha" else sym "\longrightarrow"
  else if String.eqb key "q" then sym "\leftrightharpoons"
  else if String.eqb key "l" then
    if last symbolKey then sym "\leq"
    else if last greekKey then sym "\lambda"
    else Some Subscript
  else if String.eqb key "g" then
    let c := if last symbolKey then sym "\geq" else None in
    if last greekKey then sym "\gamma" else c
  else if String.eqb key "t" then
    if last symbolKey then sym "\therefore"
    else if last greekKey then sym "\theta"
    else if last trigoKey then sym "\tan"
    else None
  else if String.eqb key "b" then
    if last symbolKey then sym "\because"
    else if last greekKey then sym "\beta"
    else None
  else if String.eqb key "e" then
    if last symbolKey then sym "\equiv"
    else if last greekKey then sym "\eta"
    else sym "\Rightarrow"
  else if String.eqb key "m" then
    if last symbolKey then sym "\times"
    else if last greekKey then sym "\mu"
    else None
  else if String.eqb key "p" then
    if last symbolKey then sym "\propto"
    else if last greekKey then sym "\pi"
    else None
  else if String.eqb key "D" then
    if last greekKey then sym "\Delta" else None
  else if String.eqb key "d" then
    if last greekKey then sym "\delta" else None
  else if String.eqb key "o" then
    if last greekKey then sym "\omega" else None
  else if String.eqb key "O" then
    if last greekKey then sym "\Omega" else None
  else None.

(** The keys inserted as a symbol that is the key behind a backslash. *)
Definition escaped_keys : list string := ["$"; "#"; "%"; "&"; "_"; "{"; "}"].

(** The change of the cursor a key stands for, before the display is
    refreshed.  [click_save] is the click on the save button that the
    Enter key triggers: it runs handlers of the page.  [col] is the colour
    the palette draws if a component is constructed. *)
Definition keyPress_action (click_save : state -> res state)
    (ctrlKey : bool) (key : string) (lastKey : option string) (col : string)
    (st : state) : res state :=
  if ctrlKey then
    match keyPress_component key lastKey with
    | Some k => insert k col st
    | None => Ok st
    end
  else if bool_decide (key ∈ characters) then addText key st
  else if String.eqb key "ArrowLeft" then seekLeft st
  else if String.eqb key "ArrowRight" then seekRight st
  else if String.eqb key "Backspace" then backspace st
  else if String.eqb key "Enter" then click_save st
  else if String.eqb key " " then insert (MJXGUISymbol "\:\:") col st
  else if String.eqb key backslash then insert (MJXGUISymbol "\backslash") col st
  else if bool_decide (key ∈ escaped_keys) then
    insert (MJXGUISymbol (backslash +:+ key)) col st
  else Ok st.

(** [keyPress(event, lastKey)]: the action of the key, then
    [updateDisplay()].  The result is the text put into the display and
    the state left behind. *)
Definition keyPress (click_save : state -> res state) (fuel : nat)
    (ctrlKey : bool) (key : string) (lastKey : option string) (col : string)
    (st : state) : res (string * state) :=
  st1 ← keyPress_action click_save ctrlKey key lastKey col st;
  updateDisplay fuel st1.

(** The operation of the cursor a key stands for, if it is one of the
    five. *)
Definition key_op (ctrlKey : bool) (key : string) (lastKey : option string)
    (col : string) : option op :=
  if ctrlKey then
    match keyPress_component key lastKey with
    | Some k => Some (OpInsert k col)
    | None => None
    end
  else if bool_decide (key ∈ characters) then Some (OpText key)
  else if String.eqb key "ArrowLeft" then Some OpSeekLeft
  else if String.eqb key "ArrowRight" then Some OpSeekRight
  else if String.eqb key "Backspace" then Some OpBackspace
  else if String.eqb key "Enter" then None
  else if String.eqb key " " then Some (OpInsert (MJXGUISymbol "\:\:") col)
  else if String.eqb key backslash then Some (OpInsert (MJXGUISymbol "\backslash") col)
  else if bool_decide (key ∈ escaped_keys) then
    Some (OpInsert (MJXGUISymbol (backslash +:+ key)) col)
  else None.

(** ** A refresh that throws *)

(** [toDisplayLatex] changes objects before it serialises the expression;
    when it throws in between, they stay changed.  [thrown] is what a call
    that throws leaves behind: the cursor and the store at the throw.  The
    arrays [blocks] of the store hold references, so an element that holds
    [null] or [undefined] at the throw cannot be shown there: [voided]
    lists these elements, each with its component, its index and the value
    it holds, and the store keeps for them the block the constructor put
    there. *)
Record thrown : Type := mkThrown {
  left_behind : state;
  voided : list (ref * nat * jsref)
}.

Inductive outcome : Type :=
  | Returns (l : string) (st : state)
  | Throws (t : thrown)
  | NoFuel.

(** The outcome without what a throw leaves behind. *)
Definition result_of (o : outcome) : res (string * state) :=
  match o with
  | Returns l st => Ok (l, st)
  | Throws _ => TypeError
  | NoFuel => OutOfFuel
  end.

(** [frame.blocks[0] = v] in the store: a reference is written, another
    value is listed in [voided] by [void_block0]. *)
Definition write_block0 (h : store) (frame : ref) (v : jsref) : store :=
  match v, h !! frame with
  | Ref b, Some (OComp F) => <[frame := OComp (set_block0 F b)]> h
  | _, _ => h
  end.

Definition void_block0 (frame : ref) (v : jsref) : list (ref * nat * jsref) :=
  match v with
  | Ref _ => []
  | _ => [(frame, 0%nat, v)]
  end.

(** [Cursor.toDisplayLatex()] with the state every throw leaves:
    - [this.expression.toLatex()] throws: the caret (and the frame) are
      still in the tree;
    - [this.component.blocks] throws ([this.component] is no component):
      the caret and the frame were constructed, nothing else is changed;
    - [this.block.addChild] throws ([this.block] is no block): the frame
      stands in [this.component.blocks] where [indexOf] put it, and
      [frame.blocks[0]] holds [this.block]. *)
Definition toDisplayLatex_outcome (fuel : nat) (st : state) : outcome :=
  let '(caret, h) := new_text (block st) "|" (heap st) in
  let '(frame, h) := new_component FrameBox (block st) "" h in
  match block st with
  | Null =>
      let st1 := set_components (set_heap st h)
                   (splice_add (components st) (ceil2 (position st)) caret) in
      match toLatex fuel st1 with
      | Ok (l, st2) =>
          Returns l (set_components st2
                       (splice_remove (components st2) (ceil2 (position st2))))
      | TypeError => Throws (mkThrown st1 [])
      | OutOfFuel => NoFuel
      end
  | v =>
      match get_comp h (component st) with
      | Ok (c, C) =>
          let i := index_of_block (blocks C) v in
          let h1 := <[c := OComp (replace_block C i frame)]> h in
          match get_block h v, get_comp h (Ref frame) with
          | Ok (b, B), Ok (_, F) =>
              let h := <[frame := OComp (set_block0 F b)]> h1 in
              let h := <[b := OBlock (Block_addChild B (CRef caret)
                                        (ceil2 (child st)))]> h in
              match toLatex fuel (set_heap st h) with
              | Ok (l, st2) =>
                  match get_comp (heap st2) (component st2) with
                  | Ok (c, C) =>
                      let i := indexOf Nat.eqb (blocks C) frame in
                      let h := <[c := OComp (replace_block C i b)]> (heap st2) in
                      match get_block h (block st2) with
                      | Ok (b, B) =>
                          let h := <[b := OBlock (Block_removeChild B
                                                    (ceil2 (child st2)))]> h in
                          Returns l (set_heap st2 h)
                      | _ => Throws (mkThrown (set_heap st2 h) [])
                      end
                  | _ => Throws (mkThrown st2 [])
                  end
              | TypeError => Throws (mkThrown (set_heap st h) [])
              | OutOfFuel => NoFuel
              end
          | _, _ =>
              Throws (mkThrown (set_heap st (write_block0 h1 frame v))
                               (void_block0 frame v))
          end
      | _ => Throws (mkThrown (set_heap st h) [])
      end
  end.

(** ** Components constructed by other callers *)

(** [this.cursor.addComponent(new K(par, ...))]: the key handler and the
    palette pass [this.cursor.block] for [par]; the click handler of a
    button added by [MJXGUI.registerFunction] calls the constructor
    without arguments, so [par] is [undefined] there. *)
Definition addComponent_new (k : cls) (par : jsref) (col : string)
    (st : state) : res state :=
  let '(c, h) := new_component k par col (heap st) in
  addComponent c (set_heap st h).

(** ** Templates *)

(** The block a piece of a template serialises, if it is one. *)
Definition piece_block (p : piece) : option nat :=
  match p with
  | Blk i => Some i
  | Lit _ => None
  end.

(** The text a piece of a template contributes, given the markup of the
    blocks. *)
Definition piece_text (ms : list string) (p : piece) : string :=
  match p with
  | Lit s => s
  | Blk i => nth i ms ""
  end.

(** [contains s t]: the text [s] occurs in the text [t]. *)
Definition contains (s t : string) : Prop :=
  exists l r, t = l +:+ s +:+ r.

(** [shows h m N F x]: in the store [h], ranked by [m] below [N], the
    object [x] serialises, given fuel for the ranks above it, to a text
    in which [F] occurs. *)
Definition shows (h : store) (m : ref -> nat) (N : nat) (F : string)
    (x : ref) : Prop :=
  forall f, (N - m x <= f)%nat ->
    exists s, render f h x = Ok s /\ contains F s.

(** The store while the caret is shown inside the block [b] of the
    component [c], in the gap before child [i]: the caret and the frame
    are allocated, the frame takes the place of [b] among the blocks of
    [c] and holds [b], and [b] holds the caret. *)
Definition display_store (h : store) (b c : ref) (i : nat) (B : Block)
    (C : Component) : store :=
  let h2 := (new_component FrameBox (Ref b) ""
               (new_text (Ref b) "|" h).2).2 in
  <[b := OBlock {| children := take i (children B)
                               ++ CRef (length h) :: drop i (children B);
                   block_parent := block_parent B |}]>
    (<[(length h + 2)%nat := OComp {| class := FrameBox; blocks := [b];
                                     parent := Ref b; color := None |}]>
       (<[c := OComp {| class := class C;
                        blocks := <[(b - S c)%nat := (length h + 2)%nat]> (blocks C);
                        parent := parent C; color := color C |}]> h2)).

(** ** The editor: [MJXGUI.clearEquation] and [MJXGUI.getLatex] *)

(** The part of an [MJXGUI] object these two methods use: the history of
    expressions (each the array of its components; an expression put
    there is not changed again) and the cursor, which holds the current
    expression. *)
Record MJXGUI : Type := mkMJXGUI {
  eqnHistory : list (list ref);
  cursor : state
}.

(** [clearEquation()]: the result is the text put into the display and
    the editor left behind. *)
Definition clearEquation (fuel : nat) (g : MJXGUI) : res (string * MJXGUI) :=
  let history := eqnHistory g ++ [components (cursor g)] in
  let cur := {| heap := heap (cursor g); components := [];
                block := Null; component := Null;
                child := -1; position := -1; latex := "" |} in
  '(html, cur) ← updateDisplay fuel cur;
  Ok (html, {| eqnHistory := history; cursor := cur |}).

Definition getLatex (fuel : nat) (g : MJXGUI) : res (string * MJXGUI) :=
  '(l, cur) ← toLatex fuel (cursor g);
  Ok (l, {| eqnHistory := eqnHistory g; cursor := cur |}).

(** ** Further invariants and scenarios *)

(** The expression holds the texts [texts], one text component each, and
    the cursor rests at top level after the last. *)
Definition typed (texts : list string) (st : state) : Prop :=
  block st = Null
  /\ position st = before (Z.of_nat (length (components st)))
  /\ Forall2 (fun c t =>
       exists b,
         heap st !! c = Some (OComp (mkComponent TextComponent [b] Null None))
         /\ heap st !! b = Some (OBlock (mkBlock [CStr t] (Ref c))))
       (components st) texts.

(** A text or a component is put into the document. *)
Definition inserts (o : op) : Prop :=
  match o with
  | OpText _ | OpInsert _ _ => True
  | _ => False
  end.

(** An editor whose cursor rests inside a nested square root. *)
Definition nested_editor : MJXGUI :=
  {| eqnHistory := []; cursor := nested_sqrt_state |}.

(** The letters a and b typed into the empty expression. *)
Definition two_letters : list op := [OpText "a"; OpText "b"].

Definition two_letters_state : state :=
  Eval vm_compute in from_ok init (run two_letters init).

(** * Serialisation of the tree *)

Section strings.
Lemma append_nil_l (s : string) : "" +:+ s = s.
Proof. reflexivity. Qed.

Lemma append_cons (a : ascii) (s t : string) :
  String a s +:+ t = String a (s +:+ t).
Proof. reflexivity. Qed.

Lemma append_nil_r (s : string) : s +:+ "" = s.
Proof.
  induction s as [|a s IH]; [reflexivity|].
  now rewrite append_cons, IH.
Qed.

Lemma append_assoc (s t u : string) : (s +:+ t) +:+ u = s +:+ (t +:+ u).
Proof.
  induction s as [|a s IH]; [reflexivity|].
  now rewrite !append_cons, IH.
Qed.

Lemma concat_strings_app (l1 l2 : list string) :
  concat_strings (l1 ++ l2) = concat_strings l1 +:+ concat_strings l2.
Proof.
  induction l1 as [|s l1 IH]; simpl; [reflexivity|].
  now rewrite IH, append_assoc.
Qed.

Lemma ltrim_split (s : string) :
  exists l, s = l +:+ ltrim s /\ all_space l = true
            /\ starts_with_space (ltrim s) = false.
Proof.
  induction s as [|a s (l & Hs & Hl & Hn)]; simpl.
  - exists ""; auto.
  - destruct (is_space a) eqn:Ha.
    + exists (String a l); simpl. rewrite Ha, Hl, append_cons.
      split; [congruence | auto].
    + exists ""; simpl. auto.
Qed.

Lemma rtrim_split (s : string) :
  exists r, s = rtrim s +:+ r /\ all_space r = true
            /\ ends_with_space (rtrim s) = false.
Proof.
  induction s as [|a s (r & Hs & Hr & Hn)]; simpl.
  - exists ""; auto.
  - destruct (rtrim s) as [|b t] eqn:Ht.
    + destruct (is_space a) eqn:Ha.
      * exists (String a r); simpl. rewrite Ha, Hr, append_nil_l.
        split; [f_equal; exact Hs | auto].
      * exists r; simpl. rewrite Ha, append_cons.
        split; [f_equal; exact Hs | auto].
    + exists r. rewrite append_cons.
      split; [f_equal; exact Hs | split; [exact Hr | exact Hn]].
Qed.

Lemma rtrim_starts (s : string) :
  starts_with_space s = false -> starts_with_space (rtrim s) = false.
Proof.
  destruct s as [|a s]; simpl; [auto|]. intros Ha.
  destruct (rtrim s); [rewrite Ha|]; simpl; auto.
Qed.

Lemma rtrim_id (s : string) : ends_with_space s = false -> rtrim s = s.
Proof.
  induction s as [|a s IH]; simpl; [auto|].
  destruct s as [|b s]; simpl in *.
  - intros ->. reflexivity.
  - intros H. specialize (IH H).
    destruct (rtrim s) eqn:Hr.
    + destruct (is_space b) eqn:Hb; [discriminate | now rewrite IH].
    + now rewrite IH.
Qed.

Lemma ltrim_id (s : string) : starts_with_space s = false -> ltrim s = s.
Proof. destruct s as [|a s]; simpl; [auto|]. now intros ->. Qed.

(** [trim] takes white space off both ends and nothing else. *)
Lemma trim_split (s : string) :
  exists l r, s = l +:+ trim s +:+ r
              /\ all_space l = true /\ all_space r = true
              /\ starts_with_space (trim s) = false
              /\ ends_with_space (trim s) = false.
Proof.
  unfold trim.
  destruct (ltrim_split s) as (l & Hs & Hl & Hn).
  destruct (rtrim_split (ltrim s)) as (r & Hs' & Hr & Hn').
  exists l, r. repeat split; auto using rtrim_starts.
  now rewrite <- Hs'.
Qed.

Lemma trim_id (s : string) :
  starts_with_space s = false -> ends_with_space s = false -> trim s = s.
Proof. intros H1 H2. unfold trim. now rewrite ltrim_id, rtrim_id. Qed.
End strings.

Section block_markup.
Variable rec : ref -> res string.

(** The accumulating loop of [Block.toLatex] is the concatenation of the
    children's markup. *)
Lemma concat_children_spec (cs : list child_t) (ms : list string) :
  Forall2 (fun c m => child_markup rec c = Ok m) cs ms ->
  forall latex,
    concat_children rec cs latex = Ok (latex +:+ concat_strings ms).
Proof.
  induction 1 as [|c m cs ms Hc _ IH]; intros latex; simpl.
  - now rewrite append_nil_r.
  - destruct c as [s|r]; simpl in Hc.
    + injection Hc as ->. now rewrite IH, append_assoc.
    + rewrite Hc. simpl. now rewrite IH, append_assoc.
Qed.
End block_markup.

(** C7, as amended: a block with at least one child serialises to the
    in-order concatenation of its children's markup (a string child itself,
    a component child its own [toLatex()]) with the white space at both
    ends trimmed off, and nothing else added or removed; when the
    concatenation neither starts nor ends with white space the result is
    exactly the concatenation. *)
Theorem Block_toLatex_trimmed_concat
    (fuel : nat) (h : store) (b : ref) (B : Block) (ms : list string) :
  h !! b = Some (OBlock B) ->
  children B <> [] ->
  Forall2 (fun c m => child_markup (render fuel h) c = Ok m) (children B) ms ->
  render (S fuel) h b = Ok (trim (concat_strings ms))
  /\ (exists l r, concat_strings ms = l +:+ trim (concat_strings ms) +:+ r
                  /\ all_space l = true /\ all_space r = true)
  /\ (starts_with_space (concat_strings ms) = false ->
      ends_with_space (concat_strings ms) = false ->
      render (S fuel) h b = Ok (concat_strings ms)).
Proof.
  intros Hb Hne Hms.
  assert (Hr : render (S fuel) h b = Ok (trim (concat_strings ms))).
  { simpl. rewrite Hb. simpl. unfold Block_toLatex.
    destruct (children B) as [|c cs] eqn:Hcs; [congruence|].
    rewrite (concat_children_spec _ _ _ Hms). reflexivity. }
  split; [exact Hr|]. split.
  - destruct (trim_split (concat_strings ms)) as (l & r & H1 & H2 & H3 & _).
    exists l, r. auto.
  - intros H1 H2. rewrite Hr. now rewrite trim_id.
Qed.

Lemma Block_toLatex_trimmed_concat_witness :
  exists st B,
    run sqrt_alpha init = Ok st
    /\ heap st !! 1%nat = Some (OBlock B)
    /\ render 2 (heap st) 1%nat = Ok "\alpha".
Proof.
  eexists _, _. split; [reflexivity|]. split; [reflexivity|].
  refine (proj1 (Block_toLatex_trimmed_concat 1 _ 1%nat _ ["\alpha "] _ _ _)).
  - reflexivity.
  - discriminate.
  - repeat constructor.
Defined.

(** C7 as stated fails: the block of the square root has one child, whose
    markup is the symbol followed by a space, and serialises to the symbol
    without the space. *)
Lemma Block_toLatex_not_verbatim :
  exists st B,
    run sqrt_alpha init = Ok st
    /\ heap st !! 1%nat = Some (OBlock B)
    /\ children B = [CRef 2%nat]
    /\ child_markup (render 1 (heap st)) (CRef 2%nat) = Ok "\alpha "
    /\ render 2 (heap st) 1%nat = Ok "\alpha"
    /\ render 2 (heap st) 1%nat <> Ok (concat_strings ["\alpha "]).
Proof.
  eexists _, _. split; [reflexivity|].
  repeat split; try reflexivity. discriminate.
Qed.

Lemma render_S (fuel : nat) (h : store) (x : ref) :
  render (S fuel) h x
  = match h !! x with
    | None => TypeError
    | Some o => toLatex_obj (render fuel h) h o
    end.
Proof. reflexivity. Qed.

(** The placeholder is never the empty string. *)
Lemma placeholder_nonempty (col : string) : placeholder col <> "".
Proof. unfold placeholder. discriminate. Qed.

(** The blocks a constructor creates are empty and owned by the new
    component. *)
Lemma new_component_lookup_block
    (k : cls) (par : jsref) (col : string) (h : store) (i : nat) :
  (i < arity k)%nat ->
  (new_component k par col h).2 !! (S (length h) + i)%nat
  = Some (OBlock {| children := []; block_parent := Ref (length h) |}).
Proof.
  intros Hi. unfold new_component. simpl.
  rewrite lookup_app_r by lia.
  replace (S (length h + i) - length h)%nat with (S i) by lia. simpl.
  rewrite list_lookup_fmap, lookup_seq_lt by exact Hi. reflexivity.
Qed.

Lemma new_component_lookup_comp
    (k : cls) (par : jsref) (col : string) (h : store) :
  (new_component k par col h).2 !! length h
  = Some (OComp {| class := k; blocks := seq (S (length h)) (arity k);
                   parent := match par with Undefined => Null | p => p end;
                   color := if has_color k then Some col else None |}).
Proof.
  unfold new_component. simpl.
  rewrite lookup_app_r by lia. now rewrite Nat.sub_diag.
Qed.

(** C8: a block without children that is owned by a component serialises
    to the boxed placeholder in the colour of that component, which is not
    the empty string; the two blocks of a two-block component that was just
    constructed both do. *)
Theorem Block_toLatex_empty :
  (forall (fuel : nat) (h : store) (b c : ref) (B : Block) (C : Component),
      h !! b = Some (OBlock B) ->
      children B = [] ->
      block_parent B = Ref c ->
      h !! c = Some (OComp C) ->
      render (S fuel) h b
      = Ok ("\color{" +:+ color_string (color C) +:+ "}{\boxed{&#8200;}}")
      /\ render (S fuel) h b <> Ok "")
  /\ (forall (fuel : nat) (k : cls) (par : jsref) (col : string) (h : store),
      arity k = 2%nat ->
      let c := (new_component k par col h).1 in
      let h' := (new_component k par col h).2 in
      exists C b1 b2,
        h' !! c = Some (OComp C) /\ blocks C = [b1; b2]
        /\ render (S fuel) h' b1 = Ok ("\color{" +:+ col +:+ "}{\boxed{&#8200;}}")
        /\ render (S fuel) h' b2 = Ok ("\color{" +:+ col +:+ "}{\boxed{&#8200;}}")).
Proof.
  assert (Hgen : forall fuel h b c B C,
      h !! b = Some (OBlock B) -> children B = [] ->
      block_parent B = Ref c -> h !! c = Some (OComp C) ->
      render (S fuel) h b = Ok (placeholder (color_string (color C)))).
  { intros fuel h b c B C Hb HB Hp Hc. simpl. rewrite Hb. simpl.
    unfold Block_toLatex. now rewrite HB, Hp, Hc. }
  split.
  - intros fuel h b c B C Hb HB Hp Hc.
    rewrite (Hgen fuel h b c B C Hb HB Hp Hc). split; [reflexivity|].
    intros E. apply (placeholder_nonempty (color_string (color C))).
    congruence.
  - intros fuel k par col h Hk c h'.
    pose proof (new_component_lookup_comp k par col h) as Hc.
    pose proof (new_component_lookup_block k par col h 0 ltac:(lia)) as H0.
    pose proof (new_component_lookup_block k par col h 1 ltac:(lia)) as H1.
    fold h' in Hc, H0, H1. rewrite Hk in Hc. simpl in Hc.
    eexists _, _, _. split; [exact Hc|]. split; [reflexivity|].
    assert (Hcol : has_color k = true)
      by (destruct k; simpl in Hk; try discriminate; reflexivity).
    rewrite Hcol in Hc.
    split.
    + replace (S (length h)) with (S (length h) + 0)%nat by lia.
      now rewrite (Hgen fuel h' _ _ _ _ H0 eq_refl eq_refl Hc).
    + replace (S (S (length h))) with (S (length h) + 1)%nat by lia.
      now rewrite (Hgen fuel h' _ _ _ _ H1 eq_refl eq_refl Hc).
Qed.

Lemma Block_toLatex_empty_witness :
  render 1 (new_component NthRoot Null "teal" []).2 1%nat
  = Ok "\color{teal}{\boxed{&#8200;}}"
  /\ exists C b1 b2,
      (new_component NthRoot Null "teal" []).2 !! 0%nat = Some (OComp C)
      /\ blocks C = [b1; b2]
      /\ render 1 (new_component NthRoot Null "teal" []).2 b1
         = Ok "\color{teal}{\boxed{&#8200;}}"
      /\ render 1 (new_component NthRoot Null "teal" []).2 b2
         = Ok "\color{teal}{\boxed{&#8200;}}".
Proof.
  split.
  - refine (proj1 (proj1 Block_toLatex_empty 0%nat _ 1%nat 0%nat
                     (mkBlock [] (Ref 0%nat))
                     (mkComponent NthRoot [1%nat; 2%nat] Null (Some "teal"))
                     _ _ _ _));
      reflexivity.
  - exact (proj2 Block_toLatex_empty 0%nat NthRoot Null "teal" [] eq_refl).
Defined.

Section matrix_markup.
Variable rec : ref -> res string.
Variables (bs : list ref) (cells : list string) (rows cols : nat).
Hypothesis Hcells : Forall2 (fun b m => rec b = Ok m) bs cells.

Lemma matrix_cell (k : nat) :
  (k < length bs)%nat -> exists b, bs !! k = Some b /\ rec b = Ok (matrix_cell_at cells k).
Proof.
  intros Hk. destruct (lookup_lt_is_Some_2 bs k Hk) as [b Hb].
  destruct (Forall2_lookup_l _ _ _ _ _ Hcells Hb) as (m & Hm & Hr).
  exists b. split; [exact Hb|]. rewrite Hr. f_equal. unfold matrix_cell_at.
  symmetry. now apply nth_lookup_Some with (d := "").
Qed.

Lemma matrix_separator_at (i j : nat) :
  (j < cols)%nat ->
  matrix_separator rows cols (i * cols + j)
  = if (j =? cols - 1)%nat then
      if negb (i =? rows - 1)%nat then " \\ " else ""
    else " & ".
Proof.
  intros Hj. unfold matrix_separator.
  rewrite Nat.div_add_l, Nat.div_small, Nat.add_0_r by lia.
  rewrite Nat.add_comm, Nat.Div0.mod_add, Nat.mod_small by lia.
  now destruct (i =? rows - 1)%nat.
Qed.

(** The inner loop appends the cells of row [i] from column [cols - n]
    on, each followed by its separator. *)
Lemma matrix_row_spec (i n : nat) (output : string) :
  (n <= cols)%nat -> (i * cols + cols <= length bs)%nat ->
  matrix_row rec bs rows cols i n output
  = Ok (output +:+ concat_strings (map (matrix_item rows cols cells) (seq (i * cols + (cols - n)) n))).
Proof.
  revert output. induction n as [|n IH]; intros output Hn Hlen; simpl.
  - now rewrite append_nil_r.
  - destruct (matrix_cell (i * cols + (cols - S n))) as (b & Hb & Hr); [lia|].
    rewrite Hb, Hr. simpl. rewrite IH by lia.
    replace (i * cols + (cols - n))%nat
      with (S (i * cols + (cols - S n))) by lia.
    f_equal. unfold matrix_item at 2. rewrite matrix_separator_at by lia.
    destruct (cols - S n =? cols - 1)%nat;
      [destruct (negb (i =? rows - 1)%nat)|];
      now rewrite ?append_assoc, ?append_nil_r.
Qed.

(** The outer loop appends the rows from [rows - n] on. *)
Lemma matrix_rows_spec (n : nat) (output : string) :
  (n <= rows)%nat -> length bs = (rows * cols)%nat ->
  matrix_rows rec bs rows cols n output
  = Ok (output +:+ concat_strings
                     (map (matrix_item rows cols cells) (seq ((rows - n) * cols) (n * cols)))).
Proof.
  revert output. induction n as [|n IH]; intros output Hn Hlen; simpl.
  - now rewrite append_nil_r.
  - rewrite matrix_row_spec by nia. simpl. rewrite IH by lia.
    f_equal. rewrite append_assoc, <- concat_strings_app, <- map_app.
    rewrite Nat.sub_diag, Nat.add_0_r.
    replace ((rows - n) * cols)%nat with ((rows - S n) * cols + cols)%nat by nia.
    now rewrite <- seq_app.
Qed.

Lemma imap_item : imap (fun k m => m +:+ matrix_separator rows cols k) cells
                  = map (matrix_item rows cols cells) (seq 0 (length cells)).
Proof.
  apply list_eq. intros k.
  rewrite list_lookup_imap, list_lookup_fmap.
  destruct (cells !! k) as [m|] eqn:Hm; simpl.
  - rewrite lookup_seq_lt by (eapply lookup_lt_Some; eauto). simpl.
    unfold matrix_item, matrix_cell_at. now rewrite (nth_lookup_Some _ _ "" _ Hm).
  - rewrite lookup_seq_ge; [reflexivity|]. now apply lookup_ge_None.
Qed.

Lemma Matrix_toLatex_spec :
  length bs = (rows * cols)%nat ->
  Matrix_toLatex rec bs rows cols = Ok (matrix_markup rows cols cells).
Proof.
  intros Hlen. unfold Matrix_toLatex, matrix_markup.
  rewrite matrix_rows_spec by lia. simpl.
  rewrite Nat.sub_diag, imap_item. simpl.
  rewrite <- (Forall2_length _ _ _ Hcells), Hlen.
  now rewrite append_assoc.
Qed.
End matrix_markup.

(** C9: a matrix serialises to the opening tag, its cells in row-major
    order (cell [i * cols + j] is block [i * cols + j]), each followed by
    the column separator unless it is the last of its row and then by the
    row separator unless the row is the last, and the closing tag.  For a
    2x2 matrix just constructed these are four placeholders, separated by
    an ampersand within a row and a double backslash between the rows. *)
Theorem Matrix_toLatex_layout :
  (forall (fuel : nat) (h : store) (c : ref) (C : Component)
          (rows cols : nat) (cells : list string),
      h !! c = Some (OComp C) ->
      class C = MatrixComponent rows cols ->
      length (blocks C) = (rows * cols)%nat ->
      Forall2 (fun b m => render fuel h b = Ok m) (blocks C) cells ->
      render (S fuel) h c = Ok (matrix_markup rows cols cells))
  /\ (forall (par : jsref) (col : string) (h : store),
      let c := (new_component (MatrixComponent 2 2) par col h).1 in
      let h' := (new_component (MatrixComponent 2 2) par col h).2 in
      let p := "\color{" +:+ col +:+ "}{\boxed{&#8200;}}" in
      render 2 h' c
      = Ok ("\begin{matrix}" +:+ p +:+ " & " +:+ p +:+ " \\ "
            +:+ p +:+ " & " +:+ p +:+ "\end{matrix}")).
Proof.
  assert (Hgen : forall fuel h c C rows cols cells,
      h !! c = Some (OComp C) -> class C = MatrixComponent rows cols ->
      length (blocks C) = (rows * cols)%nat ->
      Forall2 (fun b m => render fuel h b = Ok m) (blocks C) cells ->
      render (S fuel) h c = Ok (matrix_markup rows cols cells)).
  { intros fuel h c C rows cols cells Hc Hk Hlen Hcells.
    simpl. rewrite Hc. simpl. unfold Component_toLatex. rewrite Hk.
    now apply Matrix_toLatex_spec. }
  split; [exact Hgen|].
  intros par col h c h' p.
  pose proof (new_component_lookup_comp (MatrixComponent 2 2) par col h) as Hc.
  fold h' in Hc.
  rewrite (Hgen 1%nat h' c _ 2%nat 2%nat [p; p; p; p] Hc eq_refl eq_refl).
  - unfold matrix_markup. simpl.
    change (matrix_separator 2 2 0) with " & ".
    change (matrix_separator 2 2 1) with " \\ ".
    change (matrix_separator 2 2 2) with " & ".
    change (matrix_separator 2 2 3) with "".
    now rewrite !append_assoc, !append_nil_l.
  - simpl in Hc.
    assert (Hcell : forall i, (i < 4)%nat ->
                render 1 h' (S (length h) + i)%nat = Ok p).
    { intros i Hi.
      pose proof (new_component_lookup_block
                    (MatrixComponent 2 2) par col h i Hi) as Hb.
      fold h' in Hb. rewrite render_S, Hb. simpl.
      unfold Block_toLatex. simpl. now rewrite Hc. }
    simpl. repeat constructor.
    + replace (S (length h)) with (S (length h) + 0)%nat by lia.
      apply Hcell. lia.
    + replace (S (S (length h))) with (S (length h) + 1)%nat by lia.
      apply Hcell. lia.
    + replace (S (S (S (length h)))) with (S (length h) + 2)%nat by lia.
      apply Hcell. lia.
    + replace (S (S (S (S (length h))))) with (S (length h) + 3)%nat by lia.
      apply Hcell. lia.
Qed.

Lemma Matrix_toLatex_layout_witness :
  render 2 (new_component (MatrixComponent 2 2) Null "red" []).2 0%nat
  = Ok (matrix_markup 2 2 ["\color{red}{\boxed{&#8200;}}";
                           "\color{red}{\boxed{&#8200;}}";
                           "\color{red}{\boxed{&#8200;}}";
                           "\color{red}{\boxed{&#8200;}}"]).
Proof.
  refine (proj1 Matrix_toLatex_layout 1%nat _ 0%nat
            (mkComponent (MatrixComponent 2 2) [1; 2; 3; 4]%nat Null (Some "red"))
            2%nat 2%nat _ _ _ _ _).
  - reflexivity.
  - reflexivity.
  - reflexivity.
  - repeat constructor.
Defined.

(** * The cursor *)

(** ** Arrays and addresses *)

(** Division and remainder by two are left to [lia]. *)
Ltac Zify.zify_post_hook ::= Z.div_mod_to_equations.

Section arrays.
Context {A : Type}.
Implicit Types (l : list A) (k : nat).

Lemma splice_start_nat l k :
  (k <= length l)%nat -> splice_start l (Z.of_nat k) = k.
Proof.
  intros Hk. unfold splice_start.
  destruct (Z.ltb_spec (Z.of_nat k) 0); lia.
Qed.

Lemma splice_add_nat l k x :
  (k <= length l)%nat -> splice_add l (Z.of_nat k) x = take k l ++ x :: drop k l.
Proof. intros Hk. unfold splice_add. now rewrite splice_start_nat. Qed.

Lemma splice_remove_nat l k :
  (k <= length l)%nat -> splice_remove l (Z.of_nat k) = delete k l.
Proof.
  intros Hk. unfold splice_remove. rewrite splice_start_nat by exact Hk.
  symmetry. apply delete_take_drop.
Qed.

Lemma js_at_nat l k : js_at l (Z.of_nat k) = l !! k.
Proof.
  unfold js_at. destruct (Z.leb_spec 0 (Z.of_nat k)); [|lia].
  now rewrite Nat2Z.id.
Qed.

Lemma js_at_neg l (i : Z) : i < 0 -> js_at l i = None.
Proof. intros Hi. unfold js_at. destruct (Z.leb_spec 0 i); [lia | reflexivity]. Qed.

Lemma js_index_of_int l k : js_index l (of_int (Z.of_nat k)) = l !! k.
Proof.
  unfold js_index, of_int.
  rewrite Z.even_mul. simpl.
  replace (2 * Z.of_nat k / 2) with (Z.of_nat k)
    by (symmetry; rewrite Z.mul_comm; apply Z.div_mul; lia).
  apply js_at_nat.
Qed.

(** [indexOf] finds the first position of an element that the equality
    test recognises. *)
Lemma indexOf_from_found (eqb : A -> A -> bool) (x : A) l k (i : Z) :
  (forall y, eqb y x = true <-> y = x) ->
  l !! k = Some x ->
  (forall j, (j < k)%nat -> l !! j <> Some x) ->
  indexOf_from eqb l x i = i + Z.of_nat k.
Proof.
  intros Heq. revert k i. induction l as [|y l IH]; intros k i Hk Hfirst.
  - discriminate.
  - simpl. destruct (eqb y x) eqn:Hy.
    + apply Heq in Hy. subst y.
      destruct k as [|k]; [lia|]. exfalso. now apply (Hfirst 0%nat); [lia|].
    + destruct k as [|k].
      * injection Hk as ->. assert (eqb x x = true) by now apply Heq.
        congruence.
      * rewrite (IH k); [lia | exact Hk |].
        intros j Hj. apply (Hfirst (S j)). lia.
Qed.

Lemma indexOf_NoDup (eqb : A -> A -> bool) (x : A) l k :
  (forall y, eqb y x = true <-> y = x) ->
  NoDup l -> l !! k = Some x -> indexOf eqb l x = Z.of_nat k.
Proof.
  intros Heq Hnd Hk. unfold indexOf.
  rewrite (indexOf_from_found eqb x l k 0 Heq Hk); [lia|].
  intros j Hj Hx.
  pose proof (NoDup_lookup l j k x Hnd Hx Hk). lia.
Qed.
End arrays.

Lemma nat_eqb_iff (x y : nat) : Nat.eqb y x = true <-> y = x.
Proof. apply Nat.eqb_eq. Qed.

Lemma child_eqb_iff (c : ref) (y : child_t) :
  child_eqb y (CRef c) = true <-> y = CRef c.
Proof.
  destruct y as [s|r]; simpl; [split; discriminate|].
  rewrite Nat.eqb_eq. split; congruence.
Qed.

Lemma ceil2_before (n : Z) : ceil2 (before n) = n.
Proof.
  unfold ceil2, before. replace (2 * n - 1 + 1) with (n * 2) by lia.
  apply Z.div_mul. lia.
Qed.

Lemma floor2_before (n : Z) : floor2 (before n) = n - 1.
Proof.
  unfold floor2, before. replace (2 * n - 1) with (1 + (n - 1) * 2) by lia.
  rewrite Z.div_add by lia. reflexivity.
Qed.

Lemma floor2_of_int (n : Z) : floor2 (of_int n) = n.
Proof. unfold floor2, of_int. rewrite Z.mul_comm. apply Z.div_mul. lia. Qed.

Lemma ceil2_of_int (n : Z) : ceil2 (of_int n) = n.
Proof.
  unfold ceil2, of_int. replace (2 * n + 1) with (1 + n * 2) by lia.
  rewrite Z.div_add by lia. reflexivity.
Qed.

Lemma is_half_before (a : Z) : is_half a <-> exists n, a = before n.
Proof.
  unfold is_half, before. split.
  - intros H. exists (a / 2 + 1). lia.
  - intros [n ->]. lia.
Qed.

(** ** Text round trip *)

Lemma new_text_eq (par : jsref) (text : string) (h : store) :
  new_text par text h
  = (length h,
     h ++ [OComp {| class := TextComponent; blocks := [S (length h)];
                    parent := match par with Undefined => Null | p => p end;
                    color := None |};
           OBlock {| children := [CStr text]; block_parent := Ref (length h) |}]).
Proof.
  unfold new_text, new_component. simpl. f_equal.
  rewrite insert_app_r_alt by lia.
  replace (S (length h) - length h)%nat with 1%nat by lia. reflexivity.
Qed.

Lemma text_run_init : text_run 0 init.
Proof.
  unfold text_run, init; simpl. repeat split; try constructor.
  intros c Hc. inversion Hc.
Qed.

Lemma text_run_addText (n : nat) (text : string) (st : state) :
  text_run n st -> exists st', addText text st = Ok st' /\ text_run (S n) st'.
Proof.
  intros (Hb & Hc & Hch & Hp & Hlen & Hnd & Hall).
  unfold addText. rewrite Hb, new_text_eq. eexists. split; [reflexivity|].
  unfold text_run; simpl.
  rewrite Hp, ceil2_before, splice_add_nat by lia.
  rewrite <- Hlen, firstn_all, drop_all.
  assert (Hfresh : length (heap st) ∉ components st).
  { intros Hin. destruct (Hall _ Hin) as (C & HC & _).
    apply lookup_lt_Some in HC. lia. }
  repeat split; auto.
  - unfold before. lia.
  - rewrite length_app. simpl. lia.
  - apply NoDup_app. repeat split; [exact Hnd | | apply NoDup_singleton].
    intros x Hx Hx'. apply list_elem_of_singleton in Hx'. now subst x.
  - intros c Hin. apply elem_of_app in Hin as [Hin|Hin].
    + destruct (Hall _ Hin) as (C & HC & Hk & Hpar). exists C.
      split; [|auto]. rewrite lookup_app_l; [exact HC|].
      now apply lookup_lt_Some in HC.
    + apply list_elem_of_singleton in Hin. subst c. eexists. split.
      * rewrite lookup_app_r by lia. rewrite Nat.sub_diag. reflexivity.
      * auto.
Qed.

Lemma text_run_backspace (n : nat) (st : state) :
  text_run (S n) st -> exists st', backspace st = Ok st' /\ text_run n st'.
Proof.
  intros (Hb & Hc & Hch & Hp & Hlen & Hnd & Hall).
  destruct (lookup_lt_is_Some_2 (components st) n ltac:(lia)) as [c Hn].
  destruct (Hall c ltac:(eapply list_elem_of_lookup_2; eauto))
    as (C & HC & Hk & Hpar).
  assert (Hprev : js_at (components st) (floor2 (position st)) = Some c).
  { rewrite Hp, floor2_before.
    replace (Z.of_nat (S n) - 1) with (Z.of_nat n) by lia.
    now rewrite js_at_nat. }
  assert (Hleaf : is_leaf (heap st) (Some c) = true).
  { unfold is_leaf. now rewrite HC, Hk. }
  unfold backspace. rewrite Hlen. simpl.
  destruct (Z.eqb_spec (position st) (-1)) as [E|_];
    [rewrite Hp in E; unfold before in E; lia|].
  rewrite Hb, Hprev, Hleaf.
  unfold removeComponent. rewrite Hb, Hprev, Hleaf. simpl. rewrite HC. simpl.
  unfold removeComponent_in. simpl. rewrite HC. simpl. rewrite Hpar.
  rewrite (indexOf_NoDup Nat.eqb c _ n (nat_eqb_iff c) Hnd Hn).
  destruct (Z.eqb_spec (Z.of_nat n) (-1)) as [E|_]; [lia|].
  eexists. split; [reflexivity|].
  rewrite splice_remove_nat by lia.
  unfold text_run; simpl. repeat split; auto.
  - rewrite Hp, floor2_before. unfold of_int, before. lia.
  - rewrite length_delete by eauto. lia.
  - eauto using sublist_NoDup, sublist_delete.
  - intros x Hx. apply Hall. eapply list_elem_of_delete_inv, Hx.
Qed.

Lemma text_run_insert_all (texts : list string) (n : nat) (st : state) :
  text_run n st ->
  exists st', run (map OpText texts) st = Ok st'
              /\ text_run (n + length texts) st'.
Proof.
  revert n st. induction texts as [|t texts IH]; intros n st Hst; simpl.
  - exists st. now rewrite Nat.add_0_r.
  - destruct (text_run_addText n t st Hst) as (st1 & -> & H1). simpl.
    destruct (IH (S n) st1 H1) as (st2 & -> & H2). exists st2.
    split; [reflexivity|]. now replace (n + S (length texts))%nat
                             with (S n + length texts)%nat by lia.
Qed.

Lemma text_run_delete_all (n : nat) (st : state) :
  text_run n st ->
  exists st', run (replicate n OpBackspace) st = Ok st' /\ text_run 0 st'.
Proof.
  revert st. induction n as [|n IH]; intros st Hst; simpl.
  - now exists st.
  - destruct (text_run_backspace n st Hst) as (st1 & -> & H1). simpl.
    exact (IH st1 H1).
Qed.

(** C1: from the empty expression with the cursor at -0.5, typing [n]
    texts and then pressing backspace [n] times leaves no component in the
    expression and the cursor where it started: position -0.5, child -0.5,
    block and component null. *)
Theorem addText_backspace_roundtrip (texts : list string) :
  exists st1 st2,
    run (map OpText texts) init = Ok st1
    /\ length (components st1) = length texts
    /\ run (replicate (length texts) OpBackspace) st1 = Ok st2
    /\ components st2 = []
    /\ position st2 = -1 /\ child st2 = -1
    /\ block st2 = Null /\ component st2 = Null.
Proof.
  destruct (text_run_insert_all texts 0 init text_run_init) as (st1 & H1 & R1).
  simpl in R1.
  destruct (text_run_delete_all _ st1 R1) as (st2 & H2 & R2).
  exists st1, st2.
  destruct R1 as (_ & _ & _ & _ & Hlen & _).
  destruct R2 as (Hb & Hc & Hch & Hp & Hlen2 & _).
  repeat split; auto.
  now apply nil_length_inv.
Qed.

(** ** Insertion *)

(** C4: at a resting cursor, [addComponent] puts the component at the
    current address (into the expression at top level, into the children
    of the current block otherwise).  A symbol or a text is then stepped
    over: the address advances by one and [block] and [component] stay as
    they were.  Any other component is entered: [component] becomes the
    inserted node, [block] its [blocks[0]] and [child] -0.5. *)
Theorem addComponent_spec (st : state) (c : ref) (C : Component) :
  resting st ->
  heap st !! c = Some (OComp C) ->
  exists st',
    addComponent c st = Ok st'
    /\ match block st with
       | Ref b =>
           exists (B : Block) (i : nat),
             heap st !! b = Some (OBlock B)
             /\ child st = before (Z.of_nat i)
             /\ heap st'
                = <[b := OBlock {| children := take i (children B)
                                               ++ CRef c :: drop i (children B);
                                   block_parent := block_parent B |}]> (heap st)
             /\ components st' = components st
             /\ position st' = position st
       | _ =>
           exists i : nat,
             position st = before (Z.of_nat i)
             /\ components st'
                = take i (components st) ++ c :: drop i (components st)
             /\ heap st' = heap st
             /\ child st' = -1
       end
    /\ if is_leaf_cls (class C) then
         block st' = block st /\ component st' = component st
         /\ match block st with
            | Ref _ => child st' = child st + 2
            | _ => position st' = position st + 2
            end
       else
         component st' = Ref c
         /\ block st' = js_ref (blocks C !! 0%nat)
         /\ child st' = -1
         /\ (block st = Null -> position st' = position st + 1).
Proof.
  intros Hrest HC. unfold resting in Hrest. unfold addComponent.
  assert (Hleaf : is_leaf (heap st) (Some c) = is_leaf_cls (class C))
    by (unfold is_leaf; now rewrite HC).
  rewrite Hleaf.
  destruct (block st) as [| |b] eqn:Hb; [|contradiction|].
  - destruct Hrest as (Hc & i & Hi & Hp).
    rewrite Hp, ceil2_before, splice_add_nat by exact Hi.
    destruct (is_leaf_cls (class C)).
    + eexists. split; [reflexivity|]. simpl. split.
      * exists i. auto.
      * rewrite Hc. unfold of_int, before. repeat split; lia.
    + simpl. rewrite HC. simpl. eexists. split; [reflexivity|]. simpl. split.
      * exists i. auto.
      * unfold of_int, before. repeat split; auto; lia.
  - destruct Hrest as (B & i & HB & Hi & Hch).
    simpl. rewrite HB. simpl.
    rewrite Hch, ceil2_before.
    unfold Block_addChild. rewrite splice_add_nat by exact Hi.
    destruct (is_leaf_cls (class C)).
    + eexists. split; [reflexivity|]. simpl. split.
      * exists B, i. auto.
      * auto.
    + rewrite HC. simpl. eexists. split; [reflexivity|]. simpl. split.
      * exists B, i. auto.
      * repeat split; auto. discriminate.
Qed.

Lemma addComponent_spec_witness :
  exists st',
    addComponent 2%nat
      (set_heap (mkState [] [] (Ref 1%nat) (Ref 0%nat) (-1) 0 "")
         (new_component (MJXGUISymbol "\pi") (Ref 1%nat) ""
            (new_component Sqrt Null "red" []).2).2)
    = Ok st'
    /\ child st' = 1 /\ block st' = Ref 1%nat /\ component st' = Ref 0%nat.
Proof.
  destruct (addComponent_spec
              (set_heap (mkState [] [] (Ref 1%nat) (Ref 0%nat) (-1) 0 "")
                 (new_component (MJXGUISymbol "\pi") (Ref 1%nat) ""
                    (new_component Sqrt Null "red" []).2).2)
              2%nat
              (mkComponent (MJXGUISymbol "\pi") [] (Ref 1%nat) None))
    as (st' & Hrun & _ & Hb & Hc & Hch).
  - exists (mkBlock [] (Ref 0%nat)), 0%nat. repeat split. simpl. lia.
  - reflexivity.
  - exists st'. simpl in *. auto.
Defined.

(** ** Deletion *)

(** At top level, with a container on the left of the cursor, backspace
    removes nothing: store and expression are untouched and the cursor
    enters the container at the end of its last block. *)
Lemma backspace_top_enters_container
    (st : state) (c b : ref) (C : Component) (B : Block) :
  block st = Null ->
  position st <> -1 ->
  js_at (components st) (floor2 (position st)) = Some c ->
  heap st !! c = Some (OComp C) ->
  is_leaf_cls (class C) = false ->
  js_at (blocks C) (Z.of_nat (length (blocks C)) - 1) = Some b ->
  heap st !! b = Some (OBlock B) ->
  backspace st
  = Ok (move st (Ref b) (Ref c) (before (Z.of_nat (length (children B))))
          (of_int (floor2 (position st)))).
Proof.
  intros Hb Hp Hprev HC Hleaf Hlast HB. unfold backspace.
  destruct (length (components st) =? 0)%nat eqn:Hlen.
  { apply Nat.eqb_eq in Hlen. apply nil_length_inv in Hlen.
    rewrite Hlen in Hprev. unfold js_at in Hprev.
    destruct (0 <=? floor2 (position st)); discriminate. }
  destruct (Z.eqb_spec (position st) (-1)) as [E|_]; [contradiction|].
  rewrite Hb, Hprev. unfold is_leaf. rewrite HC, Hleaf. simpl.
  rewrite HC. simpl. rewrite Hlast. simpl. rewrite HB. reflexivity.
Qed.

(** C5, the failing input: inside a block, backspace removes the child on
    the left of the cursor whatever it is.  Here the cursor rests in the
    block of the outer root, after the inner root, which is not empty (it
    holds the letter a); one backspace removes the inner root with its
    content and leaves the block of the outer root empty. *)
Theorem backspace_removes_nonempty_container :
  exists (st st' : state) (B B' : Block) (X : Component),
    run nested_sqrt init = Ok st
    /\ block st = Ref 1%nat /\ child st = 1
    /\ heap st !! 1%nat = Some (OBlock B) /\ children B = [CRef 2%nat]
    /\ heap st !! 2%nat = Some (OComp X) /\ class X = Sqrt
    /\ isEmpty (heap st) (blocks X) = Ok false
    /\ backspace st = Ok st'
    /\ heap st' !! 1%nat = Some (OBlock B') /\ children B' = []
    /\ block st' = Ref 1%nat /\ child st' = -1.
Proof.
  exists nested_sqrt_state,
         (from_ok init (backspace nested_sqrt_state)),
         (mkBlock [CRef 2%nat] (Ref 0%nat)),
         (mkBlock [] (Ref 0%nat)),
         (mkComponent Sqrt [3%nat] (Ref 1%nat) (Some "blue")).
  repeat split; vm_compute; reflexivity.
Qed.

(** ** Results of the operations *)

Lemma get_block_Ok (h : store) (v : jsref) (b : ref) (B : Block) :
  get_block h v = Ok (b, B) <-> v = Ref b /\ h !! b = Some (OBlock B).
Proof.
  unfold get_block. split.
  - intros H. repeat case_match; simplify_eq. auto.
  - intros [-> ->]. reflexivity.
Qed.

Lemma get_comp_Ok (h : store) (v : jsref) (c : ref) (C : Component) :
  get_comp h v = Ok (c, C) <-> v = Ref c /\ h !! c = Some (OComp C).
Proof.
  unfold get_comp. split.
  - intros H. repeat case_match; simplify_eq. auto.
  - intros [-> ->]. reflexivity.
Qed.

Lemma bind_Ok {A B} (m : res A) (f : A -> res B) (b : B) :
  m ≫= f = Ok b <-> exists a, m = Ok a /\ f a = Ok b.
Proof.
  destruct m; simpl; split; try (intros (a' & Ha & Hf)); try discriminate; eauto.
  now injection Ha as ->.
Qed.

Lemma js_ref_not_null (o : option ref) : js_ref o <> Null.
Proof. destruct o; discriminate. Qed.

(** Splits a successful run of an operation into its branches. *)
Ltac inv_ok H :=
  repeat
    (match type of H with
     | _ ≫= _ = Ok _ =>
         let a := fresh "a" in let Ha := fresh "Ha" in
         apply bind_Ok in H as (a & Ha & H)
     | (let '(_, _) := ?p in _) = Ok _ => destruct p eqn:?
     | (if ?c then _ else _) = Ok _ => destruct c eqn:?
     | match ?x with _ => _ end = Ok _ => destruct x eqn:?
     | Ok _ = Ok _ => injection H as H
     | TypeError = Ok _ => discriminate H
     | OutOfFuel = Ok _ => discriminate H
     end; try discriminate).

Ltac norm_gets :=
  repeat match goal with
    | H : get_block _ _ = Ok (_, _) |- _ => apply get_block_Ok in H as [? ?]
    | H : get_comp _ _ = Ok (_, _) |- _ => apply get_comp_Ok in H as [? ?]
    end.

(** ** The light invariant *)

Lemma owned_insert (h : store) (b : ref) (B : Block) (c : ref) :
  owned h -> block_parent B = Ref c -> owned (<[b := OBlock B]> h).
Proof.
  intros Ho HB x X Hx.
  apply list_lookup_insert_Some in Hx as [(-> & [= <-] & _)|(_ & Hx)]; eauto.
Qed.

Lemma owned_app (h l : store) :
  owned h ->
  (forall B, OBlock B ∈ l -> exists c, block_parent B = Ref c) ->
  owned (h ++ l).
Proof.
  intros Ho Hl x X Hx. apply lookup_app_Some in Hx as [Hx|[_ Hx]]; [eauto|].
  eapply Hl, list_elem_of_lookup_2, Hx.
Qed.

Lemma owned_new_component k par col h :
  owned h -> owned (new_component k par col h).2.
Proof.
  intros Ho. unfold new_component. simpl. apply owned_app; [exact Ho|].
  intros B HB. apply elem_of_cons in HB as [HB|HB]; [discriminate|].
  apply list_elem_of_fmap in HB as (y & [= ->] & _). simpl. eauto.
Qed.

Lemma owned_new_text par text h : owned h -> owned (new_text par text h).2.
Proof.
  intros Ho. rewrite new_text_eq. simpl. apply owned_app; [exact Ho|].
  intros B HB. repeat (apply elem_of_cons in HB as [HB|HB]; simplify_eq).
  - simpl. eauto.
  - inversion HB.
Qed.

Ltac use_owned :=
  repeat match goal with
    | Ho : owned ?h, H : ?h !! _ = Some (OBlock ?B) |- _ =>
        lazymatch goal with
        | _ : block_parent B = Ref _ |- _ => fail
        | _ => let c := fresh "c" in
               let Hc := fresh "Hc" in
               destruct (Ho _ _ H) as [c Hc]
        end
    end.

Lemma light_cases (st : state) :
  light st ->
  owned (heap st) /\ child st mod 2 = 1
  /\ (block st = Null /\ component st = Null /\ position st mod 2 = 1
      \/ block st <> Null /\ component st <> Null /\ position st mod 2 = 0).
Proof.
  unfold light, is_half. intros (Ho & Hc & Hbc & Hbp).
  split; [exact Ho|]. split; [exact Hc|].
  assert (Hd : block st = Null \/ block st <> Null)
    by (destruct (block st); [left | right | right]; congruence).
  destruct Hd as [E|E]; [left | right].
  - split; [exact E|]. split; [now apply Hbc | now apply Hbp].
  - split; [exact E|]. split; [now rewrite <- Hbc|].
    assert (position st mod 2 <> 1) by now rewrite <- Hbp. lia.
Qed.

Lemma light_intro (st : state) :
  owned (heap st) -> child st mod 2 = 1 ->
  (block st = Null /\ component st = Null /\ position st mod 2 = 1
   \/ block st <> Null /\ component st <> Null /\ position st mod 2 = 0) ->
  light st.
Proof.
  unfold light, is_half. intros Ho Hc H. split; [exact Ho|]. split; [exact Hc|].
  destruct H as [(H1 & H2 & H3)|(H1 & H2 & H3)]; intuition (try congruence; try lia).
Qed.

Ltac light_finish :=
  norm_gets; use_owned; subst; simpl in *;
  repeat match goal with
    | |- context [js_ref ?o] =>
        lazymatch goal with
        | _ : js_ref o <> Null |- _ => fail
        | _ => pose proof (js_ref_not_null o)
        end
    end;
  unfold of_int, before in *;
  first [ lia
        | left; repeat split; first [congruence | lia]
        | right; repeat split; first [congruence | lia] ].

Ltac light_start H :=
  let Ho := fresh "Ho" in
  let Hc := fresh "Hc" in
  let Hcase := fresh "Hcase" in
  intros (Ho & Hc & Hcase)%light_cases H.

Lemma light_seekRight st st' : light st -> seekRight st = Ok st' -> light st'.
Proof.
  light_start H. unfold seekRight in H.
  inv_ok H; subst st'; (apply light_intro; [exact Ho| |]); simpl;
    destruct Hcase as [(? & ? & ?)|(? & ? & ?)]; try congruence; light_finish.
Qed.

Lemma light_seekLeft st st' : light st -> seekLeft st = Ok st' -> light st'.
Proof.
  light_start H. unfold seekLeft in H.
  inv_ok H; subst st'; (apply light_intro; [exact Ho| |]); simpl;
    destruct Hcase as [(? & ? & ?)|(? & ? & ?)]; try congruence; light_finish.
Qed.
Ltac new_heaps :=
  repeat match goal with
    | Ho : owned ?h, H : new_text ?p ?t ?h = (_, ?l) |- _ =>
        let Hl := fresh "Ho" in
        assert (Hl : owned l)
          by (pose proof (owned_new_text p t h Ho) as X; rewrite H in X; exact X);
        clear H
    | Ho : owned ?h, H : new_component ?k ?p ?c ?h = (_, ?l) |- _ =>
        let Hl := fresh "Ho" in
        assert (Hl : owned l)
          by (pose proof (owned_new_component k p c h Ho) as X; rewrite H in X; exact X);
        clear H
    end.

Ltac light_heap :=
  new_heaps; norm_gets; use_owned; subst; simpl in *;
  first [ assumption | eapply owned_insert; [eassumption | simpl; eassumption] ].

Ltac light_op H :=
  inv_ok H; subst;
  (apply light_intro; simpl;
   [ light_heap
   | light_finish
   | match goal with
     | Hcase : _ \/ _ |- _ =>
         destruct Hcase as [(? & ? & ?)|(? & ? & ?)]; try congruence; light_finish
     end ]).

Lemma light_addText text st st' :
  light st -> addText text st = Ok st' -> light st'.
Proof. light_start H. unfold addText in H. light_op H. Qed.

Lemma light_addComponent c st st' :
  light st -> addComponent c st = Ok st' -> light st'.
Proof. light_start H. unfold addComponent in H. light_op H. Qed.

Lemma light_insert k col st st' :
  light st -> insert k col st = Ok st' -> light st'.
Proof.
  intros Hst H. unfold insert in H.
  destruct (new_component k (block st) col (heap st)) as [c h] eqn:Hnew.
  eapply light_addComponent; [|exact H].
  apply light_cases in Hst as (Ho & Hc & Hcase).
  apply light_intro; simpl; auto.
  pose proof (owned_new_component k (block st) col (heap st) Ho) as X.
  now rewrite Hnew in X.
Qed.

Lemma light_removeComponent_in st st' :
  owned (heap st) -> child st mod 2 = 1 -> position st mod 2 = 0 ->
  removeComponent_in st = Ok st' -> light st'.
Proof.
  intros Ho Hc Hp H. unfold removeComponent_in in H.
  inv_ok H; subst;
    (apply light_intro; simpl; [light_heap | light_finish | light_finish]).
Qed.

Lemma light_removeComponent st st' :
  light st -> removeComponent st = Ok st' -> light st'.
Proof.
  light_start H. unfold removeComponent in H.
  destruct Hcase as [(? & ? & ?)|(? & ? & ?)].
  - inv_ok H; try congruence; subst; [|now apply light_intro; auto].
    eapply light_removeComponent_in; [| | |exact H]; simpl; auto.
    unfold of_int. lia.
  - destruct (block st) eqn:Hb; try congruence;
      eapply light_removeComponent_in; eauto.
Qed.

Lemma light_backspace st st' : light st -> backspace st = Ok st' -> light st'.
Proof.
  intros Hst H. unfold backspace in H.
  destruct (length (components st) =? 0)%nat; [now simplify_eq|].
  destruct (position st =? -1); [now simplify_eq|].
  destruct (block st) eqn:Hb.
  - destruct (is_leaf _ _); [now apply (light_removeComponent st)|].
    revert Hst H. light_start H. light_op H.
  - apply bind_Ok in H as ([c C] & Hc & H).
    apply bind_Ok in H as (e & He & H).
    destruct e; [now apply (light_removeComponent st)|].
    revert Hst H. light_start H. light_op H.
  - apply bind_Ok in H as ([c C] & Hc & H).
    apply bind_Ok in H as (e & He & H).
    destruct e; [now apply (light_removeComponent st)|].
    revert Hst H. light_start H. light_op H.
Qed.

Lemma light_init : light init.
Proof.
  apply light_intro; simpl; [|reflexivity|left; auto].
  intros b B Hb. discriminate.
Qed.

Lemma light_reachable (st : state) : reachable st -> light st.
Proof.
  induction 1 as [|st st' o _ IH _ Hrun]; [apply light_init|].
  destruct o; simpl in Hrun;
    eauto using light_addText, light_insert, light_backspace,
                light_seekLeft, light_seekRight.
Qed.

Lemma reachable_run (P : op -> Prop) (os : list op) (st st' : state) :
  reachable_by P st -> Forall P os -> run os st = Ok st' -> reachable_by P st'.
Proof.
  revert st. induction os as [|o os IH]; intros st Hst HP Hrun; simpl in Hrun.
  - now injection Hrun as <-.
  - apply bind_Ok in Hrun as (st1 & H1 & Hrun).
    inversion HP as [|? ? Ho Hos]; subst.
    eapply IH; [|exact Hos|exact Hrun].
    eapply reachable_step; eauto.
Qed.

Lemma reachable_weaken (P : op -> Prop) (st : state) :
  reachable_by P st -> reachable st.
Proof.
  induction 1 as [|st st' o _ IH _ Hrun]; [constructor|].
  now apply (reachable_step _ st st' o).
Qed.

Lemma reachable_nested_sqrt : reachable_by with_cells nested_sqrt_state.
Proof.
  apply (reachable_run with_cells nested_sqrt init); [constructor| |reflexivity].
  repeat constructor.
Qed.

Lemma reachable_one_sqrt : reachable_by with_cells one_sqrt_state.
Proof.
  apply (reachable_run with_cells one_sqrt init); [constructor| |reflexivity].
  repeat constructor.
Qed.

Lemma reachable_one_letter : reachable_by with_cells one_letter_state.
Proof.
  apply (reachable_run with_cells one_letter init); [constructor| |reflexivity].
  repeat constructor.
Qed.

(** C10: in every state reached from the initial one by [addText],
    [addComponent], [backspace], [seekLeft] and [seekRight], [block] is
    null if and only if [component] is null. *)
Theorem block_null_iff_component_null (st : state) :
  reachable st -> (block st = Null <-> component st = Null).
Proof. intros Hst. apply light_reachable in Hst as (_ & _ & H & _). exact H. Qed.

Lemma block_null_iff_component_null_witness :
  block nested_sqrt_state = Null <-> component nested_sqrt_state = Null.
Proof.
  apply block_null_iff_component_null.
  apply (reachable_weaken with_cells), reachable_nested_sqrt.
Defined.

(** C6, as amended: after every completed operation [child] is a
    half-integer; [position] is a half-integer exactly when the cursor
    rests at top level ([block] is null) and is an integer when it rests
    inside a component. *)
Theorem resting_addresses (st : state) :
  reachable st ->
  is_half (child st)
  /\ (block st = Null <-> is_half (position st))
  /\ (block st <> Null -> exists n : Z, position st = of_int n).
Proof.
  intros Hst. apply light_reachable in Hst.
  destruct (light_cases st Hst) as (_ & Hc & Hcase).
  destruct Hst as (_ & _ & _ & Hbp).
  split; [exact Hc|]. split; [exact Hbp|].
  intros Hb. exists (position st / 2). unfold of_int.
  destruct Hcase as [(? & _)|(_ & _ & ?)]; [contradiction | lia].
Qed.

Lemma resting_addresses_witness :
  is_half (child one_sqrt_state)
  /\ (block one_sqrt_state = Null <-> is_half (position one_sqrt_state))
  /\ (block one_sqrt_state <> Null ->
      exists n : Z, position one_sqrt_state = of_int n).
Proof.
  apply resting_addresses.
  apply (reachable_weaken with_cells), reachable_one_sqrt.
Defined.

(** C6 as stated fails: after a square root is inserted into the empty
    expression the cursor rests inside it with [position] 0, an integer. *)
Lemma position_integer_inside_component :
  exists st,
    run one_sqrt init = Ok st
    /\ reachable st
    /\ position st = of_int 0
    /\ ~ is_half (position st).
Proof.
  exists one_sqrt_state. split; [reflexivity|].
  split; [apply (reachable_weaken with_cells), reachable_one_sqrt|].
  split; [reflexivity|]. unfold is_half. simpl. discriminate.
Qed.

(** * The structural invariant *)

(** ** Stores *)

Lemma skel_refl (h : store) : skel h h.
Proof. split; eauto. Qed.

Lemma skel_trans (h1 h2 h3 : store) : skel h1 h2 -> skel h2 h3 -> skel h1 h3.
Proof.
  intros [Hc1 Hb1] [Hc2 Hb2]. split; [eauto|].
  intros x B HB. destruct (Hb1 x B HB) as (B' & HB' & Hp').
  destruct (Hb2 x B' HB') as (B'' & HB'' & Hp''). exists B''.
  split; [exact HB'' | congruence].
Qed.

Lemma skel_app (h l : store) : skel h (h ++ l).
Proof.
  split.
  - intros x C Hx. now apply lookup_app_l_Some.
  - intros x B Hx. exists B. split; [now apply lookup_app_l_Some | reflexivity].
Qed.

Lemma skel_upd (h : store) (b : ref) (B B' : Block) :
  h !! b = Some (OBlock B) -> block_parent B' = block_parent B ->
  skel h (<[b := OBlock B']> h).
Proof.
  intros Hb Hp. split.
  - intros x C Hx. rewrite list_lookup_insert_ne; [exact Hx | congruence].
  - intros x X Hx. destruct (decide (b = x)) as [->|Hne].
    + exists B'. rewrite list_lookup_insert_eq by (eapply lookup_lt_Some; eauto).
      split; [reflexivity | congruence].
    + exists X. now rewrite list_lookup_insert_ne.
Qed.

Lemma skel_new_component k par col h : skel h (new_component k par col h).2.
Proof. unfold new_component. simpl. apply skel_app. Qed.

Lemma skel_new_text par text h : skel h (new_text par text h).2.
Proof. rewrite new_text_eq. simpl. apply skel_app. Qed.

Lemma comp_ok_skel (h h' : store) (x : ref) (C : Component) :
  skel h h' -> comp_ok h x C -> comp_ok h' x C.
Proof.
  intros [Hc Hb] (Hbl & Hown & Har & Hpar). repeat split; auto.
  - intros b Hin. destruct (Hown b Hin) as (B & HB & Hp).
    destruct (Hb b B HB) as (B' & HB' & Hp'). exists B'.
    split; [exact HB' | congruence].
  - destruct (parent C) as [| |pb]; auto.
    destruct Hpar as (Hlt & PB & HPB). split; [exact Hlt|].
    destruct (Hb pb PB HPB) as (B' & HB' & _). eauto.
Qed.

Lemma block_ok_skel (h h' : store) (x : ref) (B : Block) :
  skel h h' -> block_ok h x B -> block_ok h' x B.
Proof.
  intros [Hc Hb] (Hnd & c & C & Hp & HC & Hin & Hch & Hstr).
  split; [exact Hnd|]. exists c, C. repeat split; auto.
  intros Hleaf ch Hx. destruct (Hch Hleaf ch Hx) as (y & Y & -> & HY & HpY).
  exists y, Y. auto.
Qed.

Lemma tops_ok_skel (h h' : store) (comps : list ref) :
  skel h h' -> tops_ok h comps -> tops_ok h' comps.
Proof.
  intros [Hc _] Ht t Hin. destruct (Ht t Hin) as (T & HT & Hp). eauto.
Qed.

Lemma store_ok_upd (h : store) (b : ref) (B B' : Block) :
  store_ok h ->
  h !! b = Some (OBlock B) ->
  block_parent B' = block_parent B ->
  NoDup (children B') ->
  (forall c C, block_parent B = Ref c -> h !! c = Some (OComp C) ->
     is_leaf_cls (class C) = false ->
     forall ch, ch ∈ children B' ->
       exists y Y, ch = CRef y /\ h !! y = Some (OComp Y) /\ parent Y = Ref b) ->
  (forall c C, block_parent B = Ref c -> h !! c = Some (OComp C) ->
     is_leaf_cls (class C) = true ->
     forall ch, ch ∈ children B' -> exists s, ch = CStr s) ->
  store_ok (<[b := OBlock B']> h).
Proof.
  intros Hok Hb Hp Hnd Hch Hstr x o Hx.
  pose proof (skel_upd h b B B' Hb Hp) as Hsk.
  apply list_lookup_insert_Some in Hx as [(-> & <- & _)|(Hne & Hx)].
  - destruct (Hok _ _ Hb) as (_ & c & C & HpB & HC & Hin & _).
    split; [exact Hnd|]. exists c, C. rewrite Hp.
    split; [exact HpB|]. split; [now apply Hsk|]. split; [exact Hin|]. split.
    + intros Hleaf ch Hin'.
      destruct (Hch c C HpB HC Hleaf ch Hin') as (y & Y & -> & HY & HpY).
      exists y, Y. repeat split; auto. now apply Hsk.
    + intros Hleaf ch Hin'. exact (Hstr c C HpB HC Hleaf ch Hin').
  - specialize (Hok x o Hx). destruct o.
    + now apply (block_ok_skel h).
    + now apply (comp_ok_skel h).
Qed.

Lemma store_ok_new_component k par col h :
  store_ok h ->
  (is_leaf_cls k = false -> (0 < arity k)%nat) ->
  match par with
  | Ref pb => exists PB, h !! pb = Some (OBlock PB)
  | _ => True
  end ->
  store_ok (new_component k par col h).2.
Proof.
  intros Hok Har Hpar x o Hx.
  pose proof (skel_new_component k par col h) as Hsk.
  pose proof (new_component_lookup_comp k par col h) as Hnew.
  destruct (decide (x < length h)%nat) as [Hlt|Hge].
  { unfold new_component in Hx. simpl in Hx.
    rewrite lookup_app_l in Hx by exact Hlt.
    specialize (Hok x o Hx). destruct o.
    - now apply (block_ok_skel h).
    - now apply (comp_ok_skel h). }
  destruct (decide (x = length h)) as [->|Hne].
  { rewrite Hnew in Hx. injection Hx as <-.
    repeat split; simpl; auto.
    - intros b Hb. apply elem_of_seq in Hb.
      pose proof (new_component_lookup_block k par col h
                    (b - S (length h)) ltac:(lia)) as HB.
      replace (S (length h) + (b - S (length h)))%nat with b in HB by lia.
      eauto.
    - destruct par as [| |pb]; auto. destruct Hpar as (PB & HPB).
      split; [now apply lookup_lt_Some in HPB|].
      destruct (proj2 Hsk pb PB HPB) as (B' & HB' & _). eauto. }
  assert (Hi : exists i, x = (S (length h) + i)%nat) by (exists (x - S (length h))%nat; lia).
  destruct Hi as (i & ->).
  assert (Hia : (i < arity k)%nat).
  { apply lookup_lt_Some in Hx. unfold new_component in Hx. simpl in Hx.
    rewrite length_app in Hx. simpl in Hx.
    rewrite length_map, length_seq in Hx. lia. }
  rewrite (new_component_lookup_block k par col h i Hia) in Hx.
  injection Hx as <-. split; [constructor|].
  eexists _, _. split; [reflexivity|]. split; [exact Hnew|]. simpl.
  split; [apply elem_of_seq; lia|].
  split; intros _ ch Hch; inversion Hch.
Qed.

Lemma store_ok_new_text par text h :
  store_ok h ->
  match par with
  | Ref pb => exists PB, h !! pb = Some (OBlock PB)
  | _ => True
  end ->
  store_ok (new_text par text h).2.
Proof.
  intros Hok Hpar. unfold new_text.
  pose proof (store_ok_new_component TextComponent par "" h Hok
                ltac:(discriminate) Hpar) as Hok1.
  pose proof (new_component_lookup_block TextComponent par "" h 0 ltac:(simpl; lia))
    as HB.
  pose proof (new_component_lookup_comp TextComponent par "" h) as HC.
  destruct (new_component TextComponent par "" h) as [c h1] eqn:Hnew.
  assert (c = length h) as -> by (unfold new_component in Hnew; congruence).
  simpl in *. rewrite Nat.add_0_r in HB.
  eapply store_ok_upd; eauto.
  - simpl. apply NoDup_singleton.
  - simpl. intros c C [= <-] HC' Hleaf. rewrite HC in HC'.
    injection HC' as <-. discriminate.
  - simpl. intros c C _ _ _ ch Hch. apply list_elem_of_singleton in Hch.
    eauto.
Qed.

(** ** Ancestors *)

Lemma anc_skel_below (h h' : store) (c t : ref) :
  anc h c t ->
  (forall x C, h !! x = Some (OComp C) -> h' !! x = Some (OComp C)) ->
  (forall x B, (x < c)%nat -> h !! x = Some (OBlock B) -> h' !! x = Some (OBlock B)) ->
  anc h' c t.
Proof.
  induction 1 as [c C HC Hp | c pb c' t C C' PB HC Hp HPB Hin HpB HC' Hl H1 H2 _ IH];
    intros Hcomp Hblock.
  - eapply anc_top; eauto.
  - eapply anc_step; eauto. apply IH; [exact Hcomp|].
    intros x B Hx. apply Hblock. lia.
Qed.

Lemma anc_app (h l : store) (c t : ref) : anc h c t -> anc (h ++ l) c t.
Proof.
  intros H. apply (anc_skel_below h); [exact H | |];
    intros; now apply lookup_app_l_Some.
Qed.

(** A change of a block below [c] does not touch the ancestors of [c]. *)
Lemma anc_upd (h : store) (b : ref) (B B' : Block) (c t : ref) :
  anc h c t -> h !! b = Some (OBlock B) -> (c < b)%nat ->
  anc (<[b := OBlock B']> h) c t.
Proof.
  intros H Hb Hlt. apply (anc_skel_below h); [exact H | |].
  - intros x C Hx. rewrite list_lookup_insert_ne; [exact Hx | congruence].
  - intros x X Hx HX. rewrite list_lookup_insert_ne; [exact HX | lia].
Qed.

Lemma anc_top_inv (h : store) (c t : ref) (C : Component) :
  anc h c t -> h !! c = Some (OComp C) -> parent C = Null -> t = c.
Proof. intros H HC Hp. inversion H; subst; [reflexivity | congruence]. Qed.

Lemma anc_step_inv (h : store) (c t pb : ref) (C : Component) :
  anc h c t -> h !! c = Some (OComp C) -> parent C = Ref pb ->
  exists PB c' C',
    h !! pb = Some (OBlock PB) /\ CRef c ∈ children PB
    /\ block_parent PB = Ref c' /\ h !! c' = Some (OComp C')
    /\ is_leaf_cls (class C') = false /\ (c' < pb)%nat /\ (pb < c)%nat
    /\ anc h c' t.
Proof.
  intros H HC Hp.
  inversion H as [? ? HC0 Hp0 | ? pb0 c' ? C0 C' PB HC0 Hp0]; subst; [congruence|].
  assert (pb0 = pb) as -> by congruence.
  eexists _, _, _. repeat split; eauto.
Qed.

(** ** Moving right *)

Lemma state_eta (st : state) :
  move st (block st) (component st) (child st) (position st) = st.
Proof. now destruct st. Qed.

Lemma indexOf_seq (s n b : nat) :
  (s <= b < s + n)%nat -> indexOf Nat.eqb (seq s n) b = Z.of_nat (b - s).
Proof.
  intros Hb. apply indexOf_NoDup.
  - apply nat_eqb_iff.
  - apply NoDup_seq.
  - rewrite lookup_seq_lt by lia. f_equal. lia.
Qed.

Section seekRight.
Variable st : state.

Lemma seekRight_end :
  before (Z.of_nat (length (components st))) <= position st ->
  seekRight st = Ok st.
Proof.
  intros H. unfold seekRight.
  now destruct (Z.leb_spec (before (Z.of_nat (length (components st)))) (position st));
    [|lia].
Qed.

Lemma seekRight_top_leaf (i c : nat) (C : Component) :
  block st = Null -> position st = before (Z.of_nat i) ->
  components st !! i = Some c -> heap st !! c = Some (OComp C) ->
  is_leaf_cls (class C) = true ->
  seekRight st = Ok (move st Null Null (-1) (before (Z.of_nat (S i)))).
Proof.
  intros Hb Hp Hi HC Hleaf. unfold seekRight.
  pose proof (lookup_lt_Some _ _ _ Hi) as Hlt.
  destruct (Z.leb_spec (before (Z.of_nat (length (components st)))) (position st));
    [unfold before in *; lia|].
  rewrite Hb, Hp.
  replace (before (Z.of_nat i) + 1) with (of_int (Z.of_nat i))
    by (unfold before, of_int; lia).
  rewrite js_index_of_int, Hi. unfold is_leaf. rewrite HC, Hleaf.
  do 2 f_equal. unfold of_int, before. lia.
Qed.

Lemma seekRight_top_enter (i c : nat) (C : Component) :
  block st = Null -> position st = before (Z.of_nat i) ->
  components st !! i = Some c -> heap st !! c = Some (OComp C) ->
  is_leaf_cls (class C) = false ->
  blocks C = seq (S c) (arity (class C)) -> (0 < arity (class C))%nat ->
  seekRight st = Ok (move st (Ref (S c)) (Ref c) (-1) (of_int (Z.of_nat i))).
Proof.
  intros Hb Hp Hi HC Hleaf Hbl Har. unfold seekRight.
  pose proof (lookup_lt_Some _ _ _ Hi) as Hlt.
  destruct (Z.leb_spec (before (Z.of_nat (length (components st)))) (position st));
    [unfold before in *; lia|].
  rewrite Hb, Hp.
  replace (before (Z.of_nat i) + 1) with (of_int (Z.of_nat i))
    by (unfold before, of_int; lia).
  rewrite js_index_of_int, Hi. unfold is_leaf. rewrite HC, Hleaf. simpl.
  rewrite HC. simpl. rewrite Hbl, lookup_seq_lt by exact Har.
  simpl. now rewrite Nat.add_0_r.
Qed.

(** Inside block [b] of component [c], before child [i]. *)
Variables (b c i : nat) (B : Block) (C : Component).
Hypothesis Hblock : block st = Ref b.
Hypothesis HB : heap st !! b = Some (OBlock B).
Hypothesis Hchild : child st = before (Z.of_nat i).
Hypothesis Hpos : position st < before (Z.of_nat (length (components st))).

Lemma seekRight_in_leaf (y : nat) (Y : Component) :
  children B !! i = Some (CRef y) -> heap st !! y = Some (OComp Y) ->
  is_leaf_cls (class Y) = true ->
  seekRight st
  = Ok (move st (Ref b) (component st) (before (Z.of_nat (S i))) (position st)).
Proof.
  intros Hi HY Hleaf. unfold seekRight.
  pose proof (lookup_lt_Some _ _ _ Hi) as Hlt.
  destruct (Z.leb_spec (before (Z.of_nat (length (components st)))) (position st));
    [lia|].
  rewrite Hblock. simpl. rewrite HB. simpl. rewrite Hchild.
  destruct (Z.eqb_spec (before (Z.of_nat i)) (before (Z.of_nat (length (children B)))));
    [unfold before in *; lia|].
  rewrite ceil2_before, js_at_nat, Hi. simpl. rewrite HY, Hleaf.
  do 2 f_equal. unfold before. lia.
Qed.

Lemma seekRight_in_enter (y : nat) (Y : Component) :
  children B !! i = Some (CRef y) -> heap st !! y = Some (OComp Y) ->
  is_leaf_cls (class Y) = false ->
  blocks Y = seq (S y) (arity (class Y)) -> (0 < arity (class Y))%nat ->
  seekRight st = Ok (move st (Ref (S y)) (Ref y) (-1) (position st)).
Proof.
  intros Hi HY Hleaf Hbl Har. unfold seekRight.
  pose proof (lookup_lt_Some _ _ _ Hi) as Hlt.
  destruct (Z.leb_spec (before (Z.of_nat (length (components st)))) (position st));
    [lia|].
  rewrite Hblock. simpl. rewrite HB. simpl. rewrite Hchild.
  destruct (Z.eqb_spec (before (Z.of_nat i)) (before (Z.of_nat (length (children B)))));
    [unfold before in *; lia|].
  rewrite ceil2_before, js_at_nat, Hi. simpl. rewrite HY, Hleaf. simpl.
  rewrite Hbl, lookup_seq_lt by exact Har. simpl. now rewrite Nat.add_0_r.
Qed.

Hypothesis Hcomp : component st = Ref c.
Hypothesis HC : heap st !! c = Some (OComp C).
Hypothesis Hblocks : blocks C = seq (S c) (arity (class C)).
Hypothesis Hin : (S c <= b < S c + arity (class C))%nat.
Hypothesis Hend : i = length (children B).

Lemma seekRight_in_next_block :
  (S b < S c + arity (class C))%nat ->
  seekRight st = Ok (move st (Ref (S b)) (Ref c) (-1) (position st)).
Proof.
  intros Hnext. unfold seekRight.
  destruct (Z.leb_spec (before (Z.of_nat (length (components st)))) (position st));
    [lia|].
  rewrite Hblock. simpl. rewrite HB. simpl. rewrite Hchild, Hend, Z.eqb_refl.
  rewrite Hcomp. simpl. rewrite HC. simpl.
  rewrite Hblocks, indexOf_seq, length_seq by lia.
  destruct (Z.eqb_spec (Z.of_nat (b - S c)) (Z.of_nat (arity (class C)) - 1)); [lia|].
  replace (Z.of_nat (b - S c) + 1) with (Z.of_nat (S b - S c)) by lia.
  rewrite js_at_nat, lookup_seq_lt by lia. simpl.
  do 3 f_equal. lia.
Qed.

Lemma seekRight_in_exit_top :
  S b = (S c + arity (class C))%nat -> parent C = Null ->
  seekRight st = Ok (move st Null Null (-1) (position st + 1)).
Proof.
  intros Hlast Hpar. unfold seekRight.
  destruct (Z.leb_spec (before (Z.of_nat (length (components st)))) (position st));
    [lia|].
  rewrite Hblock. simpl. rewrite HB. simpl. rewrite Hchild, Hend, Z.eqb_refl.
  rewrite Hcomp. simpl. rewrite HC. simpl.
  rewrite Hblocks, indexOf_seq, length_seq by lia.
  destruct (Z.eqb_spec (Z.of_nat (b - S c)) (Z.of_nat (arity (class C)) - 1)); [|lia].
  now rewrite Hpar.
Qed.

Lemma seekRight_in_exit_up (pb m : nat) (PB : Block) :
  S b = (S c + arity (class C))%nat -> parent C = Ref pb ->
  heap st !! pb = Some (OBlock PB) -> NoDup (children PB) ->
  children PB !! m = Some (CRef c) ->
  seekRight st
  = Ok (move st (Ref pb) (block_parent PB) (before (Z.of_nat (S m))) (position st)).
Proof.
  intros Hlast Hpar HPB Hnd Hm. unfold seekRight.
  destruct (Z.leb_spec (before (Z.of_nat (length (components st)))) (position st));
    [lia|].
  rewrite Hblock. simpl. rewrite HB. simpl. rewrite Hchild, Hend, Z.eqb_refl.
  rewrite Hcomp. simpl. rewrite HC. simpl.
  rewrite Hblocks, indexOf_seq, length_seq by lia.
  destruct (Z.eqb_spec (Z.of_nat (b - S c)) (Z.of_nat (arity (class C)) - 1)); [|lia].
  rewrite Hpar. simpl. rewrite HPB. simpl.
  rewrite (indexOf_NoDup child_eqb (CRef c) _ m (child_eqb_iff c) Hnd Hm).
  do 2 f_equal. unfold of_int, before. lia.
Qed.
End seekRight.

(** ** Moving left *)

Lemma last_block (c a : nat) :
  (0 < a)%nat ->
  js_at (seq (S c) a) (Z.of_nat (length (seq (S c) a)) - 1) = Some (c + a)%nat.
Proof.
  intros Ha. rewrite length_seq.
  replace (Z.of_nat a - 1) with (Z.of_nat (a - 1)) by lia.
  rewrite js_at_nat, lookup_seq_lt by lia. f_equal. lia.
Qed.

Section seekLeft.
Variable st : state.

Lemma seekLeft_start : position st <= -1 -> seekLeft st = Ok st.
Proof.
  intros H. unfold seekLeft.
  now destruct (Z.leb_spec (position st) (-1)); [|lia].
Qed.

Lemma seekLeft_top_leaf (i c : nat) (C : Component) :
  block st = Null -> position st = before (Z.of_nat (S i)) ->
  components st !! i = Some c -> heap st !! c = Some (OComp C) ->
  is_leaf_cls (class C) = true ->
  seekLeft st = Ok (move st Null Null (-1) (before (Z.of_nat i))).
Proof.
  intros Hb Hp Hi HC Hleaf. unfold seekLeft.
  destruct (Z.leb_spec (position st) (-1)); [unfold before in *; lia|].
  rewrite Hb, Hp.
  replace (before (Z.of_nat (S i)) - 1) with (of_int (Z.of_nat i))
    by (unfold before, of_int; lia).
  rewrite js_index_of_int, Hi. unfold is_leaf. rewrite HC, Hleaf.
  do 2 f_equal.
Qed.

Lemma seekLeft_top_enter (i c : nat) (C : Component) (LB : Block) :
  block st = Null -> position st = before (Z.of_nat (S i)) ->
  components st !! i = Some c -> heap st !! c = Some (OComp C) ->
  is_leaf_cls (class C) = false ->
  blocks C = seq (S c) (arity (class C)) -> (0 < arity (class C))%nat ->
  heap st !! (c + arity (class C))%nat = Some (OBlock LB) ->
  seekLeft st
  = Ok (move st (Ref (c + arity (class C))%nat) (Ref c)
          (before (Z.of_nat (length (children LB)))) (of_int (Z.of_nat i))).
Proof.
  intros Hb Hp Hi HC Hleaf Hbl Har HLB. unfold seekLeft.
  destruct (Z.leb_spec (position st) (-1)); [unfold before in *; lia|].
  rewrite Hb, Hp.
  replace (before (Z.of_nat (S i)) - 1) with (of_int (Z.of_nat i))
    by (unfold before, of_int; lia).
  rewrite js_index_of_int, Hi. unfold is_leaf. rewrite HC, Hleaf. simpl.
  rewrite HC. simpl. rewrite Hbl, last_block by exact Har. simpl.
  now rewrite HLB.
Qed.

Variables (b c : nat) (B : Block) (C : Component).
Hypothesis Hblock : block st = Ref b.
Hypothesis HB : heap st !! b = Some (OBlock B).
Hypothesis Hpos : -1 < position st.

Lemma seekLeft_in_leaf (i y : nat) (Y : Component) :
  child st = before (Z.of_nat (S i)) ->
  children B !! i = Some (CRef y) -> heap st !! y = Some (OComp Y) ->
  is_leaf_cls (class Y) = true ->
  seekLeft st
  = Ok (move st (Ref b) (component st) (before (Z.of_nat i)) (position st)).
Proof.
  intros Hchild Hi HY Hleaf. unfold seekLeft.
  destruct (Z.leb_spec (position st) (-1)); [lia|].
  rewrite Hblock, Hchild.
  destruct (Z.eqb_spec (before (Z.of_nat (S i))) (-1)); [unfold before in *; lia|].
  simpl. rewrite HB. simpl. rewrite floor2_before.
  replace (Z.of_nat (S i) - 1) with (Z.of_nat i) by lia.
  rewrite js_at_nat, Hi. simpl. rewrite HY, Hleaf.
  do 2 f_equal. unfold before. lia.
Qed.

Lemma seekLeft_in_enter (i y : nat) (Y : Component) (LB : Block) :
  child st = before (Z.of_nat (S i)) ->
  children B !! i = Some (CRef y) -> heap st !! y = Some (OComp Y) ->
  is_leaf_cls (class Y) = false ->
  blocks Y = seq (S y) (arity (class Y)) -> (0 < arity (class Y))%nat ->
  heap st !! (y + arity (class Y))%nat = Some (OBlock LB) ->
  seekLeft st
  = Ok (move st (Ref (y + arity (class Y))%nat) (Ref y)
          (before (Z.of_nat (length (children LB)))) (position st)).
Proof.
  intros Hchild Hi HY Hleaf Hbl Har HLB. unfold seekLeft.
  destruct (Z.leb_spec (position st) (-1)); [lia|].
  rewrite Hblock, Hchild.
  destruct (Z.eqb_spec (before (Z.of_nat (S i))) (-1)); [unfold before in *; lia|].
  simpl. rewrite HB. simpl. rewrite floor2_before.
  replace (Z.of_nat (S i) - 1) with (Z.of_nat i) by lia.
  rewrite js_at_nat, Hi. simpl. rewrite HY, Hleaf. simpl.
  rewrite Hbl, last_block by exact Har. simpl. now rewrite HLB.
Qed.

Hypothesis Hchild : child st = -1.
Hypothesis Hcomp : component st = Ref c.
Hypothesis HC : heap st !! c = Some (OComp C).
Hypothesis Hblocks : blocks C = seq (S c) (arity (class C)).
Hypothesis Hin : (S c <= b < S c + arity (class C))%nat.

Lemma seekLeft_in_prev_block (PB : Block) :
  (S c < b)%nat -> heap st !! (b - 1)%nat = Some (OBlock PB) ->
  seekLeft st
  = Ok (move st (Ref (b - 1)%nat) (Ref c)
          (before (Z.of_nat (length (children PB)))) (position st)).
Proof.
  intros Hprev HPB. unfold seekLeft.
  destruct (Z.leb_spec (position st) (-1)); [lia|].
  rewrite Hblock, Hchild. simpl. rewrite Hcomp. simpl. rewrite HC. simpl.
  rewrite Hblocks, indexOf_seq by lia.
  destruct (Z.eqb_spec (Z.of_nat (b - S c)) 0); [lia|].
  replace (Z.of_nat (b - S c) - 1) with (Z.of_nat (b - S c - 1)) by lia.
  rewrite js_at_nat, lookup_seq_lt by lia. simpl.
  replace (S (c + (b - S c - 1))) with (b - 1)%nat by lia.
  now rewrite HPB.
Qed.

Lemma seekLeft_in_exit_top :
  b = S c -> parent C = Null ->
  seekLeft st = Ok (move st Null Null (-1) (position st - 1)).
Proof.
  intros Hfirst Hpar. unfold seekLeft.
  destruct (Z.leb_spec (position st) (-1)); [lia|].
  rewrite Hblock, Hchild. simpl. rewrite Hcomp. simpl. rewrite HC. simpl.
  rewrite Hblocks, indexOf_seq by lia.
  destruct (Z.eqb_spec (Z.of_nat (b - S c)) 0); [|lia].
  now rewrite Hpar.
Qed.

Lemma seekLeft_in_exit_up (pb m : nat) (PB : Block) :
  b = S c -> parent C = Ref pb ->
  heap st !! pb = Some (OBlock PB) -> NoDup (children PB) ->
  children PB !! m = Some (CRef c) ->
  seekLeft st
  = Ok (move st (Ref pb) (block_parent PB) (before (Z.of_nat m)) (position st)).
Proof.
  intros Hfirst Hpar HPB Hnd Hm. unfold seekLeft.
  destruct (Z.leb_spec (position st) (-1)); [lia|].
  rewrite Hblock, Hchild. simpl. rewrite Hcomp. simpl. rewrite HC. simpl.
  rewrite Hblocks, indexOf_seq by lia.
  destruct (Z.eqb_spec (Z.of_nat (b - S c)) 0); [|lia].
  rewrite Hpar. simpl. rewrite HPB. simpl.
  rewrite (indexOf_NoDup child_eqb (CRef c) _ m (child_eqb_iff c) Hnd Hm).
  do 2 f_equal.
Qed.
End seekLeft.

(** ** What the invariant says about the place of the cursor *)

Lemma move_id (st st1 : state) (b c : jsref) (ch pos : addr) :
  heap st1 = heap st -> components st1 = components st ->
  latex st1 = latex st ->
  block st = b -> component st = c -> child st = ch -> position st = pos ->
  move st1 b c ch pos = st.
Proof. destruct st, st1; simpl; intros; subst; reflexivity. Qed.

Lemma store_ok_comp (h : store) (c : ref) (C : Component) :
  store_ok h -> h !! c = Some (OComp C) -> comp_ok h c C.
Proof. intros Hok HC. exact (Hok c _ HC). Qed.

Lemma store_ok_block (h : store) (b : ref) (B : Block) :
  store_ok h -> h !! b = Some (OBlock B) -> block_ok h b B.
Proof. intros Hok HB. exact (Hok b _ HB). Qed.

Lemma comp_ok_block (h : store) (c j : nat) (C : Component) :
  comp_ok h c C -> (j < arity (class C))%nat ->
  exists B, h !! (S c + j)%nat = Some (OBlock B) /\ block_parent B = Ref c.
Proof.
  intros (Hbl & Hown & _) Hj. apply Hown. rewrite Hbl. apply elem_of_seq. lia.
Qed.

(** Everything known about a cursor inside a block. *)
Lemma inside_facts (h : store) (comps : list ref) (b : ref) (cv : jsref)
    (ch pos : addr) :
  store_ok h -> inside h comps b cv ch pos ->
  exists (B : Block) (c : ref) (C : Component) (t i k : nat),
    h !! b = Some (OBlock B) /\ block_parent B = Ref c /\ cv = Ref c
    /\ h !! c = Some (OComp C) /\ is_leaf_cls (class C) = false
    /\ (i <= length (children B))%nat /\ ch = before (Z.of_nat i)
    /\ anc h c t /\ comps !! k = Some t /\ pos = of_int (Z.of_nat k)
    /\ comp_ok h c C /\ NoDup (children B)
    /\ (S c <= b < S c + arity (class C))%nat
    /\ (forall j x, children B !! j = Some x ->
          exists y Y, x = CRef y /\ h !! y = Some (OComp Y)
                      /\ parent Y = Ref b /\ comp_ok h y Y).
Proof.
  intros Hok (B & c & C & t & i & k & HB & HpB & Hcv & HC & Hleaf & Hi & Hch
              & Hanc & Hk & Hpos).
  exists B, c, C, t, i, k.
  pose proof (store_ok_comp h c C Hok HC) as HokC.
  destruct (store_ok_block h b B Hok HB)
    as (Hnd & c0 & C0 & HpB0 & HC0 & Hin & Hchildren & _).
  assert (c0 = c) as -> by congruence.
  assert (C0 = C) as -> by congruence.
  assert (Hrange : (S c <= b < S c + arity (class C))%nat).
  { destruct HokC as (Hbl & _). rewrite Hbl in Hin. now apply elem_of_seq in Hin. }
  do 12 (split; [assumption|]). split; [exact Hrange|].
  intros j x Hj.
  destruct (Hchildren Hleaf x ltac:(eapply list_elem_of_lookup_2; eauto))
    as (y & Y & -> & HY & HpY).
  exists y, Y. split; [reflexivity|]. split; [exact HY|]. split; [exact HpY|].
  exact (store_ok_comp h y Y Hok HY).
Qed.

Lemma comp_ok_last_block (h : store) (c : nat) (C : Component) :
  comp_ok h c C -> is_leaf_cls (class C) = false ->
  (0 < arity (class C))%nat
  /\ exists LB, h !! (c + arity (class C))%nat = Some (OBlock LB)
                /\ block_parent LB = Ref c.
Proof.
  intros Hok Hleaf. pose proof Hok as (_ & _ & Har & _). specialize (Har Hleaf).
  split; [exact Har|].
  destruct (comp_ok_block h c (arity (class C) - 1) C Hok ltac:(lia)) as (B & HB & Hp).
  exists B. split; [|exact Hp].
  now replace (c + arity (class C))%nat with (S c + (arity (class C) - 1))%nat by lia.
Qed.

Lemma comp_ok_first_block (h : store) (c : nat) (C : Component) :
  comp_ok h c C -> is_leaf_cls (class C) = false ->
  (0 < arity (class C))%nat
  /\ exists FB, h !! S c = Some (OBlock FB) /\ block_parent FB = Ref c.
Proof.
  intros Hok Hleaf. pose proof Hok as (_ & _ & Har & _). specialize (Har Hleaf).
  split; [exact Har|].
  destruct (comp_ok_block h c 0 C Hok Har) as (B & HB & Hp).
  exists B. split; [|exact Hp]. now rewrite Nat.add_0_r in HB.
Qed.

(** ** Building the invariant for a moved cursor *)

Lemma inv_move_top (st : state) (pos : addr) (i : nat) :
  inv st -> (i <= length (components st))%nat -> pos = before (Z.of_nat i) ->
  inv (move st Null Null (-1) pos).
Proof.
  intros (Hok & Hnd & Htops & _) Hi Hp.
  split; [exact Hok|]. split; [exact Hnd|]. split; [exact Htops|].
  simpl. unfold at_top. eauto.
Qed.

Lemma inv_move_inside (st : state) (b : ref) (cv : jsref) (ch pos : addr) :
  inv st ->
  inside (heap st) (components st) b cv ch pos ->
  inv (move st (Ref b) cv ch pos).
Proof.
  intros (Hok & Hnd & Htops & _) Hin.
  split; [exact Hok|]. split; [exact Hnd|]. split; [exact Htops|]. exact Hin.
Qed.

Lemma inside_intro (h : store) (comps : list ref) (b : ref) (B : Block)
    (c : ref) (C : Component) (t i k : nat) (cv : jsref) (ch pos : addr) :
  h !! b = Some (OBlock B) -> block_parent B = Ref c -> cv = Ref c ->
  h !! c = Some (OComp C) -> is_leaf_cls (class C) = false ->
  (i <= length (children B))%nat -> ch = before (Z.of_nat i) ->
  anc h c t -> comps !! k = Some t -> pos = of_int (Z.of_nat k) ->
  inside h comps b cv ch pos.
Proof. intros. exists B, c, C, t, i, k. repeat split; assumption. Qed.

(** A component listed in a block of [c] has the top-level ancestor of
    [c]. *)
Lemma anc_child (h : store) (b c y t : ref) (B : Block) (C Y : Component) :
  h !! b = Some (OBlock B) -> block_parent B = Ref c ->
  h !! c = Some (OComp C) -> is_leaf_cls (class C) = false ->
  (c < b)%nat -> anc h c t ->
  CRef y ∈ children B -> h !! y = Some (OComp Y) -> parent Y = Ref b ->
  comp_ok h y Y ->
  anc h y t.
Proof.
  intros HB HpB HC Hleaf Hlt Hanc Hin HY HpY (_ & _ & _ & Hpar).
  rewrite HpY in Hpar. destruct Hpar as (Hlt' & _).
  eapply anc_step; eauto.
Qed.

(** ** Right then left, left then right *)

Ltac side :=
  simpl;
  first [ eassumption | reflexivity | lia | congruence
        | unfold of_int, before in *; simpl; lia ].

Lemma seekRight_seekLeft (st : state) :
  inv st ->
  position st < before (Z.of_nat (length (components st))) ->
  exists st1, seekRight st = Ok st1 /\ seekLeft st1 = Ok st /\ inv st1.
Proof.
  intros Hinv Hlt. pose proof Hinv as (Hok & Hnd & Htops & Hcur).
  destruct (block st) as [| |b] eqn:Hb; [|contradiction|].
  - (* at top level *)
    destruct Hcur as (Hc & Hch & i & Hi & Hp).
    assert (Hi' : (i < length (components st))%nat) by (unfold before in *; lia).
    destruct (lookup_lt_is_Some_2 _ _ Hi') as (c & Hic).
    destruct (Htops c ltac:(eapply list_elem_of_lookup_2; eauto)) as (C & HC & Hpar).
    pose proof (store_ok_comp _ _ _ Hok HC) as HokC.
    destruct (is_leaf_cls (class C)) eqn:Hleaf.
    + eexists. split; [eapply seekRight_top_leaf; eauto|]. split.
      * rewrite (seekLeft_top_leaf _ i c C) by side.
        f_equal. apply move_id; side.
      * apply (inv_move_top st _ (S i)); [exact Hinv | lia | reflexivity].
    + destruct (comp_ok_first_block _ _ _ HokC Hleaf) as (Har & FB & HFB & HpFB).
      pose proof HokC as (Hbl & _).
      eexists. split; [eapply seekRight_top_enter; eauto|]. split.
      * rewrite (seekLeft_in_exit_top _ (S c) c C) by side.
        f_equal. apply move_id; side.
      * apply inv_move_inside; [exact Hinv|].
        apply (inside_intro _ _ _ FB c C c 0 i); auto; try lia.
        eapply anc_top; eauto.
  - (* inside a block *)
    destruct (inside_facts _ _ _ _ _ _ Hok Hcur)
      as (B & c & C & t & i & k & HB & HpB & Hcv & HC & Hleaf & Hi & Hch
          & Hanc & Hk & Hpos & HokC & HndB & Hin & Hchildren).
    pose proof HokC as (Hbl & _).
    pose proof (lookup_lt_Some _ _ _ Hk) as Hklt.
    assert (Hposgt : -1 < position st) by (rewrite Hpos; unfold of_int; lia).
    destruct (decide (i = length (children B))) as [Hend|Hmid].
    + destruct (decide (S b = S c + arity (class C))%nat) as [Hlast|Hnext].
      * assert (b = (c + arity (class C))%nat) as Hbeq by lia.
        destruct (parent C) as [| |pb] eqn:Hpar.
        -- pose proof (anc_top_inv _ _ _ _ Hanc HC Hpar) as ->.
           eexists. split; [eapply seekRight_in_exit_top; eauto|].
           rewrite Hbeq in HB. split.
           ++ rewrite (seekLeft_top_enter _ k c C B) by side.
              f_equal. apply move_id; side.
           ++ apply (inv_move_top st _ (S k)); [exact Hinv | lia | side].
        -- destruct HokC as (_ & _ & _ & HparC). now rewrite Hpar in HparC.
        -- destruct (anc_step_inv _ _ _ _ _ Hanc HC Hpar)
             as (PB & c' & C' & HPB & HinPB & HpPB & HC' & Hleaf' & _ & _ & Hanc').
           apply list_elem_of_lookup_1 in HinPB as (m & Hm).
           destruct (store_ok_block _ _ _ Hok HPB) as (HndPB & _).
           pose proof (lookup_lt_Some _ _ _ Hm) as Hmlt.
           eexists. split; [eapply seekRight_in_exit_up; eauto|].
           rewrite Hbeq in HB. split.
           ++ rewrite (seekLeft_in_enter _ pb PB) with (i := m) (y := c) (Y := C) (LB := B)
                by side.
              f_equal. apply move_id; side.
           ++ apply inv_move_inside; [exact Hinv|].
              apply (inside_intro _ _ _ PB c' C' t (S m) k); auto.
      * destruct (comp_ok_block _ c (S b - S c) C HokC ltac:(lia)) as (NB & HNB & HpNB).
        replace (S c + (S b - S c))%nat with (S b) in HNB by lia.
        eexists. split; [eapply seekRight_in_next_block; eauto; lia|].
        assert (HB' : heap st !! (S b - 1)%nat = Some (OBlock B))
          by (now replace (S b - 1)%nat with b by lia).
        split.
        -- rewrite (seekLeft_in_prev_block _ (S b) c C) with (PB := B) by side.
           f_equal. apply move_id; try side. rewrite Hb. f_equal. lia.
        -- apply inv_move_inside; [exact Hinv|].
           apply (inside_intro _ _ _ NB c C t 0 k); auto; lia.
    + assert (Hi' : (i < length (children B))%nat) by lia.
      destruct (lookup_lt_is_Some_2 _ _ Hi') as (x & Hx).
      destruct (Hchildren i x Hx) as (y & Y & -> & HY & HpY & HokY).
      destruct (is_leaf_cls (class Y)) eqn:HleafY.
      * eexists. split; [eapply seekRight_in_leaf; eauto|]. split.
        -- rewrite (seekLeft_in_leaf _ b B) with (i := i) (y := y) (Y := Y) by side.
           f_equal. apply move_id; side.
        -- apply inv_move_inside; [exact Hinv|].
           apply (inside_intro _ _ _ B c C t (S i) k); auto.
      * destruct (comp_ok_first_block _ _ _ HokY HleafY) as (Har & FB & HFB & HpFB).
        pose proof HokY as (HblY & _).
        eexists. split; [eapply seekRight_in_enter; eauto|]. split.
        -- rewrite (seekLeft_in_exit_up _ (S y) y Y) with (pb := b) (m := i) (PB := B)
             by side.
           f_equal. apply move_id; side.
        -- apply inv_move_inside; [exact Hinv|].
           apply (inside_intro _ _ _ FB y Y t 0 k); auto; try lia.
           eapply (anc_child _ b c y t B C Y); eauto; try lia.
           eapply list_elem_of_lookup_2; eauto.
Qed.

Lemma seekLeft_seekRight (st : state) :
  inv st ->
  -1 < position st ->
  exists st1, seekLeft st = Ok st1 /\ seekRight st1 = Ok st /\ inv st1.
Proof.
  intros Hinv Hgt. pose proof Hinv as (Hok & Hnd & Htops & Hcur).
  destruct (block st) as [| |b] eqn:Hb; [|contradiction|].
  - (* at top level *)
    destruct Hcur as (Hc & Hch & i & Hi & Hp).
    destruct i as [|i]; [unfold before in Hp; lia|].
    destruct (lookup_lt_is_Some_2 (components st) i ltac:(lia)) as (c & Hic).
    destruct (Htops c ltac:(eapply list_elem_of_lookup_2; eauto)) as (C & HC & Hpar).
    pose proof (store_ok_comp _ _ _ Hok HC) as HokC.
    destruct (is_leaf_cls (class C)) eqn:Hleaf.
    + eexists. split; [eapply seekLeft_top_leaf; eauto|]. split.
      * rewrite (seekRight_top_leaf _ i c C) by side.
        f_equal. apply move_id; side.
      * apply (inv_move_top st _ i); [exact Hinv | lia | reflexivity].
    + destruct (comp_ok_last_block _ _ _ HokC Hleaf) as (Har & LB & HLB & HpLB).
      pose proof HokC as (Hbl & _).
      eexists. split; [eapply seekLeft_top_enter; eauto|]. split.
      * rewrite (seekRight_in_exit_top _ (c + arity (class C))%nat c
                   (length (children LB)) LB C) by side.
        f_equal. apply move_id; side.
      * apply inv_move_inside; [exact Hinv|].
        apply (inside_intro _ _ _ LB c C c (length (children LB)) i); auto.
        eapply anc_top; eauto.
  - (* inside a block *)
    destruct (inside_facts _ _ _ _ _ _ Hok Hcur)
      as (B & c & C & t & i & k & HB & HpB & Hcv & HC & Hleaf & Hi & Hch
          & Hanc & Hk & Hpos & HokC & HndB & Hin & Hchildren).
    pose proof HokC as (Hbl & _).
    pose proof (lookup_lt_Some _ _ _ Hk) as Hklt.
    assert (Hposlt : position st < before (Z.of_nat (length (components st))))
      by (rewrite Hpos; unfold of_int, before; lia).
    destruct i as [|i].
    + assert (Hch0 : child st = -1) by (rewrite Hch; reflexivity).
      destruct (decide (b = S c)) as [Hfirst|Hprev].
      * destruct (parent C) as [| |pb] eqn:Hpar.
        -- pose proof (anc_top_inv _ _ _ _ Hanc HC Hpar) as ->.
           destruct (comp_ok_first_block _ _ _ HokC Hleaf) as (Har & _).
           eexists. split; [eapply seekLeft_in_exit_top; eauto|]. split.
           ++ rewrite (seekRight_top_enter _ k c C) by side.
              f_equal. apply move_id; side.
           ++ apply (inv_move_top st _ k); [exact Hinv | lia | side].
        -- destruct HokC as (_ & _ & _ & HparC). now rewrite Hpar in HparC.
        -- destruct (anc_step_inv _ _ _ _ _ Hanc HC Hpar)
             as (PB & c' & C' & HPB & HinPB & HpPB & HC' & Hleaf' & _ & _ & Hanc').
           apply list_elem_of_lookup_1 in HinPB as (m & Hm).
           destruct (store_ok_block _ _ _ Hok HPB) as (HndPB & _).
           destruct (comp_ok_first_block _ _ _ HokC Hleaf) as (Har & _).
           pose proof (lookup_lt_Some _ _ _ Hm) as Hmlt.
           eexists. split; [eapply seekLeft_in_exit_up; eauto|]. split.
           ++ rewrite (seekRight_in_enter _ pb m PB) with (y := c) (Y := C) by side.
              f_equal. apply move_id; side.
           ++ apply inv_move_inside; [exact Hinv|].
              apply (inside_intro _ _ _ PB c' C' t m k); auto. lia.
      * destruct (comp_ok_block _ c (b - 1 - S c) C HokC ltac:(lia))
          as (PBk & HPBk & HpPBk).
        replace (S c + (b - 1 - S c))%nat with (b - 1)%nat in HPBk by lia.
        eexists. split; [eapply seekLeft_in_prev_block; eauto; lia|]. split.
        -- rewrite (seekRight_in_next_block _ (b - 1)%nat c
                      (length (children PBk)) PBk C) by side.
           f_equal. apply move_id; try side. rewrite Hb. f_equal. lia.
        -- apply inv_move_inside; [exact Hinv|].
           apply (inside_intro _ _ _ PBk c C t (length (children PBk)) k); auto.
    + destruct (lookup_lt_is_Some_2 (children B) i ltac:(lia)) as (x & Hx).
      destruct (Hchildren i x Hx) as (y & Y & -> & HY & HpY & HokY).
      destruct (is_leaf_cls (class Y)) eqn:HleafY.
      * eexists. split; [eapply seekLeft_in_leaf; eauto|]. split.
        -- rewrite (seekRight_in_leaf _ b i B) with (y := y) (Y := Y) by side.
           f_equal. apply move_id; side.
        -- apply inv_move_inside; [exact Hinv|].
           apply (inside_intro _ _ _ B c C t i k); auto. lia.
      * destruct (comp_ok_last_block _ _ _ HokY HleafY) as (Har & LY & HLY & HpLY).
        pose proof HokY as (HblY & _).
        eexists. split; [eapply seekLeft_in_enter; eauto|]. split.
        -- rewrite (seekRight_in_exit_up _ (y + arity (class Y))%nat y
                      (length (children LY)) LY Y)
             with (pb := b) (m := i) (PB := B) by side.
           f_equal. apply move_id; side.
        -- apply inv_move_inside; [exact Hinv|].
           apply (inside_intro _ _ _ LY y Y t (length (children LY)) k); auto.
           eapply (anc_child _ b c y t B C Y); eauto; try lia.
           eapply list_elem_of_lookup_2; eauto.
Qed.

Lemma inv_seekRight (st st' : state) :
  inv st -> seekRight st = Ok st' -> inv st'.
Proof.
  intros Hinv H.
  destruct (Z.le_gt_cases (before (Z.of_nat (length (components st)))) (position st))
    as [Hend|Hlt].
  - rewrite seekRight_end in H by exact Hend. now injection H as <-.
  - destruct (seekRight_seekLeft st Hinv ltac:(lia)) as (st1 & H1 & _ & Hinv1).
    congruence.
Qed.

Lemma inv_seekLeft (st st' : state) :
  inv st -> seekLeft st = Ok st' -> inv st'.
Proof.
  intros Hinv H.
  destruct (Z.le_gt_cases (position st) (-1)) as [Hend|Hlt].
  - rewrite seekLeft_start in H by exact Hend. now injection H as <-.
  - destruct (seekLeft_seekRight st Hinv ltac:(lia)) as (st1 & H1 & _ & Hinv1).
    congruence.
Qed.

(** ** Insertion and deletion in arrays *)

Section insert_delete.
Context {A : Type}.
Implicit Types (l : list A) (x y : A) (i : nat).

Lemma elem_of_insert_middle l i x y :
  y ∈ take i l ++ x :: drop i l <-> y = x \/ y ∈ l.
Proof.
  rewrite elem_of_app, elem_of_cons.
  assert (Hl : y ∈ l <-> y ∈ take i l \/ y ∈ drop i l)
    by (rewrite <- elem_of_app; now rewrite take_drop).
  tauto.
Qed.

Lemma NoDup_insert_middle l i x :
  NoDup l -> x ∉ l -> NoDup (take i l ++ x :: drop i l).
Proof.
  intros Hnd Hx. rewrite <- (take_drop i l) in Hnd, Hx.
  apply NoDup_app in Hnd as (H1 & H2 & H3).
  apply NoDup_app. split; [exact H1|]. split.
  - intros y Hy Hy'. apply elem_of_cons in Hy' as [->|Hy'].
    + apply Hx, elem_of_app. now left.
    + now apply (H2 y).
  - apply NoDup_cons. split; [|exact H3].
    intros Hin. apply Hx, elem_of_app. now right.
Qed.

Lemma lookup_insert_middle l i x :
  (i <= length l)%nat -> (take i l ++ x :: drop i l) !! i = Some x.
Proof.
  intros Hi. rewrite lookup_app_r by (rewrite length_take; lia).
  rewrite length_take. now replace (i - i `min` length l)%nat with 0%nat by lia.
Qed.

Lemma length_insert_middle l i x :
  length (take i l ++ x :: drop i l) = S (length l).
Proof.
  rewrite length_app. simpl. rewrite length_take, length_drop. lia.
Qed.
End insert_delete.

(** A reference that occurs in a well-formed store or expression is
    older than the next allocation. *)
Lemma tops_ok_lt (h : store) (comps : list ref) (t : ref) :
  tops_ok h comps -> t ∈ comps -> (t < length h)%nat.
Proof.
  intros Ht Hin. destruct (Ht t Hin) as (T & HT & _).
  now apply lookup_lt_Some in HT.
Qed.

Lemma arity_pos (k : cls) (col : string) :
  with_cells (OpInsert k col) -> is_leaf_cls k = false -> (0 < arity k)%nat.
Proof. destruct k; simpl; intros H Hl; try discriminate; try lia. Qed.

(** ** Allocation *)

Lemma new_component_facts k par col h n h1 :
  new_component k par col h = (n, h1) ->
  n = length h
  /\ (exists l, h1 = h ++ l)
  /\ h1 !! n = Some (OComp {| class := k; blocks := seq (S n) (arity k);
                              parent := match par with Undefined => Null | p => p end;
                              color := if has_color k then Some col else None |})
  /\ (forall j, (j < arity k)%nat ->
        h1 !! (S n + j)%nat
        = Some (OBlock {| children := []; block_parent := Ref n |})).
Proof.
  intros H.
  pose proof (new_component_lookup_comp k par col h) as HC.
  pose proof (new_component_lookup_block k par col h) as HB.
  rewrite H in HC, HB. simpl in HC, HB.
  unfold new_component in H. injection H as <- <-.
  split; [reflexivity|]. split; [eauto|]. split; [exact HC | exact HB].
Qed.

Lemma new_text_facts par text h n h1 :
  new_text par text h = (n, h1) ->
  n = length h
  /\ (exists l, h1 = h ++ l)
  /\ h1 !! n = Some (OComp {| class := TextComponent; blocks := [S n];
                              parent := match par with Undefined => Null | p => p end;
                              color := None |}).
Proof.
  rewrite new_text_eq. intros [= <- <-].
  split; [reflexivity|]. split; [eauto|].
  rewrite lookup_app_r by lia. now rewrite Nat.sub_diag.
Qed.

(** ** Typing a text *)

(** Reduces the projections of a state that is given by its fields. *)
Tactic Notation "fields" :=
  cbn [heap components block component child position latex].
Tactic Notation "fields" "in" hyp(H) :=
  cbn [heap components block component child position latex] in H.

Lemma inv_addText (text : string) (st st' : state) :
  inv st -> addText text st = Ok st' -> inv st'.
Proof.
  intros Hinv H. pose proof Hinv as (Hok & Hnd & Htops & Hcur).
  unfold addText in H.
  destruct (block st) as [| |b] eqn:Hb; [|contradiction|].
  - destruct (new_text Null text (heap st)) as [n h1] eqn:Hnew.
    pose proof (store_ok_new_text Null text (heap st) Hok I) as Hok1.
    pose proof (skel_new_text Null text (heap st)) as Hsk.
    rewrite Hnew in Hok1, Hsk. simpl in Hok1, Hsk.
    destruct (new_text_facts _ _ _ _ _ Hnew) as (-> & _ & Hn).
    destruct Hcur as (Hc & Hch & i & Hi & Hp).
    injection H as <-.
    rewrite Hp, ceil2_before, splice_add_nat by exact Hi.
    split; [exact Hok1|]. unfold cursor_ok. fields. split; [|split].
    + apply NoDup_insert_middle; [exact Hnd|].
      intros Hin. apply (tops_ok_lt _ _ _ Htops) in Hin. lia.
    + intros t Ht. apply elem_of_insert_middle in Ht as [->|Ht].
      * eexists. split; [exact Hn | reflexivity].
      * exact (tops_ok_skel _ _ _ Hsk Htops t Ht).
    + split; [exact Hc|]. split; [reflexivity|]. exists (S i).
      rewrite length_insert_middle. split; [lia | side].
  - destruct (new_text (Ref b) text (heap st)) as [n h1] eqn:Hnew.
    destruct (inside_facts _ _ _ _ _ _ Hok Hcur)
      as (B & c & C & t & i & k & HB & HpB & Hcv & HC & Hleaf & Hi & Hch
          & Hanc & Hk & Hpos & HokC & HndB & Hin & Hchildren).
    pose proof (store_ok_new_text (Ref b) text (heap st) Hok
                  (ex_intro _ B HB)) as Hok1.
    pose proof (skel_new_text (Ref b) text (heap st)) as Hsk.
    rewrite Hnew in Hok1, Hsk. simpl in Hok1, Hsk.
    destruct (new_text_facts _ _ _ _ _ Hnew) as (-> & (l & ->) & Hn).
    assert (HB1 : (heap st ++ l) !! b = Some (OBlock B))
      by now apply lookup_app_l_Some.
    rewrite HB1 in H. injection H as <-.
    rewrite Hch, ceil2_before. unfold Block_addChild.
    rewrite splice_add_nat by exact Hi.
    set (B' := {| children := take i (children B)
                              ++ CRef (length (heap st)) :: drop i (children B);
                  block_parent := block_parent B |}).
    assert (Hfresh : CRef (length (heap st)) ∉ children B).
    { intros Hx. apply list_elem_of_lookup_1 in Hx as (j & Hj).
      destruct (Hchildren j _ Hj) as (y & Y & [= <-] & HY & _).
      apply lookup_lt_Some in HY. lia. }
    assert (Hsk2 : skel (heap st ++ l) (<[b := OBlock B']> (heap st ++ l)))
      by now apply (skel_upd _ b B B').
    split; [|split; [exact Hnd|split]]; fields.
    + apply (store_ok_upd _ b B B'); auto.
      * simpl. now apply NoDup_insert_middle.
      * simpl. intros c0 C0 Hc0 HC0 Hleaf0 ch Hin'.
        apply elem_of_insert_middle in Hin' as [->|Hin'].
        -- eexists _, _. split; [reflexivity|]. split; [exact Hn | reflexivity].
        -- apply list_elem_of_lookup_1 in Hin' as (j & Hj).
           destruct (Hchildren j _ Hj) as (y & Y & -> & HY & HpY & _).
           exists y, Y. split; [reflexivity|]. split; [|exact HpY].
           now apply lookup_app_l_Some.
      * intros c0 C0 Hc0 HC0 Hleaf0. exfalso.
        assert (c0 = c) as -> by congruence.
        rewrite (lookup_app_l_Some _ _ _ _ HC) in HC0. congruence.
    + apply (tops_ok_skel (heap st ++ l)); [exact Hsk2|].
      now apply (tops_ok_skel (heap st)).
    + apply (inside_intro _ _ _ B' c C t (S i) k); auto.
      * apply list_lookup_insert_eq. now apply lookup_lt_Some in HB1.
      * apply Hsk2. now apply lookup_app_l_Some.
      * simpl. rewrite length_insert_middle. lia.
      * side.
      * apply (anc_upd _ b B B'); [now apply anc_app | exact HB1 | lia].
Qed.

(** ** Inserting a component *)

Lemma inv_insert (k : cls) (col : string) (st st' : state) :
  with_cells (OpInsert k col) ->
  inv st -> insert k col st = Ok st' -> inv st'.
Proof.
  intros Hk Hinv H. pose proof Hinv as (Hok & Hnd & Htops & Hcur).
  unfold insert in H.
  destruct (new_component k (block st) col (heap st)) as [n h1] eqn:Hnew.
  pose proof (skel_new_component k (block st) col (heap st)) as Hsk.
  pose proof (store_ok_new_component k (block st) col (heap st) Hok
                (arity_pos k col Hk)) as Hok1.
  rewrite Hnew in Hsk, Hok1. simpl in Hsk, Hok1.
  destruct (new_component_facts _ _ _ _ _ _ Hnew) as (-> & (l & ->) & Hn & Hblocks).
  unfold addComponent in H. fields in H.
  assert (Hleaf_n : is_leaf (heap st ++ l) (Some (length (heap st))) = is_leaf_cls k)
    by (unfold is_leaf; now rewrite Hn).
  rewrite Hleaf_n in H.
  destruct (block st) as [| |b] eqn:Hb; [|contradiction|].
  - specialize (Hok1 I).
    destruct Hcur as (Hc & Hch & i & Hi & Hp).
    rewrite Hp, ceil2_before, splice_add_nat in H by exact Hi.
    assert (Hnd' : NoDup (take i (components st)
                          ++ length (heap st) :: drop i (components st))).
    { apply NoDup_insert_middle; [exact Hnd|].
      intros Hin. apply (tops_ok_lt _ _ _ Htops) in Hin. lia. }
    assert (Htops' : tops_ok (heap st ++ l)
                       (take i (components st)
                        ++ length (heap st) :: drop i (components st))).
    { intros t Ht. apply elem_of_insert_middle in Ht as [->|Ht].
      - eexists. split; [exact Hn | reflexivity].
      - exact (tops_ok_skel _ _ _ Hsk Htops t Ht). }
    destruct (is_leaf_cls k) eqn:Hleaf.
    + injection H as <-. split; [exact Hok1|]. unfold cursor_ok. fields.
      split; [exact Hnd'|]. split; [exact Htops'|].
      split; [reflexivity|]. split; [reflexivity|]. exists (S i).
      rewrite length_insert_middle. split; [lia | side].
    + simpl in H. rewrite Hn in H. simpl in H.
      pose proof (arity_pos k col Hk Hleaf) as Har.
      rewrite lookup_seq_lt in H by exact Har. simpl in H.
      injection H as <-. split; [exact Hok1|]. unfold cursor_ok. fields.
      split; [exact Hnd'|]. split; [exact Htops'|].
      rewrite Nat.add_0_r.
      eapply (inside_intro _ _ _ _ (length (heap st)) _ (length (heap st)) 0 i).
      * specialize (Hblocks 0%nat Har). rewrite Nat.add_0_r in Hblocks.
        exact Hblocks.
      * reflexivity.
      * reflexivity.
      * exact Hn.
      * exact Hleaf.
      * simpl. lia.
      * reflexivity.
      * eapply anc_top; [exact Hn | reflexivity].
      * now apply lookup_insert_middle.
      * reflexivity.
  - destruct (inside_facts _ _ _ _ _ _ Hok Hcur)
      as (B & c & C & t & i & j & HB & HpB & Hcv & HC & Hleaf & Hi & Hch
          & Hanc & Hj & Hpos & HokC & HndB & Hin & Hchildren).
    specialize (Hok1 (ex_intro _ B HB)).
    assert (HB1 : (heap st ++ l) !! b = Some (OBlock B))
      by now apply lookup_app_l_Some.
    simpl in H. rewrite HB1 in H. simpl in H.
    rewrite Hch, ceil2_before in H. unfold Block_addChild in H.
    rewrite splice_add_nat in H by exact Hi.
    set (B' := {| children := take i (children B)
                              ++ CRef (length (heap st)) :: drop i (children B);
                  block_parent := block_parent B |}) in H.
    assert (Hfresh : CRef (length (heap st)) ∉ children B).
    { intros Hx. apply list_elem_of_lookup_1 in Hx as (m & Hm).
      destruct (Hchildren m _ Hm) as (y & Y & [= <-] & HY & _).
      apply lookup_lt_Some in HY. lia. }
    assert (Hsk2 : skel (heap st ++ l) (<[b := OBlock B']> (heap st ++ l)))
      by now apply (skel_upd _ b B B').
    assert (Hok2 : store_ok (<[b := OBlock B']> (heap st ++ l))).
    { apply (store_ok_upd _ b B B'); auto.
      - simpl. now apply NoDup_insert_middle.
      - simpl. intros c0 C0 Hc0 HC0 Hleaf0 ch Hin'.
        apply elem_of_insert_middle in Hin' as [->|Hin'].
        + eexists _, _. split; [reflexivity|]. split; [exact Hn | reflexivity].
        + apply list_elem_of_lookup_1 in Hin' as (m & Hm).
          destruct (Hchildren m _ Hm) as (y & Y & -> & HY & HpY & _).
          exists y, Y. split; [reflexivity|]. split; [|exact HpY].
          now apply lookup_app_l_Some.
      - intros c0 C0 Hc0 HC0 Hleaf0. exfalso.
        assert (c0 = c) as -> by congruence.
        rewrite (lookup_app_l_Some _ _ _ _ HC) in HC0. congruence. }
    assert (Htops2 : tops_ok (<[b := OBlock B']> (heap st ++ l)) (components st)).
    { apply (tops_ok_skel (heap st ++ l)); [exact Hsk2|].
      now apply (tops_ok_skel (heap st)). }
    assert (HB2 : <[b := OBlock B']> (heap st ++ l) !! b = Some (OBlock B')).
    { apply list_lookup_insert_eq. now apply lookup_lt_Some in HB1. }
    assert (Hanc2 : anc (<[b := OBlock B']> (heap st ++ l)) c t).
    { apply (anc_upd _ b B B'); [now apply anc_app | exact HB1 | lia]. }
    assert (HC2 : <[b := OBlock B']> (heap st ++ l) !! c = Some (OComp C)).
    { apply Hsk2. now apply lookup_app_l_Some. }
    destruct (is_leaf_cls k) eqn:Hleafk.
    + injection H as <-.
      split; [exact Hok2|]. split; [exact Hnd|]. split; [exact Htops2|]. fields.
      apply (inside_intro _ _ _ B' c C t (S i) j); auto.
      * simpl. rewrite length_insert_middle. lia.
      * side.
    + rewrite Hn in H. simpl in H.
      pose proof (arity_pos k col Hk Hleafk) as Har.
      rewrite lookup_seq_lt in H by exact Har. simpl in H. injection H as <-.
      split; [exact Hok2|]. split; [exact Hnd|]. split; [exact Htops2|]. fields.
      rewrite Nat.add_0_r.
      pose proof (lookup_lt_Some _ _ _ HB) as Hblt.
      assert (HN2 : <[b := OBlock B']> (heap st ++ l) !! length (heap st)
                    = Some (OComp {| class := k;
                                     blocks := seq (S (length (heap st))) (arity k);
                                     parent := Ref b;
                                     color := if has_color k then Some col else None |}))
        by (apply Hsk2; exact Hn).
      eapply (inside_intro _ _ _ _ (length (heap st)) _ t 0 j).
      * rewrite list_lookup_insert_ne by lia.
        specialize (Hblocks 0%nat Har). rewrite Nat.add_0_r in Hblocks.
        exact Hblocks.
      * reflexivity.
      * reflexivity.
      * exact HN2.
      * exact Hleafk.
      * simpl. lia.
      * reflexivity.
      * eapply (anc_step _ (length (heap st)) b c t); eauto; try lia.
        simpl. apply elem_of_insert_middle. now left.
      * exact Hj.
      * exact Hpos.
Qed.

(** ** Deleting *)

Lemma store_ok_delete_child (h : store) (b : ref) (B : Block) (m : nat) :
  store_ok h -> h !! b = Some (OBlock B) ->
  store_ok (<[b := OBlock {| children := delete m (children B);
                             block_parent := block_parent B |}]> h).
Proof.
  intros Hok HB.
  destruct (store_ok_block _ _ _ Hok HB)
    as (Hnd & c & C & Hp & HC & Hin & Hch & Hstr).
  eapply store_ok_upd; eauto; simpl.
  - eauto using sublist_NoDup, sublist_delete.
  - intros c0 C0 Hc0 HC0 Hleaf ch Hx.
    assert (c0 = c) as -> by congruence. assert (C0 = C) as -> by congruence.
    apply Hch; [exact Hleaf|]. eapply list_elem_of_delete_inv, Hx.
  - intros c0 C0 Hc0 HC0 Hleaf ch Hx.
    assert (c0 = c) as -> by congruence. assert (C0 = C) as -> by congruence.
    apply Hstr; [exact Hleaf|]. eapply list_elem_of_delete_inv, Hx.
Qed.

Lemma inv_backspace (st st' : state) :
  inv st -> backspace st = Ok st' -> inv st'.
Proof.
  intros Hinv H. pose proof Hinv as (Hok & Hnd & Htops & Hcur).
  unfold backspace in H.
  destruct (length (components st) =? 0)%nat eqn:Hlen; [now injection H as <-|].
  destruct (Z.eqb_spec (position st) (-1)) as [Hp1|Hp1]; [now injection H as <-|].
  destruct (block st) as [| |b] eqn:Hb; [|contradiction|].
  - (* at top level *)
    destruct Hcur as (Hc & Hch & i & Hi & Hp).
    destruct i as [|i]; [contradiction Hp1; rewrite Hp; reflexivity|].
    destruct (lookup_lt_is_Some_2 (components st) i ltac:(lia)) as (c & Hic).
    destruct (Htops c ltac:(eapply list_elem_of_lookup_2; eauto)) as (C & HC & Hpar).
    pose proof (store_ok_comp _ _ _ Hok HC) as HokC.
    assert (Hprev : js_at (components st) (floor2 (position st)) = Some c).
    { rewrite Hp, floor2_before.
      replace (Z.of_nat (S i) - 1) with (Z.of_nat i) by lia.
      now rewrite js_at_nat. }
    assert (Hfl : floor2 (position st) = Z.of_nat i)
      by (rewrite Hp, floor2_before; lia).
    rewrite Hprev in H. unfold is_leaf in H. rewrite HC in H.
    destruct (is_leaf_cls (class C)) eqn:Hleaf.
    + unfold removeComponent in H. rewrite Hb, Hprev in H.
      unfold is_leaf in H. rewrite HC, Hleaf in H. simpl in H.
      rewrite HC in H. simpl in H.
      unfold removeComponent_in in H. fields in H. simpl in H.
      rewrite HC in H. simpl in H. rewrite Hpar in H.
      rewrite (indexOf_NoDup Nat.eqb c _ i (nat_eqb_iff c) Hnd Hic) in H.
      destruct (Z.eqb_spec (Z.of_nat i) (-1)) as [E|_]; [lia|].
      rewrite splice_remove_nat, Hfl in H by lia.
      injection H as <-. split; [exact Hok|]. unfold cursor_ok. fields.
      split; [eauto using sublist_NoDup, sublist_delete|]. split.
      * intros t Ht. apply Htops. eapply list_elem_of_delete_inv, Ht.
      * split; [reflexivity|]. split; [reflexivity|]. exists i.
        rewrite length_delete by eauto. split; [lia | side].
    + destruct (comp_ok_last_block _ _ _ HokC Hleaf) as (Har & LB & HLB & HpLB).
      pose proof HokC as (Hbl & _).
      simpl in H. rewrite HC in H. simpl in H.
      rewrite Hbl, last_block in H by exact Har. simpl in H.
      rewrite HLB in H. simpl in H. injection H as <-.
      apply (inv_move_inside st); [exact Hinv|].
      apply (inside_intro _ _ _ LB c C c (length (children LB)) i); auto.
      * eapply anc_top; eauto.
      * now rewrite Hfl.
  - (* inside a block *)
    destruct (inside_facts _ _ _ _ _ _ Hok Hcur)
      as (B & c & C & t & i & k & HB & HpB & Hcv & HC & Hleaf & Hi & Hch
          & Hanc & Hk & Hpos & HokC & HndB & Hin & Hchildren).
    pose proof HokC as (Hbl & _).
    pose proof (lookup_lt_Some _ _ _ Hk) as Hklt.
    rewrite Hcv in H. simpl in H. rewrite HC in H. simpl in H.
    destruct (isEmpty (heap st) (blocks C)) as [e| |] eqn:He;
      simpl in H; try discriminate.
    destruct e.
    + unfold removeComponent in H. rewrite Hb in H.
      unfold removeComponent_in in H. rewrite Hcv in H. simpl in H.
      rewrite HC in H. simpl in H.
      destruct (parent C) as [| |pb] eqn:Hpar.
      * pose proof (anc_top_inv _ _ _ _ Hanc HC Hpar) as ->.
        rewrite (indexOf_NoDup Nat.eqb c _ k (nat_eqb_iff c) Hnd Hk) in H.
        destruct (Z.eqb_spec (Z.of_nat k) (-1)) as [E|_]; [lia|].
        rewrite splice_remove_nat in H by lia.
        injection H as <-. split; [exact Hok|]. unfold cursor_ok. fields.
        split; [eauto using sublist_NoDup, sublist_delete|]. split.
        -- intros t Ht. apply Htops. eapply list_elem_of_delete_inv, Ht.
        -- split; [reflexivity|]. split; [reflexivity|]. exists k.
           rewrite length_delete by eauto. split; [lia | side].
      * destruct HokC as (_ & _ & _ & HparC). now rewrite Hpar in HparC.
      * destruct (anc_step_inv _ _ _ _ _ Hanc HC Hpar)
          as (PB & c' & C' & HPB & HinPB & HpPB & HC' & Hleaf' & Hlt1 & Hlt2 & Hanc').
        apply list_elem_of_lookup_1 in HinPB as (m & Hm).
        destruct (store_ok_block _ _ _ Hok HPB) as (HndPB & _).
        pose proof (lookup_lt_Some _ _ _ Hm) as Hmlt.
        simpl in H. rewrite HPB in H. simpl in H.
        rewrite (indexOf_NoDup child_eqb (CRef c) _ m (child_eqb_iff c) HndPB Hm) in H.
        destruct (Z.eqb_spec (Z.of_nat m) (-1)) as [E|_]; [lia|].
        unfold Block_removeChild in H. rewrite splice_remove_nat in H by lia.
        injection H as <-.
        set (PB' := {| children := delete m (children PB);
                       block_parent := block_parent PB |}).
        assert (Hsk : skel (heap st) (<[pb := OBlock PB']> (heap st)))
          by now apply (skel_upd _ pb PB PB').
        split; [now apply store_ok_delete_child|].
        split; [exact Hnd|]. split; [now apply (tops_ok_skel (heap st))|]. fields.
        apply (inside_intro _ _ _ PB' c' C' t m k); auto.
        -- apply list_lookup_insert_eq. now apply lookup_lt_Some in HPB.
        -- now apply Hsk.
        -- simpl. rewrite length_delete by eauto. lia.
        -- apply (anc_upd _ pb PB PB'); auto.
    + destruct (Z.leb_spec (child st) (-1)) as [Hle|Hgt].
      * simpl in H. rewrite Hbl, indexOf_seq in H by lia.
        destruct (Z.eqb_spec (Z.of_nat (b - S c)) 0) as [E|E];
          [now injection H as <-|].
        replace (Z.of_nat (b - S c) - 1) with (Z.of_nat (b - S c - 1)) in H by lia.
        rewrite js_at_nat, lookup_seq_lt in H by lia. simpl in H.
        destruct (comp_ok_block _ c (b - S c - 1) C HokC ltac:(lia))
          as (PBk & HPBk & HpPBk).
        simpl in HPBk. rewrite HPBk in H. simpl in H. injection H as <-.
        apply (inv_move_inside st); [exact Hinv|].
        apply (inside_intro _ _ _ PBk c C t (length (children PBk)) k); auto.
      * destruct i as [|i]; [rewrite Hch in Hgt; unfold before in Hgt; lia|].
        simpl in H. rewrite HB in H. simpl in H.
        rewrite Hch, floor2_before in H.
        replace (Z.of_nat (S i) - 1) with (Z.of_nat i) in H by lia.
        unfold Block_removeChild in H. rewrite splice_remove_nat in H by lia.
        injection H as <-.
        set (B' := {| children := delete i (children B);
                      block_parent := block_parent B |}).
        assert (Hsk : skel (heap st) (<[b := OBlock B']> (heap st)))
          by now apply (skel_upd _ b B B').
        split; [now apply store_ok_delete_child|].
        split; [exact Hnd|]. split; [now apply (tops_ok_skel (heap st))|]. fields.
        apply (inside_intro _ _ _ B' c C t i k); auto.
        -- apply list_lookup_insert_eq. now apply lookup_lt_Some in HB.
        -- now apply Hsk.
        -- simpl. rewrite length_delete by (apply lookup_lt_is_Some_2; lia). lia.
        -- side.
        -- apply (anc_upd _ b B B'); auto. lia.
Qed.

Lemma inv_init : inv init.
Proof.
  split; [intros x o Hx; discriminate|].
  split; [constructor|]. split; [intros t Ht; inversion Ht|].
  simpl. split; [reflexivity|]. split; [reflexivity|]. now exists 0%nat.
Qed.

(** Every state reached by operations whose matrices have cells satisfies
    the invariant. *)
Lemma inv_reachable (st : state) : reachable_by with_cells st -> inv st.
Proof.
  induction 1 as [|st st' o _ IH Ho Hrun]; [apply inv_init|].
  destruct o; simpl in Hrun;
    eauto using inv_addText, inv_insert, inv_backspace,
                inv_seekLeft, inv_seekRight.
Qed.

(** * Serialisation returns *)

Lemma template_index (k : cls) (i : nat) :
  Blk i ∈ template k -> (i < arity k)%nat.
Proof.
  destruct k; simpl; intros H;
    repeat (apply elem_of_cons in H as [H|H]; [try discriminate; injection H as ->; lia|]);
    inversion H.
Qed.

Section total.
Variable rec : ref -> res string.

Lemma concat_children_ok (cs : list child_t) (latex : string) :
  (forall y, CRef y ∈ cs -> exists s, rec y = Ok s) ->
  exists s, concat_children rec cs latex = Ok s.
Proof.
  revert latex. induction cs as [|[s|y] cs IH]; intros latex Hcs; simpl.
  - eauto.
  - apply IH. intros y Hy. apply Hcs. now right.
  - destruct (Hcs y ltac:(now left)) as (s & ->). simpl.
    apply IH. intros z Hz. apply Hcs. now right.
Qed.

Lemma concat_components_ok (cs : list ref) (latex : string) :
  (forall y, y ∈ cs -> exists s, rec y = Ok s) ->
  exists s, concat_components rec cs latex = Ok s.
Proof.
  revert latex. induction cs as [|y cs IH]; intros latex Hcs; simpl.
  - eauto.
  - destruct (Hcs y ltac:(now left)) as (s & ->). simpl.
    apply IH. intros z Hz. apply Hcs. now right.
Qed.

Lemma fill_ok (bs : list ref) (t : list piece) :
  (forall i, Blk i ∈ t -> exists b s, bs !! i = Some b /\ rec b = Ok s) ->
  exists s, fill rec bs t = Ok s.
Proof.
  induction t as [|[s|i] t IH]; intros Ht; simpl.
  - eauto.
  - destruct IH as (r & ->); [intros i Hi; apply Ht; now right|]. simpl. eauto.
  - destruct (Ht i ltac:(now left)) as (b & s & -> & ->). simpl.
    destruct IH as (r & ->); [intros j Hj; apply Ht; now right|]. simpl. eauto.
Qed.

Lemma all_ok_cells (bs : list ref) :
  (forall b, b ∈ bs -> exists s, rec b = Ok s) ->
  exists cells, Forall2 (fun b m => rec b = Ok m) bs cells.
Proof.
  induction bs as [|b bs IH]; intros Hbs.
  - exists []. constructor.
  - destruct (Hbs b ltac:(now left)) as (s & Hs).
    destruct IH as (cells & Hcells); [intros z Hz; apply Hbs; now right|].
    exists (s :: cells). now constructor.
Qed.

Lemma Component_toLatex_ok (C : Component) :
  length (blocks C) = arity (class C) ->
  (forall b, b ∈ blocks C -> exists s, rec b = Ok s) ->
  exists s, Component_toLatex rec C = Ok s.
Proof.
  intros Hlen Hbs. unfold Component_toLatex.
  assert (Hfill : exists s, fill rec (blocks C) (template (class C)) = Ok s).
  { apply fill_ok. intros i Hi. apply template_index in Hi.
    destruct (lookup_lt_is_Some_2 (blocks C) i ltac:(lia)) as (b & Hb).
    destruct (Hbs b ltac:(eapply list_elem_of_lookup_2; eauto)) as (s & Hs).
    eauto. }
  destruct (class C) eqn:Hk; try exact Hfill.
  destruct (all_ok_cells (blocks C) Hbs) as (cells & Hcells).
  eexists. eapply Matrix_toLatex_spec; eauto.
Qed.

Lemma Block_toLatex_ok (h : store) (B : Block) :
  (children B = [] -> exists p, block_parent B = Ref p /\ is_Some (h !! p)) ->
  (forall y, CRef y ∈ children B -> exists s, rec y = Ok s) ->
  exists s, Block_toLatex rec h B = Ok s.
Proof.
  intros Hpar Hcs. unfold Block_toLatex.
  destruct (children B) as [|ch cs] eqn:Hch.
  - destruct (Hpar eq_refl) as (p & -> & [o Ho]). rewrite Ho.
    destruct o; eauto.
  - destruct (concat_children_ok (ch :: cs) "" Hcs) as (s & ->). simpl. eauto.
Qed.
End total.

(** Serialisation of a ranked store returns, given fuel for the ranks
    above the object. *)
Lemma render_total (h : store) (m : ref -> nat) (N : nat) :
  ranked h m N ->
  forall fuel x, is_Some (h !! x) -> (N - m x <= fuel)%nat ->
    exists s, render fuel h x = Ok s.
Proof.
  intros Hr. induction fuel as [|fuel IH]; intros x [o Ho] Hfuel.
  - destruct (Hr x o Ho) as (Hlt & _). lia.
  - rewrite render_S, Ho. destruct (Hr x o Ho) as (Hlt & Ho').
    destruct o as [B|C]; simpl.
    + destruct Ho' as (Hpar & Hch). apply Block_toLatex_ok; [exact Hpar|].
      intros y Hy. destruct (Hch y Hy) as (Hy' & Hrank). apply IH; [exact Hy'|lia].
    + destruct Ho' as (Hlen & Hbs). apply Component_toLatex_ok; [exact Hlen|].
      intros b Hb. destruct (Hbs b Hb) as (Hb' & Hrank). apply IH; [exact Hb'|lia].
Qed.

Lemma Expression_toLatex_total (h : store) (m : ref -> nat) (N : nat)
    (comps : list ref) (fuel : nat) :
  ranked h m N -> (N <= fuel)%nat ->
  (forall c, c ∈ comps -> is_Some (h !! c)) ->
  exists s, Expression_toLatex fuel h comps = Ok s.
Proof.
  intros Hr Hfuel Hcomps. unfold Expression_toLatex.
  destruct (concat_components_ok (render fuel h) comps "") as (s & ->).
  - intros c Hc. apply (render_total h m N Hr); [now apply Hcomps | lia].
  - simpl. eauto.
Qed.

(** ** Serialisation depends on the objects it reaches only *)

Section ext.
Variables rec1 rec2 : ref -> res string.

Lemma concat_children_ext (cs : list child_t) (latex : string) :
  (forall y, CRef y ∈ cs -> rec1 y = rec2 y) ->
  concat_children rec1 cs latex = concat_children rec2 cs latex.
Proof.
  revert latex. induction cs as [|[s|y] cs IH]; intros latex Hcs; simpl.
  - reflexivity.
  - apply IH. intros y Hy. apply Hcs. now right.
  - rewrite (Hcs y) by now left. destruct (rec2 y); simpl; try reflexivity.
    apply IH. intros z Hz. apply Hcs. now right.
Qed.

Lemma concat_components_ext (cs : list ref) (latex : string) :
  (forall y, y ∈ cs -> rec1 y = rec2 y) ->
  concat_components rec1 cs latex = concat_components rec2 cs latex.
Proof.
  revert latex. induction cs as [|y cs IH]; intros latex Hcs; simpl.
  - reflexivity.
  - rewrite (Hcs y) by now left. destruct (rec2 y); simpl; try reflexivity.
    apply IH. intros z Hz. apply Hcs. now right.
Qed.

Variable bs : list ref.
Hypothesis Hbs : forall b, b ∈ bs -> rec1 b = rec2 b.

Lemma fill_ext (t : list piece) : fill rec1 bs t = fill rec2 bs t.
Proof.
  induction t as [|[s|i] t IH]; simpl.
  - reflexivity.
  - now rewrite IH.
  - destruct (bs !! i) as [b|] eqn:Hb; [|reflexivity].
    rewrite (Hbs b) by (eapply list_elem_of_lookup_2; eauto).
    now rewrite IH.
Qed.

Lemma matrix_row_ext (rows cols i n : nat) (output : string) :
  matrix_row rec1 bs rows cols i n output
  = matrix_row rec2 bs rows cols i n output.
Proof.
  revert output. induction n as [|n IH]; intros output; simpl; [reflexivity|].
  destruct (bs !! _) as [b|] eqn:Hb; [|reflexivity].
  rewrite (Hbs b) by (eapply list_elem_of_lookup_2; eauto).
  destruct (rec2 b); simpl; try reflexivity. apply IH.
Qed.

Lemma matrix_rows_ext (rows cols n : nat) (output : string) :
  matrix_rows rec1 bs rows cols n output
  = matrix_rows rec2 bs rows cols n output.
Proof.
  revert output. induction n as [|n IH]; intros output; simpl; [reflexivity|].
  rewrite matrix_row_ext.
  destruct (matrix_row rec2 bs rows cols _ cols output); simpl; try reflexivity.
  apply IH.
Qed.
End ext.

Lemma Component_toLatex_ext (rec1 rec2 : ref -> res string) (C : Component) :
  (forall b, b ∈ blocks C -> rec1 b = rec2 b) ->
  Component_toLatex rec1 C = Component_toLatex rec2 C.
Proof.
  intros Hbs. unfold Component_toLatex.
  destruct (class C); try (now apply fill_ext).
  unfold Matrix_toLatex. now rewrite (matrix_rows_ext rec1 rec2 (blocks C) Hbs).
Qed.

(** A store that has every object of a ranked store serialises these
    objects to the same text. *)
Lemma render_agree (h h' : store) (m : ref -> nat) (N : nat) :
  ranked h m N ->
  (forall x o, h !! x = Some o -> h' !! x = Some o) ->
  forall fuel x, is_Some (h !! x) -> render fuel h' x = render fuel h x.
Proof.
  intros Hr Hext. induction fuel as [|fuel IH]; intros x [o Ho]; [reflexivity|].
  rewrite !render_S, Ho, (Hext x o Ho).
  destruct (Hr x o Ho) as (_ & Ho'). destruct o as [B|C]; simpl.
  - destruct Ho' as (Hpar & Hch). unfold Block_toLatex.
    destruct (children B) as [|ch cs] eqn:Hcs.
    + destruct (Hpar eq_refl) as (p & -> & [o Hp]). now rewrite Hp, (Hext p o Hp).
    + rewrite (concat_children_ext (render fuel h') (render fuel h)); [reflexivity|].
      intros y Hy. apply IH. now apply Hch.
  - destruct Ho' as (_ & Hbs). apply Component_toLatex_ext.
    intros b Hb. apply IH. now apply Hbs.
Qed.

Lemma Expression_toLatex_agree (h h' : store) (m : ref -> nat) (N : nat)
    (comps : list ref) (fuel : nat) :
  ranked h m N ->
  (forall x o, h !! x = Some o -> h' !! x = Some o) ->
  (forall c, c ∈ comps -> is_Some (h !! c)) ->
  Expression_toLatex fuel h' comps = Expression_toLatex fuel h comps.
Proof.
  intros Hr Hext Hcomps. unfold Expression_toLatex.
  rewrite (concat_components_ext (render fuel h') (render fuel h)); [reflexivity|].
  intros c Hc. eapply render_agree; eauto.
Qed.

(** A well-formed store is ranked by the references themselves. *)
Lemma ranked_store_ok (h : store) : store_ok h -> ranked h id (length h).
Proof.
  intros Hok x o Ho. split; [now apply lookup_lt_Some in Ho|].
  pose proof (Hok x o Ho) as Hx. destruct o as [B|C]; simpl in *.
  - destruct Hx as (_ & c & C & Hp & HC & _ & Hch & Hstr). split; [eauto|].
    intros y Hy. destruct (is_leaf_cls (class C)) eqn:Hleaf.
    + destruct (Hstr eq_refl _ Hy) as (s & [=]).
    + destruct (Hch eq_refl _ Hy) as (y' & Y & [= <-] & HY & HpY).
      split; [eauto|]. destruct (Hok y _ HY) as (_ & _ & _ & Hpar).
      rewrite HpY in Hpar. lia.
  - destruct Hx as (Hbl & Hown & _). split; [now rewrite Hbl, length_seq|].
    intros b Hb. destruct (Hown b Hb) as (B & HB & _). split; [eauto|].
    rewrite Hbl in Hb. apply elem_of_seq in Hb. unfold id. lia.
Qed.

(** * The caret markup *)

Section splice.
Context {A : Type}.
Implicit Types (l : list A) (x : A) (i j : nat).

Lemma splice_remove_add l i x :
  (i <= length l)%nat ->
  splice_remove (splice_add l (Z.of_nat i) x) (Z.of_nat i) = l.
Proof.
  intros Hi. rewrite splice_add_nat by exact Hi.
  rewrite splice_remove_nat by (rewrite length_insert_middle; lia).
  rewrite delete_take_drop.
  rewrite take_app_length' by (rewrite length_take; lia).
  rewrite cons_middle, app_assoc.
  rewrite drop_app_length' by (rewrite length_app, length_take; simpl; lia).
  apply take_drop.
Qed.

Lemma splice_replace l j x :
  (j < length l)%nat ->
  splice_add (splice_remove l (Z.of_nat j)) (Z.of_nat j) x = <[j := x]> l.
Proof.
  intros Hj. rewrite splice_remove_nat by lia.
  rewrite splice_add_nat by (rewrite length_delete by (apply lookup_lt_is_Some_2; lia); lia).
  rewrite delete_take_drop.
  rewrite take_app_length' by (rewrite length_take; lia).
  rewrite drop_app_length' by (rewrite length_take; lia).
  symmetry. apply insert_take_drop. exact Hj.
Qed.
End splice.

Lemma indexOf_insert_fresh (l : list ref) (j f : nat) :
  (j < length l)%nat -> f ∉ l ->
  indexOf Nat.eqb (<[j := f]> l) f = Z.of_nat j.
Proof.
  intros Hj Hf. unfold indexOf.
  rewrite (indexOf_from_found Nat.eqb f _ j 0 (nat_eqb_iff f)); [lia | |].
  - now apply list_lookup_insert_eq.
  - intros k Hk Hx. rewrite list_lookup_insert_ne in Hx by lia.
    apply Hf. eapply list_elem_of_lookup_2; eauto.
Qed.

Lemma Component_eta (C : Component) :
  {| class := class C; blocks := blocks C; parent := parent C; color := color C |}
  = C.
Proof. now destruct C. Qed.

Lemma Block_eta (B : Block) :
  {| children := children B; block_parent := block_parent B |} = B.
Proof. now destruct B. Qed.

Lemma toDisplayLatex_top (st : state) (fuel : nat) :
  inv st -> block st = Null -> (length (heap st) + 4 <= fuel)%nat ->
  exists d st', toDisplayLatex fuel st = Ok (d, st') /\ same_document st st'.
Proof.
  intros (Hok & Hnd & Htops & Hcur) Hb Hfuel.
  rewrite Hb in Hcur. destruct Hcur as (Hc & Hch & i & Hi & Hp).
  unfold toDisplayLatex. rewrite Hb.
  pose proof (store_ok_new_text Null "|" (heap st) Hok I) as Hok1.
  destruct (new_text Null "|" (heap st)) as [n h1] eqn:Hnew1.
  simpl in Hok1.
  pose proof (store_ok_new_component FrameBox Null "" h1 Hok1
                ltac:(simpl; lia) I) as Hok2.
  destruct (new_component FrameBox Null "" h1) as [f h2] eqn:Hnew2.
  simpl in Hok2.
  rewrite new_text_eq in Hnew1. injection Hnew1 as <- <-.
  unfold new_component in Hnew2. injection Hnew2 as <- <-.
  set (h2 := (heap st ++ _) ++ _) in *.
  assert (Hlen2 : length h2 = (length (heap st) + 4)%nat).
  { unfold h2. rewrite !length_app. simpl. lia. }
  assert (Hext : forall x o, heap st !! x = Some o -> h2 !! x = Some o).
  { intros x o Hx. unfold h2. now do 2 apply lookup_app_l_Some. }
  unfold toLatex, set_components, set_heap. fields.
  rewrite Hp, ceil2_before, splice_add_nat by exact Hi.
  destruct (Expression_toLatex_total h2 id (length h2)
              (take i (components st) ++ length (heap st) :: drop i (components st))
              fuel (ranked_store_ok h2 Hok2) ltac:(lia)) as (d & Hd).
  { intros c Hin. apply lookup_lt_is_Some_2.
    apply elem_of_insert_middle in Hin as [->|Hin]; [lia|].
    apply (tops_ok_lt _ _ _ Htops) in Hin. lia. }
  rewrite Hd. simpl. eexists _, _. split; [reflexivity|].
  unfold same_document. fields. rewrite ?Hp, ?ceil2_before.
  rewrite <- (splice_add_nat (components st) i) by exact Hi.
  rewrite splice_remove_add by exact Hi.
  repeat split; auto.
Qed.

Lemma bind_ok_l {A B} (a : A) (f : A -> res B) : Ok a ≫= f = f a.
Proof. reflexivity. Qed.

Lemma get_comp_Ref (h : store) (c : ref) (C : Component) :
  h !! c = Some (OComp C) -> get_comp h (Ref c) = Ok (c, C).
Proof. intros H. unfold get_comp. now rewrite H. Qed.

Lemma get_block_Ref (h : store) (b : ref) (B : Block) :
  h !! b = Some (OBlock B) -> get_block h (Ref b) = Ok (b, B).
Proof. intros H. unfold get_block. now rewrite H. Qed.

(** The store after the caret and the frame have been constructed. *)
Lemma display_alloc (par : jsref) (h h1 h2 : store) (n f : ref) :
  new_text par "|" h = (n, h1) ->
  new_component FrameBox par "" h1 = (f, h2) ->
  n = length h /\ f = (length h + 2)%nat
  /\ length h2 = (length h + 4)%nat
  /\ (forall x o, h !! x = Some o -> h2 !! x = Some o)
  /\ h2 !! n
     = Some (OComp {| class := TextComponent; blocks := [S n];
                      parent := match par with Undefined => Null | p => p end;
                      color := None |})
  /\ h2 !! S n = Some (OBlock {| children := [CStr "|"]; block_parent := Ref n |})
  /\ h2 !! f
     = Some (OComp {| class := FrameBox; blocks := [S f];
                      parent := match par with Undefined => Null | p => p end;
                      color := None |})
  /\ h2 !! S f = Some (OBlock {| children := []; block_parent := Ref f |}).
Proof.
  rewrite new_text_eq. intros [= <- <-].
  unfold new_component. intros [= <- <-].
  rewrite !length_app. simpl.
  split; [reflexivity|]. split; [lia|]. split; [lia|]. split.
  { intros x o Hx. now do 2 apply lookup_app_l_Some. }
  rewrite <- !app_assoc. simpl.
  repeat split.
  - rewrite lookup_app_r by lia. now rewrite Nat.sub_diag.
  - rewrite lookup_app_r by lia.
    now replace (S (length h) - length h)%nat with 1%nat by lia.
  - rewrite lookup_app_r by lia.
    now replace (length h + 2 - length h)%nat with 2%nat by lia.
  - rewrite lookup_app_r by lia.
    now replace (S (length h + 2) - length h)%nat with 3%nat by lia.
Qed.
Lemma replace_block_insert (C : Component) (j : nat) (x : ref) :
  (j < length (blocks C))%nat ->
  replace_block C (Z.of_nat j) x
  = {| class := class C; blocks := <[j := x]> (blocks C);
       parent := parent C; color := color C |}.
Proof. intros Hj. unfold replace_block. now rewrite splice_replace. Qed.

Section display_store.
Variables (h h2 : store) (b c i : nat) (B : Block) (C : Component).
Hypothesis Hok : store_ok h.
Hypothesis HB : h !! b = Some (OBlock B).
Hypothesis HpB : block_parent B = Ref c.
Hypothesis HC : h !! c = Some (OComp C).
Hypothesis Hin : (S c <= b < S c + arity (class C))%nat.
Hypothesis Hbl : blocks C = seq (S c) (arity (class C)).
Hypothesis Hlen2 : length h2 = (length h + 4)%nat.
Hypothesis Hext : forall x o, h !! x = Some o -> h2 !! x = Some o.
Hypothesis HK :
  h2 !! length h
  = Some (OComp {| class := TextComponent; blocks := [S (length h)];
                   parent := Ref b; color := None |}).
Hypothesis HKB :
  h2 !! S (length h)
  = Some (OBlock {| children := [CStr "|"]; block_parent := Ref (length h) |}).
Hypothesis HF :
  h2 !! (length h + 2)%nat
  = Some (OComp {| class := FrameBox; blocks := [S (length h + 2)];
                   parent := Ref b; color := None |}).
Hypothesis HFB :
  h2 !! S (length h + 2)
  = Some (OBlock {| children := []; block_parent := Ref (length h + 2) |}).

Lemma display_ranked :
  ranked
    (<[b := OBlock {| children := take i (children B)
                                  ++ CRef (length h) :: drop i (children B);
                      block_parent := block_parent B |}]>
       (<[(length h + 2)%nat := OComp {| class := FrameBox; blocks := [b];
                                         parent := Ref b; color := None |}]>
          (<[c := OComp {| class := class C;
                           blocks := <[(b - S c)%nat := (length h + 2)%nat]> (blocks C);
                           parent := parent C; color := color C |}]> h2)))
    (display_rank (length h + 2) b) (2 * (length h + 4)).
Proof.
  pose proof (ranked_store_ok h Hok) as Hr.
  pose proof (lookup_lt_Some _ _ _ HB) as Hblt.
  pose proof (lookup_lt_Some _ _ _ HC) as Hclt.
  set (n := length h) in *.
  set (h5 := <[b := _]> _).
  assert (Hlen5 : length h5 = (n + 4)%nat)
    by (unfold h5; now rewrite !length_insert).
  assert (Hsome : forall y, (y < n + 4)%nat -> is_Some (h5 !! y))
    by (intros y Hy; apply lookup_lt_is_Some_2; lia).
  assert (Hold : forall y, is_Some (h !! y) -> (y < n)%nat)
    by (intros y [o Hy]; now apply lookup_lt_Some in Hy).
  intros x o Hx. unfold h5 in Hx.
  apply list_lookup_insert_Some in Hx as [(<- & <- & _)|(Hxb & Hx)].
  { (* the current block, with the caret *)
    split; [unfold display_rank; case_decide; lia|]. simpl. split.
    - intros Hnil. apply (f_equal length) in Hnil.
      rewrite length_insert_middle in Hnil. discriminate.
    - intros y Hy. apply elem_of_insert_middle in Hy as [Hy|Hy].
      + injection Hy as ->. split; [apply Hsome; lia|]. unfold display_rank. repeat case_decide; lia.
      + destruct (Hr b _ HB) as (_ & _ & Hch). destruct (Hch y Hy) as (Hy' & Hlt).
        apply Hold in Hy'. split; [apply Hsome; lia|].
        unfold display_rank, id in *. repeat case_decide; lia. }
  apply list_lookup_insert_Some in Hx as [(<- & <- & _)|(Hxf & Hx)].
  { (* the frame *)
    split; [unfold display_rank; case_decide; lia|]. simpl.
    split; [reflexivity|]. intros y Hy. apply list_elem_of_singleton in Hy as ->.
    split; [apply Hsome; lia|]. unfold display_rank. repeat case_decide; lia. }
  apply list_lookup_insert_Some in Hx as [(<- & <- & _)|(Hxc & Hx)].
  { (* the current component, with the frame in place of the block *)
    split; [unfold display_rank; case_decide; lia|]. simpl.
    destruct (Hr c _ HC) as (_ & Hlen & Hbs).
    split; [now rewrite length_insert|].
    intros y Hy. apply list_elem_of_lookup_1 in Hy as (m & Hm).
    apply list_lookup_insert_Some in Hm as [(_ & <- & _)|(_ & Hm)].
    - split; [apply Hsome; lia|]. unfold display_rank. repeat case_decide; lia.
    - destruct (Hbs y ltac:(eapply list_elem_of_lookup_2; eauto)) as (Hy' & Hlt).
      apply Hold in Hy'. split; [apply Hsome; lia|].
      unfold display_rank, id in *. repeat case_decide; lia. }
  pose proof (lookup_lt_Some _ _ _ Hx) as Hxlt. rewrite Hlen2 in Hxlt.
  destruct (decide (x < n)%nat) as [Hlt|Hge].
  { (* an object of the document *)
    destruct (lookup_lt_is_Some_2 h x Hlt) as (o' & Ho').
    rewrite (Hext x o' Ho') in Hx. injection Hx as <-.
    destruct (Hr x o' Ho') as (_ & Ho).
    split; [unfold display_rank; case_decide; lia|].
    destruct o' as [B0|C0]; simpl in *.
    - destruct Ho as (Hpar & Hch). split.
      + intros Hnil. destruct (Hpar Hnil) as (p & Hp & Hp').
        exists p. split; [exact Hp|]. apply Hold in Hp'. apply Hsome. lia.
      + intros y Hy. destruct (Hch y Hy) as (Hy' & Hlt').
        apply Hold in Hy'. split; [apply Hsome; lia|].
        unfold display_rank, id in *. repeat case_decide; lia.
    - destruct Ho as (Hlen & Hbs). split; [exact Hlen|].
      intros y Hy. destruct (Hbs y Hy) as (Hy' & Hlt').
      apply Hold in Hy'. split; [apply Hsome; lia|].
      unfold display_rank, id in *. repeat case_decide; lia. }
  assert (Hcases : x = n \/ x = S n \/ x = S (n + 2)) by lia.
  destruct Hcases as [-> | [-> | ->]].
  - rewrite HK in Hx. injection Hx as <-.
    split; [unfold display_rank; case_decide; lia|]. simpl.
    split; [reflexivity|]. intros y Hy. apply list_elem_of_singleton in Hy as ->.
    split; [apply Hsome; lia|]. unfold display_rank. repeat case_decide; lia.
  - rewrite HKB in Hx. injection Hx as <-.
    split; [unfold display_rank; case_decide; lia|]. simpl.
    split; [discriminate|]. intros y Hy.
    apply list_elem_of_singleton in Hy. discriminate.
  - rewrite HFB in Hx. injection Hx as <-.
    split; [unfold display_rank; case_decide; lia|]. simpl. split.
    + intros _. eexists. split; [reflexivity|]. apply Hsome. lia.
    + intros y Hy. inversion Hy.
Qed.
End display_store.
Lemma toDisplayLatex_inside (st : state) (fuel : nat) (b : ref) :
  inv st -> block st = Ref b -> (2 * (length (heap st) + 4) <= fuel)%nat ->
  exists d st', toDisplayLatex fuel st = Ok (d, st') /\ same_document st st'.
Proof.
  intros (Hok & Hnd & Htops & Hcur) Hb Hfuel.
  rewrite Hb in Hcur.
  destruct (inside_facts _ _ _ _ _ _ Hok Hcur)
    as (B & c & C & t & i & k & HB & HpB & Hcv & HC & Hleaf & Hi & Hch
        & Hanc & Hk & Hpos & HokC & HndB & Hin & Hchildren).
  pose proof HokC as (Hbl & _).
  unfold toDisplayLatex. rewrite Hb.
  destruct (new_text (Ref b) "|" (heap st)) as [n h1] eqn:Hnew1.
  destruct (new_component FrameBox (Ref b) "" h1) as [f h2] eqn:Hnew2.
  destruct (display_alloc _ _ _ _ _ _ Hnew1 Hnew2)
    as (-> & -> & Hlen2 & Hext & HK & HKB & HF & HFB).
  clear Hnew1 Hnew2 h1.
  pose proof (lookup_lt_Some _ _ _ HB) as Hblt.
  pose proof (lookup_lt_Some _ _ _ HC) as Hclt.
  assert (Hjlt : (b - S c < length (blocks C))%nat) by (rewrite Hbl, length_seq; lia).
  assert (Hbj : blocks C !! (b - S c)%nat = Some b).
  { rewrite Hbl, lookup_seq_lt by lia. f_equal. lia. }
  rewrite Hcv, (get_comp_Ref _ _ _ (Hext _ _ HC)), bind_ok_l.
  rewrite (get_block_Ref _ _ _ (Hext _ _ HB)), bind_ok_l.
  rewrite (get_comp_Ref _ _ _ HF), bind_ok_l.
  cbv beta iota.
  assert (Hj : index_of_block (blocks C) (Ref b) = Z.of_nat (b - S c)).
  { simpl. rewrite Hbl. apply indexOf_seq. lia. }
  rewrite Hj, replace_block_insert by exact Hjlt.
  unfold set_block0. cbn [blocks class parent color].
  change (<[0%nat := b]> [S (length (heap st) + 2)]) with [b].
  unfold Block_addChild. rewrite Hch, ceil2_before, splice_add_nat by exact Hi.
  pose proof (display_ranked (heap st) h2 b c i B C Hok HB HC Hin Hlen2 Hext
                HK HKB HFB) as Hr5.
  set (C1 := {| class := class C; blocks := <[(b - S c)%nat := _]> (blocks C);
                parent := parent C; color := color C |}) in *.
  set (F1 := {| class := FrameBox; blocks := [b]; parent := Ref b; color := None |}) in *.
  set (B5 := {| children := take i (children B) ++ _ :: drop i (children B);
                block_parent := block_parent B |}) in *.
  set (h5 := <[b := OBlock B5]> _) in *.
  assert (Hlen5 : length h5 = (length (heap st) + 4)%nat)
    by (unfold h5; now rewrite !length_insert).
  unfold toLatex, set_heap. fields.
  destruct (Expression_toLatex_total h5 _ _ (components st) fuel Hr5 Hfuel)
    as (d & Hd).
  { intros x Hx. apply lookup_lt_is_Some_2.
    apply (tops_ok_lt _ _ _ Htops) in Hx. lia. }
  rewrite Hd, !bind_ok_l. cbv beta iota. fields.
  assert (HC5 : h5 !! c = Some (OComp C1)).
  { unfold h5. do 2 rewrite list_lookup_insert_ne by lia.
    apply list_lookup_insert_eq. lia. }
  rewrite Hcv, (get_comp_Ref _ _ _ HC5), bind_ok_l. cbv beta iota.
  assert (Hfresh : (length (heap st) + 2)%nat ∉ blocks C).
  { intros Hx. destruct HokC as (_ & Hown & _).
    destruct (Hown _ Hx) as (X & HX & _). apply lookup_lt_Some in HX. lia. }
  assert (HrepC : replace_block C1
                    (indexOf Nat.eqb (blocks C1) (length (heap st) + 2)%nat) b
                  = C).
  { unfold C1. cbn [blocks].
    rewrite indexOf_insert_fresh by assumption.
    rewrite replace_block_insert by (cbn [blocks]; now rewrite length_insert).
    cbn [blocks class parent color].
    now rewrite list_insert_insert_eq, (list_insert_id _ _ _ Hbj), Component_eta. }
  rewrite !HrepC.
  assert (HB6 : <[c := OComp C]> h5 !! b = Some (OBlock B5)).
  { rewrite list_lookup_insert_ne by lia. unfold h5.
    apply list_lookup_insert_eq. rewrite !length_insert. lia. }
  rewrite Hb, (get_block_Ref _ _ _ HB6), bind_ok_l. cbv beta iota.
  assert (HremB : Block_removeChild B5 (ceil2 (child st)) = B).
  { unfold Block_removeChild, B5. cbn [children block_parent].
    rewrite Hch, ceil2_before.
    rewrite <- (splice_add_nat (children B) i) by exact Hi.
    rewrite splice_remove_add by exact Hi. apply Block_eta. }
  rewrite HremB.
  eexists _, _. split; [reflexivity|].
  unfold same_document. fields. repeat split; auto.
  intros x o Hx. pose proof (lookup_lt_Some _ _ _ Hx) as Hxlt.
  destruct (decide (x = b)) as [->|Hxb].
  { rewrite list_lookup_insert_eq by (rewrite length_insert; lia). congruence. }
  rewrite list_lookup_insert_ne by congruence.
  destruct (decide (x = c)) as [->|Hxc].
  { rewrite list_lookup_insert_eq by lia. congruence. }
  rewrite list_lookup_insert_ne by congruence.
  unfold h5. do 3 rewrite list_lookup_insert_ne by (congruence || lia).
  now apply Hext.
Qed.

(** * Navigation symmetry *)

Lemma seekRight_tree (st st' : state) :
  seekRight st = Ok st' ->
  heap st' = heap st /\ components st' = components st.
Proof. intros H. unfold seekRight in H. inv_ok H; subst; auto. Qed.

Lemma seekLeft_tree (st st' : state) :
  seekLeft st = Ok st' ->
  heap st' = heap st /\ components st' = components st.
Proof. intros H. unfold seekLeft in H. inv_ok H; subst; auto. Qed.

(** C2, as amended: in every reachable state, when [seekRight] can move
    (the cursor is left of the end of the document) it returns and a
    following [seekLeft] restores the state it started from, address
    included; when [seekLeft] can move (the cursor is right of the start)
    a following [seekRight] restores it.  At a document boundary it is the
    first call that does nothing.  Neither call touches the store or the
    expression. *)
Theorem seek_symmetry (st : state) :
  reachable_by with_cells st ->
  (position st < before (Z.of_nat (length (components st))) ->
   exists st1, seekRight st = Ok st1 /\ seekLeft st1 = Ok st)
  /\ (-1 < position st ->
      exists st1, seekLeft st = Ok st1 /\ seekRight st1 = Ok st)
  /\ (before (Z.of_nat (length (components st))) <= position st ->
      seekRight st = Ok st)
  /\ (position st <= -1 -> seekLeft st = Ok st)
  /\ (forall st', seekRight st = Ok st' \/ seekLeft st = Ok st' ->
        heap st' = heap st /\ components st' = components st).
Proof.
  intros Hst. apply inv_reachable in Hst.
  split; [|split; [|split; [|split]]].
  - intros Hlt. destruct (seekRight_seekLeft st Hst Hlt) as (st1 & H1 & H2 & _).
    eauto.
  - intros Hgt. destruct (seekLeft_seekRight st Hst Hgt) as (st1 & H1 & H2 & _).
    eauto.
  - apply seekRight_end.
  - apply seekLeft_start.
  - intros st' [H|H]; [now apply seekRight_tree | now apply seekLeft_tree].
Qed.

Lemma seek_symmetry_witness :
  (exists st1, seekRight nested_sqrt_state = Ok st1
               /\ seekLeft st1 = Ok nested_sqrt_state)
  /\ (exists st1, seekLeft nested_sqrt_state = Ok st1
                  /\ seekRight st1 = Ok nested_sqrt_state).
Proof.
  destruct (seek_symmetry nested_sqrt_state reachable_nested_sqrt)
    as (H1 & H2 & _).
  split; [apply H1 | apply H2]; vm_compute; reflexivity.
Defined.

(** C2 as stated fails at the end of the document: with the letter a
    typed, the cursor rests at 0.5; [seekRight] does nothing there, the
    following [seekLeft] is not a no-op and leaves the cursor at -0.5. *)
Lemma seek_symmetry_fails_at_end :
  reachable_by with_cells one_letter_state
  /\ position one_letter_state = before 1
  /\ seekRight one_letter_state = Ok one_letter_state
  /\ exists st2,
       seekLeft one_letter_state = Ok st2
       /\ st2 <> one_letter_state
       /\ position st2 = before 0
       /\ position st2 <> position one_letter_state.
Proof.
  split; [exact reachable_one_letter|]. split; [reflexivity|].
  split; [reflexivity|].
  eexists. split; [reflexivity|]. repeat split; discriminate.
Qed.

(** * Caret atomicity *)

(** X19: in every state reached from the initial one by [addText],
    insertion of a component constructed with the current block as parent
    (a matrix that is inserted having a cell), [backspace], [seekLeft] and
    [seekRight], [toDisplayLatex] returns (given fuel for the depth of the
    store) and leaves the document as it was: [toLatex] returns the same
    string before and after the call, every object that was in the store
    is still there unchanged (so every block and every component has the
    parent it had), and the cursor has the expression, block, component,
    child and position it had. *)
Theorem toDisplayLatex_frame (st : state) (fuel : nat) :
  reachable_by with_cells st ->
  (2 * (length (heap st) + 4) <= fuel)%nat ->
  exists (l d : string) (st' s1 s2 : state),
    toLatex fuel st = Ok (l, s1)
    /\ toDisplayLatex fuel st = Ok (d, st')
    /\ toLatex fuel st' = Ok (l, s2)
    /\ (forall x o, heap st !! x = Some o -> heap st' !! x = Some o)
    /\ components st' = components st
    /\ block st' = block st /\ component st' = component st
    /\ child st' = child st /\ position st' = position st.
Proof.
  intros Hst Hfuel. apply inv_reachable in Hst.
  pose proof Hst as (Hok & Hnd & Htops & Hcur).
  pose proof (ranked_store_ok _ Hok) as Hr.
  assert (Hcomps : forall c, c ∈ components st -> is_Some (heap st !! c)).
  { intros c Hc. destruct (Htops c Hc) as (T & HT & _). eauto. }
  destruct (Expression_toLatex_total _ _ _ (components st) fuel Hr
              ltac:(lia) Hcomps) as (l & Hl).
  assert (Hd : exists d st', toDisplayLatex fuel st = Ok (d, st')
                             /\ same_document st st').
  { destruct (block st) as [| |b] eqn:Hb; [|contradiction|].
    - apply toDisplayLatex_top; auto. lia.
    - now apply (toDisplayLatex_inside st fuel b). }
  destruct Hd as (d & st' & Hd & Hcs & Hb' & Hc' & Hch' & Hp' & Hheap).
  exists l, d, st'. eexists _, _.
  split; [unfold toLatex; now rewrite Hl|]. split; [exact Hd|].
  split; [|auto 10].
  unfold toLatex. rewrite Hcs.
  rewrite (Expression_toLatex_agree (heap st) (heap st') id _ _ fuel Hr Hheap Hcomps).
  now rewrite Hl.
Qed.

Lemma toDisplayLatex_frame_witness :
  exists (l d : string) (st' s1 s2 : state),
    toLatex 20 nested_sqrt_state = Ok (l, s1)
    /\ toDisplayLatex 20 nested_sqrt_state = Ok (d, st')
    /\ toLatex 20 st' = Ok (l, s2)
    /\ (forall x o, heap nested_sqrt_state !! x = Some o -> heap st' !! x = Some o)
    /\ components st' = components nested_sqrt_state
    /\ block st' = block nested_sqrt_state
    /\ component st' = component nested_sqrt_state
    /\ child st' = child nested_sqrt_state
    /\ position st' = position nested_sqrt_state.
Proof.
  apply (toDisplayLatex_frame nested_sqrt_state 20 reachable_nested_sqrt).
  simpl. lia.
Defined.


(** * Further properties of the expression, the cursor and the editor *)

(** ** Adding to and removing from the expression *)

Section splice_edges.
Context {A : Type}.
Implicit Types (l : list A) (x : A) (i : Z).

Lemma splice_start_past l i :
  Z.of_nat (length l) <= i -> splice_start l i = length l.
Proof.
  intros Hi. unfold splice_start. destruct (Z.ltb_spec i 0); lia.
Qed.

Lemma splice_start_back l i :
  i < 0 -> splice_start l i = Z.to_nat (Z.of_nat (length l) + i).
Proof.
  intros Hi. unfold splice_start. destruct (Z.ltb_spec i 0); lia.
Qed.

Lemma splice_add_past l i x :
  Z.of_nat (length l) <= i -> splice_add l i x = l ++ [x].
Proof.
  intros Hi. unfold splice_add. rewrite splice_start_past by exact Hi.
  now rewrite firstn_all, drop_all.
Qed.

Lemma splice_remove_past l i :
  Z.of_nat (length l) <= i -> splice_remove l i = l.
Proof.
  intros Hi. unfold splice_remove. rewrite splice_start_past by exact Hi.
  rewrite firstn_all, drop_ge by lia. apply app_nil_r.
Qed.

(** A negative position counts from the end: the element is put before
    the one the position counts to, so the same position then counts to
    the element that was there before. *)
Lemma splice_add_remove_back l i x :
  - Z.of_nat (length l) <= i < 0 ->
  splice_remove (splice_add l i x) i
  = <[Z.to_nat (Z.of_nat (length l) + i) := x]> l.
Proof.
  intros Hi. set (k := Z.to_nat (Z.of_nat (length l) + i)).
  assert (Hk : (k < length l)%nat) by lia.
  unfold splice_add. rewrite splice_start_back by lia. fold k.
  unfold splice_remove. rewrite splice_start_back by lia.
  rewrite length_insert_middle.
  replace (Z.to_nat (Z.of_nat (S (length l)) + i)) with (S k) by lia.
  rewrite (cons_middle x), app_assoc.
  assert (Hlen : length (take k l ++ [x]) = S k)
    by (rewrite length_app, length_take; simpl; lia).
  rewrite take_app_length' by (now rewrite Hlen).
  rewrite drop_app_ge by lia. rewrite Hlen.
  replace (S (S k) - S k)%nat with 1%nat by lia.
  rewrite drop_drop, <- app_assoc. simpl.
  replace (k + 1)%nat with (S k) by lia.
  symmetry. apply insert_take_drop. exact Hk.
Qed.

Lemma splice_add_remove_front l i x :
  i < - Z.of_nat (length l) ->
  splice_remove (splice_add l i x) i = l.
Proof.
  intros Hi. unfold splice_add. rewrite splice_start_back by lia.
  replace (Z.to_nat (Z.of_nat (length l) + i)) with 0%nat by lia.
  rewrite take_0, drop_0. change ([] ++ x :: l) with (x :: l).
  unfold splice_remove. rewrite splice_start_back by lia.
  replace (Z.to_nat (Z.of_nat (length (x :: l)) + i)) with 0%nat
    by (simpl; lia).
  reflexivity.
Qed.
End splice_edges.

(** X1: [Expression.add(c, i)] followed by [Expression.remove(i)] gives the
    expression back when [i] is an index of the array or its length, and
    when [i] is negative beyond the start.  For a position past the end
    [add] appends and [remove] does nothing, so [c] stays; for a negative
    position within the array [c] replaces the component the position
    counts to. *)
Theorem Expression_add_remove (cs : list ref) (c : ref) (i : Z) :
  Expression_remove (Expression_add cs c (Some i)) (Some i)
  = if decide (0 <= i <= Z.of_nat (length cs) \/ i < - Z.of_nat (length cs))
    then cs
    else if decide (Z.of_nat (length cs) < i) then cs ++ [c]
    else <[Z.to_nat (Z.of_nat (length cs) + i) := c]> cs.
Proof.
  unfold Expression_remove, Expression_add. simpl.
  destruct (decide _) as [[Hin|Hfront]|Hout].
  - replace i with (Z.of_nat (Z.to_nat i)) by lia.
    apply splice_remove_add. lia.
  - now apply splice_add_remove_front.
  - destruct (decide _) as [Hpast|Hback].
    + rewrite splice_add_past by lia.
      apply splice_remove_past. rewrite length_app. simpl. lia.
    + apply splice_add_remove_back. lia.
Qed.

(** X2: without a position [Expression.add] appends and
    [Expression.remove] takes the last component away, doing nothing on
    the empty expression; [add] followed by [remove] gives the expression
    back. *)
Theorem Expression_add_remove_default (cs : list ref) (c : ref) :
  Expression_add cs c None = cs ++ [c]
  /\ Expression_remove cs None = take (length cs - 1) cs
  /\ Expression_remove [] None = []
  /\ Expression_remove (Expression_add cs c None) None = cs.
Proof.
  assert (Hadd : Expression_add cs c None = cs ++ [c]).
  { unfold Expression_add. simpl. apply splice_add_past. lia. }
  assert (Hrem : forall l : list ref,
             Expression_remove l None = take (length l - 1) l).
  { intros l. unfold Expression_remove. simpl.
    destruct l as [|x l]; [reflexivity|].
    replace (Z.of_nat (length (x :: l)) - 1) with (Z.of_nat (length l))
      by (simpl; lia).
    rewrite splice_remove_nat by (simpl; lia).
    rewrite delete_take_drop.
    rewrite (drop_ge (x :: l)) by (simpl; lia).
    rewrite app_nil_r. f_equal. simpl. lia. }
  split; [exact Hadd|]. split; [apply Hrem|]. split; [reflexivity|].
  rewrite Hadd, Hrem, length_app. simpl.
  replace (length cs + 1 - 1)%nat with (length cs) by lia.
  now rewrite take_app_length.
Qed.

(** ** Serialisation and the store *)

(** Serialisation that returns a text returns the same text in every
    store that has the objects of this one. *)
Section mono.
Variables rec1 rec2 : ref -> res string.
Hypothesis Hrec : forall y s, rec1 y = Ok s -> rec2 y = Ok s.

Lemma concat_children_mono (cs : list child_t) (latex s : string) :
  concat_children rec1 cs latex = Ok s -> concat_children rec2 cs latex = Ok s.
Proof.
  revert latex. induction cs as [|[t|y] cs IH]; intros latex; simpl; auto.
  destruct (rec1 y) as [m| |] eqn:Hy; try discriminate.
  rewrite (Hrec y m Hy). simpl. apply IH.
Qed.

Lemma concat_components_mono (cs : list ref) (latex s : string) :
  concat_components rec1 cs latex = Ok s ->
  concat_components rec2 cs latex = Ok s.
Proof.
  revert latex. induction cs as [|y cs IH]; intros latex; simpl; auto.
  destruct (rec1 y) as [m| |] eqn:Hy; try discriminate.
  rewrite (Hrec y m Hy). simpl. apply IH.
Qed.

Lemma fill_mono (bs : list ref) (t : list piece) (s : string) :
  fill rec1 bs t = Ok s -> fill rec2 bs t = Ok s.
Proof.
  revert s. induction t as [|[l|i] t IH]; intros s; simpl; auto.
  - destruct (fill rec1 bs t) as [r| |]; try discriminate.
    now rewrite (IH r eq_refl).
  - destruct (bs !! i) as [b|]; [|auto].
    destruct (rec1 b) as [m| |] eqn:Hb; try discriminate.
    rewrite (Hrec b m Hb). simpl.
    destruct (fill rec1 bs t) as [r| |]; try discriminate.
    now rewrite (IH r eq_refl).
Qed.

Lemma matrix_row_mono (bs : list ref) (rows cols i n : nat) (output s : string) :
  matrix_row rec1 bs rows cols i n output = Ok s ->
  matrix_row rec2 bs rows cols i n output = Ok s.
Proof.
  revert output. induction n as [|n IH]; intros output; simpl; auto.
  destruct (bs !! _) as [b|]; [|auto].
  destruct (rec1 b) as [m| |] eqn:Hb; try discriminate.
  rewrite (Hrec b m Hb). simpl. apply IH.
Qed.

Lemma matrix_rows_mono (bs : list ref) (rows cols n : nat) (output s : string) :
  matrix_rows rec1 bs rows cols n output = Ok s ->
  matrix_rows rec2 bs rows cols n output = Ok s.
Proof.
  revert output. induction n as [|n IH]; intros output; simpl; auto.
  destruct (matrix_row rec1 bs rows cols _ cols output) as [r| |] eqn:Hr;
    try discriminate.
  rewrite (matrix_row_mono _ _ _ _ _ _ _ Hr). simpl. apply IH.
Qed.

Lemma Component_toLatex_mono (C : Component) (s : string) :
  Component_toLatex rec1 C = Ok s -> Component_toLatex rec2 C = Ok s.
Proof.
  unfold Component_toLatex.
  destruct (class C); try apply fill_mono.
  unfold Matrix_toLatex.
  destruct (matrix_rows rec1 _ _ _ _ _) as [r| |] eqn:Hr; try discriminate.
  now rewrite (matrix_rows_mono _ _ _ _ _ _ Hr).
Qed.
End mono.

Lemma render_mono (h h' : store) :
  (forall x o, h !! x = Some o -> h' !! x = Some o) ->
  forall fuel x s, render fuel h x = Ok s -> render fuel h' x = Ok s.
Proof.
  intros Hext. induction fuel as [|fuel IH]; intros x s; [discriminate|].
  rewrite !render_S. destruct (h !! x) as [o|] eqn:Hx; [|discriminate].
  rewrite (Hext x o Hx). destruct o as [B|C]; simpl.
  - unfold Block_toLatex. destruct (children B) as [|ch cs].
    + destruct (block_parent B) as [| |p]; auto.
      destruct (h !! p) as [o|] eqn:Hp; [|discriminate].
      now rewrite (Hext p o Hp).
    + destruct (concat_children (render fuel h) _ _) as [r| |] eqn:Hr;
        try discriminate.
      now rewrite (concat_children_mono _ _ IH _ _ _ Hr).
  - now apply Component_toLatex_mono.
Qed.

Lemma concat_components_spec (rec : ref -> res string)
    (cs : list ref) (ms : list string) :
  Forall2 (fun c m => rec c = Ok m) cs ms ->
  forall latex,
    concat_components rec cs latex = Ok (latex +:+ concat_strings ms).
Proof.
  induction 1 as [|c m cs ms Hc _ IH]; intros latex; simpl.
  - now rewrite append_nil_r.
  - rewrite Hc. simpl. now rewrite IH, append_assoc.
Qed.

(** A text component holding one text serialises to the text, trimmed. *)
Lemma render_text (h : store) (c b : ref) (t : string) (par : jsref)
    (fuel : nat) :
  h !! c = Some (OComp (mkComponent TextComponent [b] par None)) ->
  h !! b = Some (OBlock (mkBlock [CStr t] (Ref c))) ->
  (2 <= fuel)%nat ->
  render fuel h c = Ok (trim t).
Proof.
  intros Hc Hb Hfuel. destruct fuel as [|[|fuel]]; try lia.
  rewrite render_S, Hc. cbn [toLatex_obj]. unfold Component_toLatex.
  cbn [class blocks template fill]. change ([b] !! 0%nat) with (Some b).
  cbv beta iota. rewrite render_S, Hb. cbn [toLatex_obj]. unfold Block_toLatex.
  cbn [children concat_children]. rewrite append_nil_l.
  cbn [mbind res_bind]. now rewrite append_nil_r.
Qed.

(** ** The caret at top level *)

Lemma toDisplayLatex_top_value (st : state) (fuel : nat) (i : nat)
    (ms : list string) :
  block st = Null ->
  position st = before (Z.of_nat i) ->
  (i <= length (components st))%nat ->
  (2 <= fuel)%nat ->
  Forall2 (fun c m => render fuel (heap st) c = Ok m) (components st) ms ->
  exists st',
    toDisplayLatex fuel st
    = Ok (trim (concat_strings (take i ms ++ "|" :: drop i ms)), st')
    /\ same_document st st'
    /\ latex st' = trim (concat_strings (take i ms ++ "|" :: drop i ms)).
Proof.
  intros Hb Hp Hi Hfuel Hms. unfold toDisplayLatex. rewrite Hb.
  destruct (new_text Null "|" (heap st)) as [n h1] eqn:Hnew1.
  destruct (new_component FrameBox Null "" h1) as [f h2] eqn:Hnew2.
  destruct (display_alloc _ _ _ _ _ _ Hnew1 Hnew2)
    as (-> & -> & Hlen & Hext & Hn & HSn & _).
  unfold toLatex, set_components, set_heap. fields.
  rewrite Hp, ceil2_before, splice_add_nat by exact Hi.
  unfold Expression_toLatex.
  rewrite (concat_components_spec _ _ (take i ms ++ "|" :: drop i ms)).
  - simpl. rewrite append_nil_l. eexists. split; [reflexivity|].
    unfold same_document. fields. rewrite ?Hp, ?ceil2_before.
    rewrite <- (splice_add_nat (components st) i) by exact Hi.
    rewrite splice_remove_add by exact Hi.
    repeat split; auto.
  - apply Forall2_app; [|constructor].
    + apply Forall2_take. eapply Forall2_impl; [exact Hms|].
      intros c m Hc. now apply (render_mono (heap st)).
    + replace "|" with (trim "|") by reflexivity.
      now apply (render_text h2 _ (S (length (heap st))) "|" Null).
    + apply Forall2_drop. eapply Forall2_impl; [exact Hms|].
      intros c m Hc. now apply (render_mono (heap st)).
Qed.

(** X3: at top level, with the cursor in the gap before component [i],
    [toDisplayLatex] returns the markup of the components with the caret
    put between those before and those after the gap, trimmed, and leaves
    the document as it was. *)
Theorem toDisplayLatex_top_caret (st : state) (fuel : nat) (i : nat)
    (ms : list string) :
  block st = Null ->
  position st = before (Z.of_nat i) ->
  (i <= length (components st))%nat ->
  (2 <= fuel)%nat ->
  Forall2 (fun c m => render fuel (heap st) c = Ok m) (components st) ms ->
  exists st',
    toDisplayLatex fuel st
    = Ok (trim (concat_strings (take i ms) +:+ "|" +:+ concat_strings (drop i ms)),
          st')
    /\ same_document st st'.
Proof.
  intros Hb Hp Hi Hfuel Hms.
  destruct (toDisplayLatex_top_value st fuel i ms Hb Hp Hi Hfuel Hms)
    as (st' & Hd & Hsame & _).
  exists st'. split; [|exact Hsame].
  rewrite Hd. do 3 f_equal.
  rewrite concat_strings_app. reflexivity.
Qed.

Lemma toDisplayLatex_top_caret_witness :
  exists st',
    toDisplayLatex 2 one_letter_state = Ok ("a|", st')
    /\ same_document one_letter_state st'.
Proof.
  refine (toDisplayLatex_top_caret one_letter_state 2 1 ["a"]
            eq_refl eq_refl _ _ _).
  - simpl. lia.
  - lia.
  - repeat constructor.
Defined.

(** ** Typing *)

Lemma typed_init : typed [] init.
Proof. repeat split. constructor. Qed.

Lemma typed_addText (texts : list string) (t : string) (st : state) :
  typed texts st ->
  exists st', addText t st = Ok st' /\ typed (texts ++ [t]) st'.
Proof.
  intros (Hb & Hp & Hall).
  unfold addText. rewrite Hb, new_text_eq. eexists. split; [reflexivity|].
  unfold typed. fields.
  rewrite Hp, ceil2_before, splice_add_nat by lia.
  rewrite firstn_all, drop_all.
  split; [reflexivity|]. split.
  - rewrite length_app. simpl. unfold before. lia.
  - apply Forall2_app.
    + eapply Forall2_impl; [exact Hall|].
      intros c s (b & Hc & Hbl). exists b.
      split; now apply lookup_app_l_Some.
    + constructor; [|constructor]. exists (S (length (heap st))). split.
      * rewrite lookup_app_r by lia. now rewrite Nat.sub_diag.
      * rewrite lookup_app_r by lia.
        now replace (S (length (heap st)) - length (heap st))%nat
          with 1%nat by lia.
Qed.

Lemma typed_run (texts0 texts : list string) (st : state) :
  typed texts0 st ->
  exists st', run (map OpText texts) st = Ok st' /\ typed (texts0 ++ texts) st'.
Proof.
  revert texts0 st. induction texts as [|t texts IH]; intros texts0 st Hst; simpl.
  - exists st. now rewrite app_nil_r.
  - destruct (typed_addText texts0 t st Hst) as (st1 & -> & H1). simpl.
    destruct (IH _ st1 H1) as (st' & Hrun & H').
    exists st'. split; [exact Hrun|]. now rewrite <- app_assoc in H'.
Qed.

Lemma typed_render (texts : list string) (st : state) (fuel : nat) :
  typed texts st -> (2 <= fuel)%nat ->
  Forall2 (fun c m => render fuel (heap st) c = Ok m)
    (components st) (map trim texts).
Proof.
  intros (_ & _ & Hall) Hfuel. apply Forall2_fmap_r.
  eapply Forall2_impl; [exact Hall|].
  intros c t (b & Hc & Hb). now apply (render_text _ c b t Null).
Qed.

Section spaces.
Implicit Types (s r : string) (l : list string).

Lemma starts_with_space_app s r :
  starts_with_space s = false -> starts_with_space r = false ->
  starts_with_space (s +:+ r) = false.
Proof. destruct s as [|a s]; [now rewrite append_nil_l|]. now rewrite append_cons. Qed.

Lemma ends_with_space_app s r :
  ends_with_space s = false -> ends_with_space r = false ->
  ends_with_space (s +:+ r) = false.
Proof.
  intros Hs Hr. induction s as [|a s IH]; [now rewrite append_nil_l|].
  rewrite append_cons. destruct s as [|b s].
  - rewrite append_nil_l. destruct r as [|c r]; [exact Hs|exact Hr].
  - rewrite append_cons. rewrite append_cons in IH. simpl in *. now apply IH.
Qed.

Lemma concat_strings_no_space l :
  Forall (fun t => starts_with_space t = false /\ ends_with_space t = false) l ->
  starts_with_space (concat_strings l) = false
  /\ ends_with_space (concat_strings l) = false.
Proof.
  induction 1 as [|t l [H1 H2] _ [IH1 IH2]]; simpl; [auto|].
  split; [now apply starts_with_space_app | now apply ends_with_space_app].
Qed.

Lemma map_trim_id l :
  Forall (fun t => starts_with_space t = false /\ ends_with_space t = false) l ->
  map trim l = l.
Proof.
  induction 1 as [|t l [H1 H2] _ IH]; simpl; [reflexivity|].
  now rewrite trim_id, IH.
Qed.
End spaces.

(** X4: typing the texts [texts] into the empty expression gives an
    expression whose [toLatex()] is the texts, each trimmed, put together
    and trimmed; when no text starts or ends with white space (every key
    of the set [characters] is such a text) it is the texts put
    together. *)
Theorem typed_texts_toLatex (texts : list string) (fuel : nat) :
  (2 <= fuel)%nat ->
  exists st st',
    run (map OpText texts) init = Ok st
    /\ toLatex fuel st = Ok (trim (concat_strings (map trim texts)), st')
    /\ (Forall (fun t => starts_with_space t = false
                         /\ ends_with_space t = false) texts ->
        toLatex fuel st = Ok (concat_strings texts, st')).
Proof.
  intros Hfuel.
  destruct (typed_run [] texts init typed_init) as (st & Hrun & Hst).
  simpl in Hst. pose proof (typed_render texts st fuel Hst Hfuel) as Hms.
  assert (Hl : Expression_toLatex fuel (heap st) (components st)
               = Ok (trim (concat_strings (map trim texts)))).
  { unfold Expression_toLatex.
    rewrite (concat_components_spec _ _ _ Hms). simpl.
    now rewrite append_nil_l. }
  exists st. eexists. split; [exact Hrun|]. split.
  - unfold toLatex. rewrite Hl. reflexivity.
  - intros Hall. unfold toLatex. rewrite Hl. simpl.
    destruct (concat_strings_no_space texts Hall) as [H1 H2].
    rewrite (map_trim_id texts Hall), (trim_id _ H1 H2). reflexivity.
Qed.

Lemma typed_texts_toLatex_witness :
  exists st st',
    run (map OpText ["x"; "+"; "1"]) init = Ok st
    /\ toLatex 2 st = Ok ("x+1", st').
Proof.
  destruct (typed_texts_toLatex ["x"; "+"; "1"] 2 ltac:(lia))
    as (st & st' & Hrun & _ & Hl).
  exists st, st'. split; [exact Hrun|].
  apply Hl. repeat constructor.
Defined.

(** ** Text as a component *)

(** X5: at a resting cursor [addText(text)] does what [addComponent] does
    with a text component constructed with the current block as parent
    and holding [text]. *)
Theorem addText_as_addComponent (text : string) (st : state) :
  resting st ->
  addText text st
  = let '(c, h) := new_text (block st) text (heap st) in
    addComponent c (set_heap st h).
Proof.
  intros Hrest. unfold resting in Hrest. unfold addText, addComponent.
  destruct (block st) as [| |b] eqn:Hb; [|contradiction|].
  - destruct Hrest as (Hc & i & Hi & Hp).
    rewrite new_text_eq. unfold set_heap. fields. rewrite Hb.
    assert (Hleaf : is_leaf
              (heap st
               ++ [OComp {| class := TextComponent;
                            blocks := [S (length (heap st))];
                            parent := Null; color := None |};
                   OBlock {| children := [CStr text];
                             block_parent := Ref (length (heap st)) |}])
              (Some (length (heap st))) = true).
    { unfold is_leaf. rewrite lookup_app_r by lia.
      now rewrite Nat.sub_diag. }
    rewrite Hleaf, Hc, Hp, ceil2_before. do 2 f_equal.
    unfold of_int, before. lia.
  - destruct Hrest as (B & i & HB & Hi & Hch).
    rewrite new_text_eq. unfold set_heap. fields. rewrite Hb.
    assert (HB1 : forall l, (heap st ++ l) !! b = Some (OBlock B))
      by (intros l; now apply lookup_app_l_Some).
    rewrite HB1. unfold get_block. rewrite HB1.
    cbn [mbind res_bind].
    assert (Hleaf : forall x y,
              is_leaf
                (heap st
                 ++ [OComp {| class := TextComponent; blocks := x;
                              parent := y; color := None |};
                     OBlock {| children := [CStr text];
                               block_parent := Ref (length (heap st)) |}])
                (Some (length (heap st))) = true).
    { intros x y. unfold is_leaf. rewrite lookup_app_r by lia.
      now rewrite Nat.sub_diag. }
    now rewrite Hleaf.
Qed.

Lemma addText_as_addComponent_witness :
  addText "a" nested_sqrt_state
  = let '(c, h) := new_text (block nested_sqrt_state) "a"
                     (heap nested_sqrt_state) in
    addComponent c (set_heap nested_sqrt_state h).
Proof.
  apply addText_as_addComponent.
  exists (mkBlock [CRef 2%nat] (Ref 0%nat)), 1%nat.
  repeat split. simpl. lia.
Defined.

(** ** The editor *)

(** X6: [clearEquation()] returns whatever the editor holds: it puts the
    current expression at the end of the history, leaves the cursor at
    its initial address on an empty expression, shows the caret alone in
    the display, and changes no object that existed; [getLatex()] then
    returns the empty string.  The [latex] field of the cursor is left
    holding the caret, since the display is refreshed through
    [toLatex()]. *)
Theorem clearEquation_resets (g : MJXGUI) (fuel : nat) :
  (2 <= fuel)%nat ->
  exists g' g'',
    clearEquation fuel g = Ok ("$$|$$", g')
    /\ eqnHistory g' = eqnHistory g ++ [components (cursor g)]
    /\ components (cursor g') = []
    /\ block (cursor g') = Null /\ component (cursor g') = Null
    /\ child (cursor g') = -1 /\ position (cursor g') = -1
    /\ latex (cursor g') = "|"
    /\ (forall x o, heap (cursor g) !! x = Some o ->
                    heap (cursor g') !! x = Some o)
    /\ getLatex fuel g' = Ok ("", g'').
Proof.
  intros Hfuel. unfold clearEquation, updateDisplay.
  set (cur := {| heap := heap (cursor g); components := []; block := Null;
                 component := Null; child := -1; position := -1;
                 latex := "" |}).
  destruct (toDisplayLatex_top_value cur fuel 0 [] eq_refl eq_refl
              ltac:(simpl; lia) Hfuel ltac:(constructor))
    as (st' & Hd & (Hcs & Hb & Hc & Hch & Hp & Hheap) & Hl).
  rewrite Hd. change (trim (concat_strings (take 0 [] ++ ["|"]))) with "|" in *.
  cbn [mbind res_bind]. eexists _, _. split; [reflexivity|].
  cbn [eqnHistory cursor]. split; [reflexivity|].
  do 7 (split; [assumption|]).
  unfold getLatex, toLatex. cbn [cursor]. rewrite Hcs. reflexivity.
Qed.

Lemma clearEquation_resets_witness :
  exists g' g'',
    clearEquation 2 nested_editor = Ok ("$$|$$", g')
    /\ eqnHistory g' = [[0%nat]]
    /\ components (cursor g') = []
    /\ getLatex 2 g' = Ok ("", g'').
Proof.
  destruct (clearEquation_resets nested_editor 2 ltac:(lia))
    as (g' & g'' & H1 & H2 & H3 & _ & _ & _ & _ & _ & _ & H4).
  exists g', g''. auto.
Defined.

(** ** Results of insertion and deletion *)

Lemma delete_insert_middle {A} (l : list A) (i : nat) (x : A) :
  (i <= length l)%nat -> delete i (take i l ++ x :: drop i l) = l.
Proof.
  intros Hi. rewrite delete_take_drop.
  rewrite take_app_length' by (rewrite length_take; lia).
  rewrite cons_middle, app_assoc.
  rewrite drop_app_length' by (rewrite length_app, length_take; simpl; lia).
  apply take_drop.
Qed.

Lemma addText_top (text : string) (st : state) (i : nat) :
  block st = Null -> position st = before (Z.of_nat i) ->
  (i <= length (components st))%nat ->
  addText text st
  = Ok {| heap := (new_text Null text (heap st)).2;
          components := take i (components st)
                        ++ length (heap st) :: drop i (components st);
          block := Null; component := component st;
          child := -1; position := before (Z.of_nat (S i));
          latex := latex st |}.
Proof.
  intros Hb Hp Hi. unfold addText. rewrite Hb, new_text_eq.
  rewrite Hp, ceil2_before, splice_add_nat by exact Hi.
  cbn [snd]. do 2 f_equal. unfold before. lia.
Qed.

Lemma addText_in (text : string) (st : state) (b : ref) (B : Block) (i : nat) :
  block st = Ref b -> heap st !! b = Some (OBlock B) ->
  child st = before (Z.of_nat i) -> (i <= length (children B))%nat ->
  addText text st
  = Ok {| heap := <[b := OBlock {| children := take i (children B)
                                               ++ CRef (length (heap st))
                                                  :: drop i (children B);
                                   block_parent := block_parent B |}]>
                    (new_text (Ref b) text (heap st)).2;
          components := components st;
          block := Ref b; component := component st;
          child := before (Z.of_nat (S i)); position := position st;
          latex := latex st |}.
Proof.
  intros Hb HB Hch Hi. unfold addText. rewrite Hb, new_text_eq.
  rewrite (lookup_app_l_Some _ _ _ _ HB).
  rewrite Hch, ceil2_before. unfold Block_addChild.
  rewrite splice_add_nat by exact Hi.
  cbn [snd]. do 2 f_equal. unfold before. lia.
Qed.

Lemma insert_top (k : cls) (col : string) (st : state) (i : nat) :
  block st = Null -> position st = before (Z.of_nat i) ->
  (i <= length (components st))%nat ->
  insert k col st
  = Ok {| heap := (new_component k Null col (heap st)).2;
          components := take i (components st)
                        ++ length (heap st) :: drop i (components st);
          block := if is_leaf_cls k then Null
                   else js_ref (seq (S (length (heap st))) (arity k) !! 0%nat);
          component := if is_leaf_cls k then Null else Ref (length (heap st));
          child := -1;
          position := if is_leaf_cls k then before (Z.of_nat (S i))
                      else of_int (Z.of_nat i);
          latex := latex st |}.
Proof.
  intros Hb Hp Hi. unfold insert. rewrite Hb.
  destruct (new_component k Null col (heap st)) as [n h1] eqn:Hnew.
  destruct (new_component_facts _ _ _ _ _ _ Hnew) as (-> & _ & Hn & _).
  unfold addComponent. fields.
  unfold is_leaf. rewrite Hn. cbn [class].
  rewrite Hp, ceil2_before, splice_add_nat by exact Hi.
  destruct (is_leaf_cls k).
  - do 2 f_equal. unfold of_int, before. lia.
  - rewrite (get_comp_Ref _ _ _ Hn). reflexivity.
Qed.

Lemma insert_in (k : cls) (col : string) (st : state) (b : ref) (B : Block)
    (i : nat) :
  block st = Ref b -> heap st !! b = Some (OBlock B) ->
  child st = before (Z.of_nat i) -> (i <= length (children B))%nat ->
  insert k col st
  = Ok {| heap := <[b := OBlock {| children := take i (children B)
                                               ++ CRef (length (heap st))
                                                  :: drop i (children B);
                                   block_parent := block_parent B |}]>
                    (new_component k (Ref b) col (heap st)).2;
          components := components st;
          block := if is_leaf_cls k then Ref b
                   else js_ref (seq (S (length (heap st))) (arity k) !! 0%nat);
          component := if is_leaf_cls k then component st
                       else Ref (length (heap st));
          child := if is_leaf_cls k then before (Z.of_nat (S i)) else -1;
          position := position st;
          latex := latex st |}.
Proof.
  intros Hb HB Hch Hi. unfold insert. rewrite Hb.
  destruct (new_component k (Ref b) col (heap st)) as [n h1] eqn:Hnew.
  destruct (new_component_facts _ _ _ _ _ _ Hnew) as (-> & (l & ->) & Hn & _).
  unfold addComponent. fields.
  rewrite (get_block_Ref _ _ _ (lookup_app_l_Some _ l _ _ HB)).
  cbn [mbind res_bind]. cbv beta iota.
  unfold is_leaf. rewrite Hn. cbn [class].
  rewrite Hch, ceil2_before. unfold Block_addChild.
  rewrite splice_add_nat by exact Hi.
  destruct (is_leaf_cls k).
  - do 2 f_equal. unfold before. lia.
  - rewrite (get_comp_Ref _ _ _ Hn). reflexivity.
Qed.

(** [isEmpty] over blocks that exist. *)
Lemma isEmpty_true (h : store) (bs : list ref) :
  (forall b, b ∈ bs ->
     exists B, h !! b = Some (OBlock B) /\ children B = []) ->
  isEmpty h bs = Ok true.
Proof.
  induction bs as [|b bs IH]; intros Hbs; simpl; [reflexivity|].
  destruct (Hbs b ltac:(now left)) as (B & -> & ->). simpl.
  apply IH. intros x Hx. apply Hbs. now right.
Qed.

Lemma isEmpty_false (h : store) (bs : list ref) (b : ref) (B : Block) :
  (forall x, x ∈ bs -> exists X, h !! x = Some (OBlock X)) ->
  b ∈ bs -> h !! b = Some (OBlock B) -> children B <> [] ->
  isEmpty h bs = Ok false.
Proof.
  intros Hbs Hin HB Hne. induction bs as [|x bs IH]; [inversion Hin|].
  simpl. destruct (Hbs x ltac:(now left)) as (X & HX). rewrite HX.
  destruct (length (children X) =? 0)%nat eqn:Hlen; [|reflexivity].
  apply IH.
  - intros y Hy. apply Hbs. now right.
  - apply elem_of_cons in Hin as [->|Hin]; [|exact Hin].
    exfalso. apply Hne. apply Nat.eqb_eq in Hlen.
    assert (X = B) as -> by congruence. now apply nil_length_inv.
Qed.

Lemma isEmpty_returns (h : store) (bs : list ref) :
  (forall x, x ∈ bs -> exists X, h !! x = Some (OBlock X)) ->
  exists e, isEmpty h bs = Ok e.
Proof.
  induction bs as [|x bs IH]; intros Hbs; simpl; [eauto|].
  destruct (Hbs x ltac:(now left)) as (X & ->).
  destruct (length (children X) =? 0)%nat; [|eauto].
  apply IH. intros y Hy. apply Hbs. now right.
Qed.

Section backspace.
Variable st : state.
Hypothesis Hlen : components st <> [].
Hypothesis Hpos : position st <> -1.

Lemma backspace_start :
  backspace st
  = match block st with
    | Null =>
        let prev := js_at (components st) (floor2 (position st)) in
        if is_leaf (heap st) prev then removeComponent st
        else
          '(c, C) ← get_comp (heap st) (js_ref prev);
          '(b, B) ← get_block (heap st)
                      (js_ref (js_at (blocks C) (Z.of_nat (length (blocks C)) - 1)));
          Ok (move st (Ref b) (Ref c) (before (Z.of_nat (length (children B))))
                (of_int (floor2 (position st))))
    | v =>
        '(c, C) ← get_comp (heap st) (component st);
        e ← isEmpty (heap st) (blocks C);
        if (e : bool) then removeComponent st
        else if child st <=? -1 then
          let blockPos := index_of_block (blocks C) v in
          if blockPos =? 0 then Ok st
          else
            '(b, B) ← get_block (heap st) (js_ref (js_at (blocks C) (blockPos - 1)));
            Ok (move st (Ref b) (component st)
                  (before (Z.of_nat (length (children B)))) (position st))
        else
          '(b, B) ← get_block (heap st) v;
          Ok {| heap := <[b := OBlock (Block_removeChild B (floor2 (child st)))]> (heap st);
                components := components st;
                block := block st; component := component st;
                child := child st - 2; position := position st;
                latex := latex st |}
    end.
Proof.
  unfold backspace.
  destruct (length (components st) =? 0)%nat eqn:E.
  { apply Nat.eqb_eq, nil_length_inv in E. contradiction. }
  destruct (Z.eqb_spec (position st) (-1)); [contradiction|reflexivity].
Qed.

(** At top level, a leaf on the left of the cursor is removed. *)
Lemma backspace_top_leaf (i c : nat) (C : Component) :
  NoDup (components st) ->
  block st = Null -> position st = before (Z.of_nat (S i)) ->
  components st !! i = Some c ->
  heap st !! c = Some (OComp C) ->
  is_leaf_cls (class C) = true -> parent C = Null ->
  backspace st
  = Ok {| heap := heap st; components := delete i (components st);
          block := Null; component := Null; child := -1;
          position := before (Z.of_nat i); latex := latex st |}.
Proof.
  intros Hnd Hb Hp Hi HC Hleaf Hpar. rewrite backspace_start, Hb.
  assert (Hprev : js_at (components st) (floor2 (position st)) = Some c).
  { rewrite Hp, floor2_before.
    replace (Z.of_nat (S i) - 1) with (Z.of_nat i) by lia.
    now rewrite js_at_nat. }
  cbv zeta. rewrite Hprev. unfold is_leaf at 1. rewrite HC, Hleaf.
  unfold removeComponent. rewrite Hb, Hprev.
  unfold is_leaf. rewrite HC, Hleaf.
  cbn [js_ref from_option]. rewrite (get_comp_Ref _ _ _ HC).
  cbn [mbind res_bind]. cbv beta iota.
  unfold removeComponent_in. fields.
  rewrite (get_comp_Ref _ _ _ HC). cbn [mbind res_bind]. cbv beta iota.
  rewrite Hpar.
  rewrite (indexOf_NoDup Nat.eqb c _ i (nat_eqb_iff c) Hnd Hi).
  destruct (Z.eqb_spec (Z.of_nat i) (-1)) as [E|_]; [lia|].
  rewrite splice_remove_nat
    by (apply lookup_lt_Some in Hi; lia).
  do 2 f_equal. rewrite Hp, floor2_before. unfold of_int, before. lia.
Qed.

(** Inside a block of a component that holds something, the child on the
    left of the cursor is removed. *)
Lemma backspace_in_child (b c i : nat) (B : Block) (C : Component) :
  block st = Ref b -> heap st !! b = Some (OBlock B) ->
  component st = Ref c -> heap st !! c = Some (OComp C) ->
  isEmpty (heap st) (blocks C) = Ok false ->
  child st = before (Z.of_nat (S i)) -> (S i <= length (children B))%nat ->
  backspace st
  = Ok {| heap := <[b := OBlock {| children := delete i (children B);
                                   block_parent := block_parent B |}]> (heap st);
          components := components st;
          block := Ref b; component := Ref c;
          child := before (Z.of_nat i); position := position st;
          latex := latex st |}.
Proof.
  intros Hb HB Hc HC He Hch Hi. rewrite backspace_start, Hb, Hc.
  rewrite (get_comp_Ref _ _ _ HC). cbn [mbind res_bind]. cbv beta iota.
  rewrite He. cbn [mbind res_bind]. cbv beta iota.
  destruct (Z.leb_spec (child st) (-1)) as [Hle|_];
    [rewrite Hch in Hle; unfold before in Hle; lia|].
  rewrite (get_block_Ref _ _ _ HB). cbn [mbind res_bind]. cbv beta iota.
  rewrite Hch, floor2_before.
  replace (Z.of_nat (S i) - 1) with (Z.of_nat i) by lia.
  unfold Block_removeChild. rewrite splice_remove_nat by lia.
  do 2 f_equal. unfold before. lia.
Qed.

(** Inside an empty top-level component, the component is removed. *)
Lemma backspace_in_empty_top (c k : nat) (C : Component) :
  NoDup (components st) ->
  block st <> Null ->
  component st = Ref c -> heap st !! c = Some (OComp C) ->
  isEmpty (heap st) (blocks C) = Ok true ->
  parent C = Null -> components st !! k = Some c ->
  backspace st
  = Ok {| heap := heap st; components := delete k (components st);
          block := Null; component := Null; child := -1;
          position := position st - 1; latex := latex st |}.
Proof.
  intros Hnd Hb Hc HC He Hpar Hk. rewrite backspace_start.
  assert (Hgo : forall (f : state -> res state) x,
             match block st with Null => x | _ => f st end = f st)
    by (intros; destruct (block st); [contradiction|reflexivity..]).
  transitivity (removeComponent st).
  { destruct (block st); [contradiction| |];
      rewrite Hc, (get_comp_Ref _ _ _ HC); cbn [mbind res_bind]; cbv beta iota;
      rewrite He; reflexivity. }
  unfold removeComponent.
  transitivity (removeComponent_in st).
  { destruct (block st); [contradiction|reflexivity..]. }
  unfold removeComponent_in. rewrite Hc, (get_comp_Ref _ _ _ HC).
  cbn [mbind res_bind]. cbv beta iota. rewrite Hpar.
  rewrite (indexOf_NoDup Nat.eqb c _ k (nat_eqb_iff c) Hnd Hk).
  destruct (Z.eqb_spec (Z.of_nat k) (-1)) as [E|_]; [lia|].
  rewrite splice_remove_nat by (apply lookup_lt_Some in Hk; lia).
  reflexivity.
Qed.

(** Inside an empty component that is a child of a block, the component
    is removed from that block and the cursor takes its place. *)
Lemma backspace_in_empty_up (c pb m : nat) (C : Component) (PB : Block) :
  block st <> Null ->
  component st = Ref c -> heap st !! c = Some (OComp C) ->
  isEmpty (heap st) (blocks C) = Ok true ->
  parent C = Ref pb -> heap st !! pb = Some (OBlock PB) ->
  NoDup (children PB) -> children PB !! m = Some (CRef c) ->
  backspace st
  = Ok {| heap := <[pb := OBlock {| children := delete m (children PB);
                                    block_parent := block_parent PB |}]> (heap st);
          components := components st;
          block := Ref pb; component := block_parent PB;
          child := before (Z.of_nat m); position := position st;
          latex := latex st |}.
Proof.
  intros Hb Hc HC He Hpar HPB Hnd Hm. rewrite backspace_start.
  transitivity (removeComponent st).
  { destruct (block st); [contradiction| |];
      rewrite Hc, (get_comp_Ref _ _ _ HC); cbn [mbind res_bind]; cbv beta iota;
      rewrite He; reflexivity. }
  unfold removeComponent.
  transitivity (removeComponent_in st).
  { destruct (block st); [contradiction|reflexivity..]. }
  unfold removeComponent_in. rewrite Hc, (get_comp_Ref _ _ _ HC).
  cbn [mbind res_bind]. cbv beta iota. rewrite Hpar.
  rewrite (get_block_Ref _ _ _ HPB). cbn [mbind res_bind]. cbv beta iota.
  rewrite (indexOf_NoDup child_eqb (CRef c) _ m (child_eqb_iff c) Hnd Hm).
  destruct (Z.eqb_spec (Z.of_nat m) (-1)) as [E|_]; [lia|].
  unfold Block_removeChild.
  rewrite splice_remove_nat by (apply lookup_lt_Some in Hm; lia).
  reflexivity.
Qed.
End backspace.

(** ** No operation throws *)

Lemma inv_components_nonempty (st : state) (b : ref) :
  inv st -> block st = Ref b -> components st <> [] /\ position st <> -1.
Proof.
  intros (Hok & _ & _ & Hcur) Hb. rewrite Hb in Hcur.
  destruct Hcur as (B & c & C & t & i & k & _ & _ & _ & _ & _ & _ & _ & _
                    & Hk & Hpos).
  split.
  - intros E. rewrite E in Hk. discriminate.
  - rewrite Hpos. unfold of_int. lia.
Qed.

Lemma comp_ok_blocks_exist (h : store) (c : ref) (C : Component) :
  comp_ok h c C ->
  forall x, x ∈ blocks C -> exists X, h !! x = Some (OBlock X).
Proof.
  intros (_ & Hown & _) x Hx. destruct (Hown x Hx) as (X & HX & _). eauto.
Qed.

Lemma addText_returns (text : string) (st : state) :
  inv st -> exists st', addText text st = Ok st'.
Proof.
  intros (Hok & Hnd & Htops & Hcur).
  destruct (block st) as [| |b] eqn:Hb; [|contradiction|].
  - destruct Hcur as (_ & _ & i & Hi & Hp).
    rewrite (addText_top text st i Hb Hp Hi). eauto.
  - destruct Hcur as (B & c & C & t & i & k & HB & _ & _ & _ & _ & Hi & Hch & _).
    rewrite (addText_in text st b B i Hb HB Hch Hi). eauto.
Qed.

Lemma insert_returns (k : cls) (col : string) (st : state) :
  inv st -> exists st', insert k col st = Ok st'.
Proof.
  intros (Hok & Hnd & Htops & Hcur).
  destruct (block st) as [| |b] eqn:Hb; [|contradiction|].
  - destruct Hcur as (_ & _ & i & Hi & Hp).
    rewrite (insert_top k col st i Hb Hp Hi). eauto.
  - destruct Hcur as (B & c & C & t & i & j & HB & _ & _ & _ & _ & Hi & Hch & _).
    rewrite (insert_in k col st b B i Hb HB Hch Hi). eauto.
Qed.

Lemma seekRight_returns (st : state) :
  inv st -> exists st', seekRight st = Ok st'.
Proof.
  intros Hinv.
  destruct (Z.le_gt_cases (before (Z.of_nat (length (components st))))
              (position st)) as [Hend|Hlt].
  - exists st. now apply seekRight_end.
  - destruct (seekRight_seekLeft st Hinv ltac:(lia)) as (st1 & H1 & _). eauto.
Qed.

Lemma seekLeft_returns (st : state) :
  inv st -> exists st', seekLeft st = Ok st'.
Proof.
  intros Hinv. destruct (Z.le_gt_cases (position st) (-1)) as [Hend|Hlt].
  - exists st. now apply seekLeft_start.
  - destruct (seekLeft_seekRight st Hinv ltac:(lia)) as (st1 & H1 & _). eauto.
Qed.

Lemma backspace_returns (st : state) :
  inv st -> exists st', backspace st = Ok st'.
Proof.
  intros Hinv. pose proof Hinv as (Hok & Hnd & Htops & Hcur).
  destruct (decide (components st = [])) as [Hnil|Hlen].
  { exists st. unfold backspace. now rewrite Hnil. }
  destruct (decide (position st = -1)) as [Hp1|Hpos].
  { exists st. unfold backspace. rewrite Hp1.
    now destruct (length (components st) =? 0)%nat. }
  destruct (block st) as [| |b] eqn:Hb; [|contradiction|].
  - (* at top level *)
    destruct Hcur as (Hc & Hch & i & Hi & Hp).
    destruct i as [|i]; [contradiction Hpos; rewrite Hp; reflexivity|].
    destruct (lookup_lt_is_Some_2 (components st) i ltac:(lia)) as (c & Hic).
    destruct (Htops c ltac:(eapply list_elem_of_lookup_2; eauto))
      as (C & HC & Hpar).
    pose proof (store_ok_comp _ _ _ Hok HC) as HokC.
    destruct (is_leaf_cls (class C)) eqn:Hleaf.
    + rewrite (backspace_top_leaf st Hlen Hpos i c C); eauto.
    + destruct (comp_ok_last_block _ _ _ HokC Hleaf) as (Har & LB & HLB & HpLB).
      pose proof HokC as (Hbl & _).
      rewrite (backspace_top_enters_container st c (c + arity (class C))%nat C LB);
        eauto.
      * rewrite Hp, floor2_before.
        replace (Z.of_nat (S i) - 1) with (Z.of_nat i) by lia.
        now rewrite js_at_nat.
      * rewrite Hbl. now apply last_block.
  - (* inside a block *)
    destruct (inside_facts _ _ _ _ _ _ Hok Hcur)
      as (B & c & C & t & i & k & HB & HpB & Hcv & HC & Hleaf & Hi & Hch
          & Hanc & Hk & Hposk & HokC & HndB & Hin & Hchildren).
    pose proof HokC as (Hbl & _).
    assert (Hbne : block st <> Null) by (rewrite Hb; discriminate).
    destruct (isEmpty_returns (heap st) (blocks C)
                (comp_ok_blocks_exist _ _ _ HokC)) as ([|] & He).
    + destruct (parent C) as [| |pb] eqn:Hpar.
      * pose proof (anc_top_inv _ _ _ _ Hanc HC Hpar) as ->.
        rewrite (backspace_in_empty_top st Hlen Hpos c k C); eauto.
      * destruct HokC as (_ & _ & _ & HparC). now rewrite Hpar in HparC.
      * destruct (anc_step_inv _ _ _ _ _ Hanc HC Hpar)
          as (PB & c' & C' & HPB & HinPB & _).
        apply list_elem_of_lookup_1 in HinPB as (m & Hm).
        destruct (store_ok_block _ _ _ Hok HPB) as (HndPB & _).
        rewrite (backspace_in_empty_up st Hlen Hpos c pb m C PB); eauto.
    + destruct i as [|i].
      * rewrite (backspace_start st Hlen Hpos), Hb, Hcv.
        rewrite (get_comp_Ref _ _ _ HC). cbn [mbind res_bind]. cbv beta iota.
        rewrite He. cbn [mbind res_bind]. cbv beta iota.
        rewrite Hch. change (before (Z.of_nat 0) <=? -1) with true.
        cbv beta iota zeta. unfold index_of_block.
        rewrite Hbl, indexOf_seq by lia.
        destruct (Z.eqb_spec (Z.of_nat (b - S c)) 0) as [E|E]; [eauto|].
        replace (Z.of_nat (b - S c) - 1) with (Z.of_nat (b - S c - 1)) by lia.
        rewrite js_at_nat, lookup_seq_lt by lia.
        destruct (comp_ok_block _ c (b - S c - 1) C HokC ltac:(lia))
          as (PBk & HPBk & _).
        cbn [js_ref from_option]. rewrite (get_block_Ref _ _ _ HPBk).
        cbn [mbind res_bind]. eauto.
      * rewrite (backspace_in_child st Hlen Hpos b c i B C); eauto.
Qed.

Lemma operations_total (st : state) (o : op) :
  inv st -> exists st', run_op o st = Ok st'.
Proof.
  intros Hst. destruct o as [text|k col| | |]; simpl.
  - now apply addText_returns.
  - now apply insert_returns.
  - now apply backspace_returns.
  - now apply seekLeft_returns.
  - now apply seekRight_returns.
Qed.

(** X7: in every state reached from the initial one by the five
    operations (a matrix that is inserted having a cell), each of
    [addText], [addComponent] of a component constructed with the current
    block as parent, [backspace], [seekLeft] and [seekRight] returns: none
    reads a property of [null] or [undefined]. *)
Theorem operations_never_throw (st : state) (o : op) :
  reachable_by with_cells st -> exists st', run_op o st = Ok st'.
Proof.
  intros Hst. apply operations_total. now apply inv_reachable.
Qed.

Lemma operations_never_throw_witness :
  exists st', run_op OpBackspace nested_sqrt_state = Ok st'.
Proof.
  apply (operations_never_throw nested_sqrt_state OpBackspace).
  exact reachable_nested_sqrt.
Defined.

(** ** Where the cursor can be *)

(** X8: in every state reached from the initial one by the five
    operations, a matrix that is inserted having a cell, the cursor points
    into the document:
    [position] lies between -0.5 and the number of components less 0.5;
    at top level [child] is -0.5; inside a block, the block exists, is
    owned by the current component, [child] lies between -0.5 and the
    number of its children less 0.5, and [position] is the index of a
    top-level component. *)
Theorem cursor_in_bounds (st : state) :
  reachable_by with_cells st ->
  -1 <= position st <= before (Z.of_nat (length (components st)))
  /\ match block st with
     | Null => child st = -1
     | Undefined => False
     | Ref b =>
         exists B c t,
           heap st !! b = Some (OBlock B)
           /\ block_parent B = Ref c /\ component st = Ref c
           /\ -1 <= child st <= before (Z.of_nat (length (children B)))
           /\ js_index (components st) (position st) = Some t
     end.
Proof.
  intros Hst. apply inv_reachable in Hst.
  destruct Hst as (Hok & Hnd & Htops & Hcur).
  destruct (block st) as [| |b]; [|contradiction|].
  - destruct Hcur as (_ & Hch & i & Hi & Hp).
    split; [|exact Hch]. rewrite Hp. unfold before. lia.
  - destruct Hcur as (B & c & C & t & i & k & HB & HpB & Hcv & _ & _ & Hi & Hch
                      & _ & Hk & Hpos).
    pose proof (lookup_lt_Some _ _ _ Hk) as Hklt.
    split; [rewrite Hpos; unfold of_int, before; lia|].
    exists B, c, t. do 3 (split; [assumption|]). split.
    + rewrite Hch. unfold before. lia.
    + rewrite Hpos. now rewrite js_index_of_int.
Qed.

Lemma cursor_in_bounds_witness :
  -1 <= position nested_sqrt_state
        <= before (Z.of_nat (length (components nested_sqrt_state)))
  /\ exists B c t,
       heap nested_sqrt_state !! 1%nat = Some (OBlock B)
       /\ block_parent B = Ref c /\ component nested_sqrt_state = Ref c
       /\ -1 <= child nested_sqrt_state <= before (Z.of_nat (length (children B)))
       /\ js_index (components nested_sqrt_state) (position nested_sqrt_state)
          = Some t.
Proof.
  exact (cursor_in_bounds nested_sqrt_state reachable_nested_sqrt).
Defined.

(** ** The shape of the tree *)



(** ** Backspace after an insertion *)

Lemma undo_top (st st1 : state) (i : nat) (N : Component) :
  block st = Null -> component st = Null -> child st = -1 ->
  position st = before (Z.of_nat i) -> (i <= length (components st))%nat ->
  NoDup (components st1) ->
  (forall x o, heap st !! x = Some o -> heap st1 !! x = Some o) ->
  heap st1 !! length (heap st) = Some (OComp N) -> parent N = Null ->
  components st1
  = take i (components st) ++ length (heap st) :: drop i (components st) ->
  (is_leaf_cls (class N) = true /\ block st1 = Null
   /\ position st1 = before (Z.of_nat (S i))
   \/ block st1 <> Null /\ component st1 = Ref (length (heap st))
      /\ position st1 = of_int (Z.of_nat i)
      /\ isEmpty (heap st1) (blocks N) = Ok true) ->
  exists st2, backspace st1 = Ok st2 /\ same_document st st2.
Proof.
  intros Hb Hc Hch Hp Hi Hnd Hext HN Hpar Hcs Hcase.
  assert (Hlen : components st1 <> [])
    by (rewrite Hcs; intros E; symmetry in E; now apply app_cons_not_nil in E).
  assert (Hat : components st1 !! i = Some (length (heap st)))
    by (rewrite Hcs; now apply lookup_insert_middle).
  assert (Hdel : delete i (components st1) = components st)
    by (rewrite Hcs; now apply delete_insert_middle).
  destruct Hcase as [(Hleaf & Hb1 & Hp1)|(Hb1 & Hc1 & Hp1 & He)].
  - assert (Hpos : position st1 <> -1)
      by (rewrite Hp1; unfold before; lia).
    rewrite (backspace_top_leaf st1 Hlen Hpos i (length (heap st)) N); auto.
    eexists. split; [reflexivity|]. unfold same_document. fields.
    rewrite Hdel, Hb, Hc, Hch, Hp. auto 10.
  - assert (Hpos : position st1 <> -1)
      by (rewrite Hp1; unfold of_int; lia).
    rewrite (backspace_in_empty_top st1 Hlen Hpos (length (heap st)) i N); auto.
    eexists. split; [reflexivity|]. unfold same_document. fields.
    rewrite Hdel, Hb, Hc, Hch, Hp, Hp1.
    repeat split; auto.
Qed.

Lemma undo_in (st st1 : state) (h1 : store) (b c i : nat) (B : Block)
    (C N : Component) :
  block st = Ref b -> component st = Ref c ->
  child st = before (Z.of_nat i) -> (i <= length (children B))%nat ->
  heap st !! b = Some (OBlock B) -> block_parent B = Ref c ->
  heap st !! c = Some (OComp C) -> b ∈ blocks C ->
  (forall x, x ∈ blocks C -> exists X, heap st !! x = Some (OBlock X)) ->
  (forall x o, heap st !! x = Some o -> h1 !! x = Some o) ->
  h1 !! length (heap st) = Some (OComp N) -> parent N = Ref b ->
  heap st1
  = <[b := OBlock {| children := take i (children B)
                                 ++ CRef (length (heap st)) :: drop i (children B);
                     block_parent := block_parent B |}]> h1 ->
  NoDup (take i (children B) ++ CRef (length (heap st)) :: drop i (children B)) ->
  components st1 = components st -> components st <> [] ->
  position st1 = position st -> position st <> -1 ->
  (is_leaf_cls (class N) = true /\ block st1 = Ref b
   /\ component st1 = Ref c /\ child st1 = before (Z.of_nat (S i))
   \/ block st1 <> Null /\ component st1 = Ref (length (heap st))
      /\ isEmpty (heap st1) (blocks N) = Ok true) ->
  exists st2, backspace st1 = Ok st2 /\ same_document st st2.
Proof.
  intros Hb Hc Hch Hi HB HpB HC Hin Hbs Hext HN Hpar Hh1 Hnd Hcs Hlen Hp Hpos
         Hcase.
  set (B' := {| children := take i (children B)
                            ++ CRef (length (heap st)) :: drop i (children B);
                block_parent := block_parent B |}) in *.
  pose proof (lookup_lt_Some _ _ _ HB) as Hblt.
  pose proof (lookup_lt_Some _ _ _ (Hext _ _ HB)) as Hblt1.
  assert (HB1 : heap st1 !! b = Some (OBlock B'))
    by (rewrite Hh1; now apply list_lookup_insert_eq).
  assert (Hother : forall x o, x <> b -> h1 !! x = Some o ->
                               heap st1 !! x = Some o)
    by (intros x o Hx Ho; rewrite Hh1; now rewrite list_lookup_insert_ne).
  assert (Hlen1 : components st1 <> []) by now rewrite Hcs.
  assert (Hpos1 : position st1 <> -1) by now rewrite Hp.
  assert (Hback : forall x o,
             heap st !! x = Some o ->
             <[b := OBlock {| children := delete i (children B');
                              block_parent := block_parent B' |}]> (heap st1)
               !! x = Some o).
  { intros x o Hx. destruct (decide (x = b)) as [->|Hne].
    - rewrite list_lookup_insert_eq by (rewrite Hh1, length_insert; lia).
      unfold B'. cbn [children block_parent].
      rewrite delete_insert_middle by exact Hi.
      rewrite Block_eta. congruence.
    - rewrite list_lookup_insert_ne by congruence.
      apply Hother; [exact Hne|]. now apply Hext. }
  destruct Hcase as [(Hleaf & Hb1 & Hc1 & Hch1)|(Hb1 & Hc1 & He)].
  - assert (Hcb : c <> b) by (intros ->; congruence).
    rewrite (backspace_in_child st1 Hlen1 Hpos1 b c i B' C); auto.
    + eexists. split; [reflexivity|]. unfold same_document. fields.
      rewrite Hcs, Hb, Hc, Hch, Hp. auto 10.
    + apply (isEmpty_false _ _ b B'); auto.
      * intros x Hx. destruct (decide (x = b)) as [->|Hne]; [eauto|].
        destruct (Hbs x Hx) as (X & HX). exists X.
        apply Hother; [exact Hne|]. now apply Hext.
      * unfold B'. cbn [children]. intros E. symmetry in E. now apply app_cons_not_nil in E.
    + unfold B'. cbn [children]. rewrite length_insert_middle. lia.
  - assert (Hnb : length (heap st) <> b) by lia.
    rewrite (backspace_in_empty_up st1 Hlen1 Hpos1 (length (heap st)) b i N B'); auto.
    + eexists. split; [reflexivity|]. unfold same_document. fields.
      unfold B' at 2. cbn [block_parent].
      rewrite Hcs, Hb, Hc, Hch, Hp, HpB. auto 10.
    + unfold B'. cbn [children]. now apply lookup_insert_middle.
Qed.

(** X10: in every state reached from the initial one by the five
    operations, a matrix that was inserted having a cell, typing a text or
    inserting a component (a matrix having a cell) and then pressing
    backspace returns and
    leaves the document as it was before the insertion: the expression,
    the cursor's block, component, child and position, and every object
    that existed. *)
Theorem backspace_undoes_insertion (st : state) (o : op) :
  reachable_by with_cells st -> with_cells o -> inserts o ->
  exists st1 st2,
    run_op o st = Ok st1 /\ backspace st1 = Ok st2 /\ same_document st st2.
Proof.
  intros Hst Ho Hins. apply inv_reachable in Hst.
  assert (Hex : exists st1, run_op o st = Ok st1).
  { destruct o; simpl; try contradiction;
      [now apply addText_returns | now apply insert_returns]. }
  destruct Hex as (st1 & Hrun1).
  assert (Hinv1 : inv st1).
  { destruct o; simpl in Hrun1; try contradiction;
      eauto using inv_addText, inv_insert. }
  exists st1. cut (exists st2, backspace st1 = Ok st2 /\ same_document st st2).
  { intros (st2 & H2 & H3). eauto. }
  pose proof Hst as (Hok & Hnd & Htops & Hcur).
  pose proof Hinv1 as (Hok1 & Hnd1 & _ & _).
  destruct (block st) as [| |b] eqn:Hb; [|contradiction|].
  - (* at top level *)
    destruct Hcur as (Hc & Hch & i & Hi & Hp).
    destruct o as [text|k col| | |]; try contradiction; simpl in Hrun1.
    + rewrite (addText_top text st i Hb Hp Hi) in Hrun1.
      rewrite new_text_eq in Hrun1. cbn [snd] in Hrun1.
      injection Hrun1 as <-.
      apply (undo_top st _ i
               (mkComponent TextComponent [S (length (heap st))] Null None)
               Hb Hc Hch Hp Hi); fields.
      * exact Hnd1.
      * intros x o Hx. now apply lookup_app_l_Some.
      * rewrite lookup_app_r by lia. now rewrite Nat.sub_diag.
      * reflexivity.
      * reflexivity.
      * left. auto.
    + rewrite (insert_top k col st i Hb Hp Hi) in Hrun1.
      destruct (new_component k Null col (heap st)) as [n h1] eqn:Hnew.
      destruct (new_component_facts _ _ _ _ _ _ Hnew)
        as (-> & (l & ->) & Hn & Hblocks).
      cbn [snd] in Hrun1. injection Hrun1 as <-.
      eapply (undo_top st _ i _ Hb Hc Hch Hp Hi Hnd1); fields.
      * intros x o Hx. now apply lookup_app_l_Some.
      * exact Hn.
      * reflexivity.
      * reflexivity.
      * cbn [class blocks]. destruct (is_leaf_cls k) eqn:Hleaf; [left; auto|].
        right. split; [apply js_ref_not_null|]. split; [reflexivity|].
        split; [reflexivity|]. apply isEmpty_true.
        intros x Hx. apply elem_of_seq in Hx.
        specialize (Hblocks (x - S (length (heap st)))%nat ltac:(lia)).
        replace (S (length (heap st)) + (x - S (length (heap st))))%nat
          with x in Hblocks by lia.
        eauto.
  - (* inside a block *)
    destruct (inside_facts _ _ _ _ _ _ Hok Hcur)
      as (B & c & C & t & i & j & HB & HpB & Hcv & HC & Hleaf & Hi & Hch
          & Hanc & Hj & Hpos & HokC & HndB & Hin & Hchildren).
    pose proof HokC as (Hbl & _).
    assert (HinC : b ∈ blocks C) by (rewrite Hbl; apply elem_of_seq; lia).
    pose proof (comp_ok_blocks_exist _ _ _ HokC) as Hbs.
    destruct (inv_components_nonempty st b Hst Hb) as (Hlen & Hposne).
    assert (Hfresh : CRef (length (heap st)) ∉ children B).
    { intros Hx. apply list_elem_of_lookup_1 in Hx as (m & Hm).
      destruct (Hchildren m _ Hm) as (y & Y & [= <-] & HY & _).
      apply lookup_lt_Some in HY. lia. }
    assert (Hnd' : NoDup (take i (children B)
                          ++ CRef (length (heap st)) :: drop i (children B)))
      by now apply NoDup_insert_middle.
    destruct o as [text|k col| | |]; try contradiction; simpl in Hrun1.
    + rewrite (addText_in text st b B i Hb HB Hch Hi) in Hrun1.
      rewrite new_text_eq in Hrun1. cbn [snd] in Hrun1.
      injection Hrun1 as <-.
      eapply (undo_in st _
                (heap st
                 ++ [OComp (mkComponent TextComponent [S (length (heap st))]
                              (Ref b) None);
                     OBlock (mkBlock [CStr text] (Ref (length (heap st))))])
                b c i B C
                (mkComponent TextComponent [S (length (heap st))] (Ref b) None)
                Hb Hcv Hch Hi HB HpB HC HinC Hbs); fields.
      * intros x o Hx. apply lookup_app_l_Some. exact Hx.
      * rewrite lookup_app_r by lia. now rewrite Nat.sub_diag.
      * reflexivity.
      * reflexivity.
      * exact Hnd'.
      * reflexivity.
      * exact Hlen.
      * reflexivity.
      * exact Hposne.
      * left. auto.
    + rewrite (insert_in k col st b B i Hb HB Hch Hi) in Hrun1.
      destruct (new_component k (Ref b) col (heap st)) as [n h1] eqn:Hnew.
      destruct (new_component_facts _ _ _ _ _ _ Hnew)
        as (-> & (l & ->) & Hn & Hblocks).
      cbn [snd] in Hrun1. injection Hrun1 as <-.
      eapply (undo_in st _ (heap st ++ l) b c i B C _
                Hb Hcv Hch Hi HB HpB HC HinC Hbs); fields.
      * intros x o Hx. apply lookup_app_l_Some. exact Hx.
      * exact Hn.
      * reflexivity.
      * reflexivity.
      * exact Hnd'.
      * reflexivity.
      * exact Hlen.
      * reflexivity.
      * exact Hposne.
      * cbn [class blocks]. destruct (is_leaf_cls k) eqn:Hleafk; [left; auto|].
        right. split; [apply js_ref_not_null|]. split; [reflexivity|].
        apply isEmpty_true.
        intros x Hx. apply elem_of_seq in Hx.
        specialize (Hblocks (x - S (length (heap st)))%nat ltac:(lia)).
        replace (S (length (heap st)) + (x - S (length (heap st))))%nat
          with x in Hblocks by lia.
        pose proof (lookup_lt_Some _ _ _ HB) as Hblt.
        rewrite list_lookup_insert_ne by lia. eauto.
Qed.

Lemma backspace_undoes_insertion_witness :
  exists st1 st2,
    run_op (OpInsert NthRoot "red") nested_sqrt_state = Ok st1
    /\ backspace st1 = Ok st2 /\ same_document nested_sqrt_state st2.
Proof.
  apply backspace_undoes_insertion;
    [exact reachable_nested_sqrt | exact I | exact I].
Defined.

(** ** What backspace removes *)

(** X11: in every reachable state backspace removes exactly the element on
    the left of the cursor and steps over its place: at top level, when
    that element is a symbol or a text, it leaves the expression; inside
    a block, with a child on the left of the cursor, that child leaves
    the block, whatever it is and whatever it holds.  Nothing else
    changes. *)
Theorem backspace_removes_left (st : state) (i : nat) :
  reachable_by with_cells st ->
  (forall c C,
      block st = Null -> position st = before (Z.of_nat (S i)) ->
      components st !! i = Some c -> heap st !! c = Some (OComp C) ->
      is_leaf_cls (class C) = true ->
      backspace st
      = Ok {| heap := heap st; components := delete i (components st);
              block := Null; component := Null; child := -1;
              position := before (Z.of_nat i); latex := latex st |})
  /\ (forall b B,
      block st = Ref b -> heap st !! b = Some (OBlock B) ->
      child st = before (Z.of_nat (S i)) ->
      backspace st
      = Ok {| heap := <[b := OBlock {| children := delete i (children B);
                                       block_parent := block_parent B |}]>
                        (heap st);
              components := components st;
              block := block st; component := component st;
              child := before (Z.of_nat i); position := position st;
              latex := latex st |}).
Proof.
  intros Hst. apply inv_reachable in Hst.
  pose proof Hst as (Hok & Hnd & Htops & Hcur). split.
  - intros c C Hb Hp Hi HC Hleaf.
    destruct (Htops c ltac:(eapply list_elem_of_lookup_2; eauto))
      as (C' & HC' & Hpar).
    assert (C' = C) as -> by congruence.
    apply (backspace_top_leaf st) with (c := c) (C := C); auto.
    + intros E. rewrite E in Hi. discriminate.
    + rewrite Hp. unfold before. lia.
  - intros b B Hb HB Hch.
    destruct (inv_components_nonempty st b Hst Hb) as (Hlen & Hpos).
    rewrite Hb in Hcur.
    destruct (inside_facts _ _ _ _ _ _ Hok Hcur)
      as (B' & c & C & t & i' & k & HB' & HpB & Hcv & HC & Hleaf & Hi & Hch'
          & Hanc & Hk & Hposk & HokC & HndB & Hin & Hchildren).
    assert (B' = B) as -> by congruence.
    assert (i' = S i) as -> by (unfold before in *; lia).
    pose proof HokC as (Hbl & _).
    rewrite Hb, Hcv.
    apply (backspace_in_child st Hlen Hpos b c i B C); auto.
    apply (isEmpty_false _ _ b B); auto.
    + now apply (comp_ok_blocks_exist _ c).
    + rewrite Hbl. apply elem_of_seq. lia.
    + intros E. rewrite E in Hi. simpl in Hi. lia.
Qed.

Lemma backspace_removes_left_witness :
  backspace one_letter_state
  = Ok {| heap := heap one_letter_state; components := [];
          block := Null; component := Null; child := -1;
          position := -1; latex := "" |}
  /\ backspace nested_sqrt_state
     = Ok {| heap := <[1%nat := OBlock {| children := [];
                                          block_parent := Ref 0%nat |}]>
                       (heap nested_sqrt_state);
             components := [0%nat];
             block := Ref 1%nat; component := Ref 0%nat;
             child := -1; position := 0; latex := "" |}.
Proof.
  split.
  - refine (proj1 (backspace_removes_left one_letter_state 0
                     reachable_one_letter) 0%nat
                  (mkComponent TextComponent [1%nat] Null None) _ _ _ _ _);
      reflexivity.
  - refine (proj2 (backspace_removes_left nested_sqrt_state 0
                     reachable_nested_sqrt) 1%nat
                  (mkBlock [CRef 2%nat] (Ref 0%nat)) _ _ _);
      reflexivity.
Defined.



(** ** A matrix without cells *)

Lemma toDisplayLatex_undefined (st : state) (fuel : nat) :
  block st = Undefined -> toDisplayLatex fuel st = TypeError.
Proof.
  intros Hb. unfold toDisplayLatex. rewrite Hb.
  destruct (new_text Undefined "|" (heap st)) as [n h1].
  destruct (new_component FrameBox Undefined "" h1) as [f h2].
  destruct (get_comp h2 (component st)) as [[c C]| |] eqn:Hc; try reflexivity.
  unfold get_comp in Hc. repeat case_match; discriminate.
Qed.

(** With [block] undefined inside a component, only backspace can
    return. *)
Lemma undefined_block_throws (st1 : state) (m : ref) (N : Component) :
  block st1 = Undefined -> component st1 = Ref m -> child st1 = -1 ->
  heap st1 !! m = Some (OComp N) ->
  -1 < position st1 < before (Z.of_nat (length (components st1))) ->
  (forall text, addText text st1 = TypeError)
  /\ (forall k c, insert k c st1 = TypeError)
  /\ seekLeft st1 = TypeError /\ seekRight st1 = TypeError
  /\ forall fuel, toDisplayLatex fuel st1 = TypeError.
Proof.
  intros Hb1 Hc1 Hch1 HN1 Hp1.
  split; [|split; [|split; [|split]]].
  - intros text. unfold addText. now rewrite Hb1.
  - intros k' c'. unfold insert.
    destruct (new_component k' (block st1) c' (heap st1)) as [n h].
    unfold addComponent. cbn [block heap]. now rewrite Hb1.
  - unfold seekLeft. destruct (Z.leb_spec (position st1) (-1)); [lia|].
    rewrite Hb1, Hch1, Hc1. change (-1 =? -1) with true. cbv beta iota.
    rewrite (get_comp_Ref _ _ _ HN1). cbn [mbind res_bind]. cbv beta iota.
    unfold index_of_block. change (-1 =? 0) with false. cbv beta iota.
    reflexivity.
  - unfold seekRight.
    destruct (Z.leb_spec (before (Z.of_nat (length (components st1))))
                (position st1)); [lia|].
    now rewrite Hb1.
  - intros fuel. now apply toDisplayLatex_undefined.
Qed.

(** The insertion of a matrix without cells: the cursor is left with
    [block] undefined; a backspace that follows at once removes the
    matrix. *)
Lemma insert_empty_matrix (st : state) (rows cols : nat) (col : string) :
  inv st -> (rows * cols = 0)%nat ->
  exists st1 st2,
    insert (MatrixComponent rows cols) col st = Ok st1
    /\ block st1 = Undefined /\ component st1 = Ref (length (heap st))
    /\ child st1 = -1
    /\ (exists N, heap st1 !! length (heap st) = Some (OComp N)
                  /\ class N = MatrixComponent rows cols /\ blocks N = [])
    /\ -1 < position st1 < before (Z.of_nat (length (components st1)))
    /\ backspace st1 = Ok st2 /\ same_document st st2.
Proof.
  intros Hst Hcells.
  pose proof Hst as (Hok & Hnd & Htops & Hcur).
  set (k := MatrixComponent rows cols).
  assert (Har : arity k = 0%nat) by exact Hcells.
  assert (Hidx : seq (S (length (heap st))) (arity k) !! 0%nat = None)
    by now rewrite Har.
  assert (Hnil : seq (S (length (heap st))) (arity k) = [])
    by now rewrite Har.
  destruct (block st) as [| |b] eqn:Hb; [|contradiction|].
  - destruct Hcur as (Hc & Hch & i & Hi & Hp).
    rewrite (insert_top k col st i Hb Hp Hi).
    destruct (new_component k Null col (heap st)) as [n h1] eqn:Hnew.
    destruct (new_component_facts _ _ _ _ _ _ Hnew)
      as (-> & (l & ->) & Hn & _).
    cbn [snd]. change (is_leaf_cls k) with false. cbv beta iota.
    rewrite Hidx. cbn [js_ref from_option].
    match type of Hn with _ = Some (OComp ?X) => set (N := X) in Hn end.
    assert (Hnd' : NoDup (take i (components st)
                          ++ length (heap st) :: drop i (components st))).
    { apply NoDup_insert_middle; [exact Hnd|].
      intros Hin. apply (tops_ok_lt _ _ _ Htops) in Hin. lia. }
    match goal with
    | |- exists st1 st2, Ok ?R = Ok st1 /\ _ => set (st1 := R)
    end.
    destruct (undo_top st st1 i N Hb Hc Hch Hp Hi Hnd'
                (fun x o Hx => lookup_app_l_Some _ l _ _ Hx) Hn eq_refl eq_refl)
      as (st2 & H2 & Hsame).
    { right. split; [discriminate|]. split; [reflexivity|].
      split; [reflexivity|]. replace (blocks N) with (@nil nat) by (symmetry; exact Hnil).
      reflexivity. }
    exists st1, st2. split; [reflexivity|]. split; [reflexivity|].
    split; [reflexivity|]. split; [reflexivity|]. split.
    { exists N. split; [exact Hn|]. split; [reflexivity | exact Hnil]. }
    split; [|split; [exact H2 | exact Hsame]].
    unfold st1. fields. rewrite length_insert_middle.
    unfold of_int, before. lia.
  - destruct (inside_facts _ _ _ _ _ _ Hok Hcur)
      as (B & c & C & t & i & j & HB & HpB & Hcv & HC & Hleaf & Hi & Hch
          & Hanc & Hj & Hpos & HokC & HndB & Hin & Hchildren).
    pose proof HokC as (Hbl & _).
    pose proof (lookup_lt_Some _ _ _ Hj) as Hjlt.
    pose proof (lookup_lt_Some _ _ _ HB) as Hblt.
    assert (HinC : b ∈ blocks C) by (rewrite Hbl; apply elem_of_seq; lia).
    pose proof (comp_ok_blocks_exist _ _ _ HokC) as Hbs.
    destruct (inv_components_nonempty st b Hst Hb) as (Hlen & Hposne).
    assert (Hfresh : CRef (length (heap st)) ∉ children B).
    { intros Hx. apply list_elem_of_lookup_1 in Hx as (m & Hm).
      destruct (Hchildren m _ Hm) as (y & Y & [= <-] & HY & _).
      apply lookup_lt_Some in HY. lia. }
    rewrite (insert_in k col st b B i Hb HB Hch Hi).
    destruct (new_component k (Ref b) col (heap st)) as [n h1] eqn:Hnew.
    destruct (new_component_facts _ _ _ _ _ _ Hnew)
      as (-> & (l & ->) & Hn & _).
    cbn [snd]. change (is_leaf_cls k) with false. cbv beta iota.
    rewrite Hidx. cbn [js_ref from_option].
    match type of Hn with _ = Some (OComp ?X) => set (N := X) in Hn end.
    match goal with
    | |- exists st1 st2, Ok ?R = Ok st1 /\ _ => set (st1 := R)
    end.
    assert (HN1 : heap st1 !! length (heap st) = Some (OComp N)).
    { unfold st1. fields. rewrite list_lookup_insert_ne by lia. exact Hn. }
    destruct (undo_in st st1 (heap st ++ l) b c i B C N
                Hb Hcv Hch Hi HB HpB HC HinC Hbs
                (fun x o Hx => lookup_app_l_Some _ l _ _ Hx) Hn eq_refl eq_refl)
      as (st2 & H2 & Hsame).
    { now apply NoDup_insert_middle. }
    { reflexivity. }
    { exact Hlen. }
    { reflexivity. }
    { exact Hposne. }
    { right. split; [discriminate|]. split; [reflexivity|].
      replace (blocks N) with (@nil nat) by (symmetry; exact Hnil).
      reflexivity. }
    exists st1, st2. split; [reflexivity|]. split; [reflexivity|].
    split; [reflexivity|]. split; [reflexivity|]. split.
    { exists N. split; [exact HN1|]. split; [reflexivity | exact Hnil]. }
    split; [|split; [exact H2 | exact Hsame]].
    unfold st1. fields. rewrite Hpos. unfold of_int, before. lia.
Qed.

(** X13: in every state reached from the initial one by the five
    operations, a matrix that was inserted having a cell, a matrix whose
    number of cells is zero can be inserted: the insertion returns and
    leaves the cursor with [block] undefined and the matrix as
    [component].  In the state it leaves, [addText], the insertion of any
    component, [seekLeft], [seekRight] and [toDisplayLatex] throw a
    [TypeError]. *)
Theorem empty_matrix_breaks_cursor (st : state) (rows cols : nat)
    (col : string) :
  reachable_by with_cells st -> (rows * cols = 0)%nat ->
  exists st1,
    insert (MatrixComponent rows cols) col st = Ok st1
    /\ reachable st1
    /\ block st1 = Undefined /\ component st1 = Ref (length (heap st))
    /\ (forall text, addText text st1 = TypeError)
    /\ (forall k c, insert k c st1 = TypeError)
    /\ seekLeft st1 = TypeError /\ seekRight st1 = TypeError
    /\ (forall fuel, toDisplayLatex fuel st1 = TypeError).
Proof.
  intros Hst Hcells. pose proof (reachable_weaken _ _ Hst) as Hreach.
  apply inv_reachable in Hst.
  destruct (insert_empty_matrix st rows cols col Hst Hcells)
    as (st1 & _ & Hins & Hb1 & Hc1 & Hch1 & (N & HN & _) & Hp1 & _).
  exists st1. split; [exact Hins|]. split.
  { apply (reachable_step _ st st1 (OpInsert (MatrixComponent rows cols) col));
      [exact Hreach | exact I | exact Hins]. }
  split; [exact Hb1|]. split; [exact Hc1|].
  exact (undefined_block_throws st1 _ N Hb1 Hc1 Hch1 HN Hp1).
Qed.

Lemma empty_matrix_breaks_cursor_witness :
  exists st1,
    insert (MatrixComponent 0 3) "red" nested_sqrt_state = Ok st1
    /\ reachable st1
    /\ block st1 = Undefined
    /\ (forall text, addText text st1 = TypeError)
    /\ (forall fuel, toDisplayLatex fuel st1 = TypeError).
Proof.
  destruct (empty_matrix_breaks_cursor nested_sqrt_state 0 3 "red"
              reachable_nested_sqrt eq_refl)
    as (st1 & H1 & H2 & H3 & _ & H4 & _ & _ & _ & H5).
  exists st1. auto.
Defined.

(** ** Keys *)

(** Apart from Enter, a key does to the cursor what one of the five
    operations does, or nothing. *)
Lemma keyPress_action_op (click_save : state -> res state)
    (ctrlKey : bool) (key : string) (lastKey : option string) (col : string)
    (st : state) :
  ctrlKey = true \/ key <> "Enter" ->
  keyPress_action click_save ctrlKey key lastKey col st
  = match key_op ctrlKey key lastKey col with
    | Some o => run_op o st
    | None => Ok st
    end.
Proof.
  intros Hkey. unfold keyPress_action, key_op.
  destruct ctrlKey.
  { now destruct (keyPress_component key lastKey). }
  destruct Hkey as [|Hkey]; [discriminate|].
  destruct (bool_decide _); [reflexivity|].
  do 3 (destruct (String.eqb key _); [reflexivity|]).
  destruct (String.eqb_spec key "Enter") as [E|_]; [contradiction|].
  do 2 (destruct (String.eqb key _); [reflexivity|]).
  now destruct (bool_decide _).
Qed.

(** No key constructs a matrix, and a component constructed for a key has
    at most three blocks. *)
Lemma key_op_small (ctrlKey : bool) (key : string) (lastKey : option string)
    (col : string) (o : op) :
  key_op ctrlKey key lastKey col = Some o ->
  with_cells o
  /\ match o with
     | OpInsert k _ => (arity k <= 3)%nat
     | _ => True
     end.
Proof.
  unfold key_op, keyPress_component.
  repeat case_match; intros Hsome; simplify_eq; simpl; split; auto; lia.
Qed.

Lemma run_op_heap (o : op) (st st1 : state) :
  run_op o st = Ok st1 ->
  length (heap st1)
  = (length (heap st)
     + match o with
       | OpText _ => 2
       | OpInsert k _ => 1 + arity k
       | _ => 0
       end)%nat.
Proof.
  destruct o as [text|k col| | |]; simpl; intros H.
  - assert (Hlen : forall par,
               length (new_text par text (heap st)).2
               = (length (heap st) + 2)%nat).
    { intros par. rewrite new_text_eq. cbn [snd].
      rewrite length_app. simpl. lia. }
    unfold addText in H.
    inv_ok H; subst;
      match goal with
      | Hq : new_text ?p _ _ = _ |- _ =>
          specialize (Hlen p); rewrite Hq in Hlen; cbn [snd] in Hlen
      end;
      simpl; rewrite ?length_insert; lia.
  - unfold insert in H.
    assert (Hlen : forall par,
               length (new_component k par col (heap st)).2
               = (length (heap st) + (1 + arity k))%nat).
    { intros par. unfold new_component. cbn [snd].
      rewrite length_app. simpl. now rewrite length_map, length_seq. }
    specialize (Hlen (block st)).
    destruct (new_component k (block st) col (heap st)) as [n h1].
    cbn [snd] in Hlen. unfold addComponent in H. fields in H.
    inv_ok H; simplify_eq; simpl; rewrite ?length_insert; lia.
  - unfold backspace, removeComponent, removeComponent_in in H.
    inv_ok H; simplify_eq; simpl; rewrite ?length_insert; lia.
  - destruct (seekLeft_tree _ _ H) as [E _]. rewrite E. lia.
  - destruct (seekRight_tree _ _ H) as [E _]. rewrite E. lia.
Qed.

Lemma toDisplayLatex_returns (st : state) (fuel : nat) :
  inv st -> (2 * (length (heap st) + 4) <= fuel)%nat ->
  exists d st', toDisplayLatex fuel st = Ok (d, st') /\ same_document st st'.
Proof.
  intros Hinv Hfuel. pose proof Hinv as (_ & _ & _ & Hcur).
  destruct (block st) as [| |b] eqn:Hb; [|contradiction|].
  - apply toDisplayLatex_top; auto. lia.
  - now apply (toDisplayLatex_inside st fuel b).
Qed.

(** X14: in every state reached from the initial one by the five
    operations, a matrix that was inserted having a cell, [keyPress] with
    any key but Enter returns.  The key does to the cursor what one operation does (typing
    the key, inserting the component of the chord, moving, deleting) or
    nothing; the display is then refreshed, is given the markup between
    two pairs of dollar signs, and the refresh leaves the document as the
    operation left it. *)
Theorem keyPress_returns (click_save : state -> res state) (st : state)
    (fuel : nat) (ctrlKey : bool) (key : string) (lastKey : option string)
    (col : string) :
  reachable_by with_cells st ->
  ctrlKey = true \/ key <> "Enter" ->
  (2 * (length (heap st) + 8) <= fuel)%nat ->
  exists (st1 : state) (d : string) (st' : state),
    match key_op ctrlKey key lastKey col with
    | Some o => run_op o st = Ok st1
    | None => st1 = st
    end
    /\ keyPress click_save fuel ctrlKey key lastKey col st
       = Ok ("$$" +:+ d +:+ "$$", st')
    /\ same_document st1 st'.
Proof.
  intros Hst Hkey Hfuel. unfold keyPress.
  rewrite (keyPress_action_op click_save _ _ _ _ _ Hkey).
  assert (Hst1 : exists st1,
             match key_op ctrlKey key lastKey col with
             | Some o => run_op o st = Ok st1
             | None => st1 = st
             end
             /\ inv st1
             /\ (length (heap st1) <= length (heap st) + 4)%nat).
  { destruct (key_op ctrlKey key lastKey col) as [o|] eqn:Ho.
    - destruct (key_op_small _ _ _ _ _ Ho) as (Hcells & Hsmall).
      destruct (operations_total st o) as (st1 & Hrun);
        [now apply inv_reachable|].
      exists st1. split; [exact Hrun|]. split.
      + apply inv_reachable. eapply reachable_step; eauto.
      + rewrite (run_op_heap _ _ _ Hrun). destruct o; lia.
    - exists st. split; [reflexivity|]. split; [now apply inv_reachable | lia]. }
  destruct Hst1 as (st1 & Hop & Hinv1 & Hlen).
  destruct (toDisplayLatex_returns st1 fuel Hinv1 ltac:(lia))
    as (d & st' & Hd & Hsame).
  exists st1, d, st'. split; [exact Hop|]. split; [|exact Hsame].
  destruct (key_op ctrlKey key lastKey col) as [o|].
  - rewrite Hop. cbn [mbind res_bind]. unfold updateDisplay. now rewrite Hd.
  - subst st1. cbn [mbind res_bind]. unfold updateDisplay. now rewrite Hd.
Qed.

Lemma keyPress_returns_witness :
  exists (st1 : state) (d : string) (st' : state),
    run_op (OpInsert (MJXGUISymbol "\alpha") "red") nested_sqrt_state = Ok st1
    /\ keyPress (fun st => Ok st) 28 true "a" (Some "w") "red" nested_sqrt_state
       = Ok ("$$" +:+ d +:+ "$$", st')
    /\ same_document st1 st'.
Proof.
  apply (keyPress_returns (fun st => Ok st) nested_sqrt_state 28 true "a"
           (Some "w") "red" reachable_nested_sqrt).
  - now left.
  - simpl. lia.
Defined.

(** ** Templates *)

Lemma fill_spec (rec : ref -> res string) (bs : list ref) (ms : list string)
    (t : list piece) :
  Forall2 (fun b m => rec b = Ok m) bs ms ->
  (forall i, Blk i ∈ t -> (i < length bs)%nat) ->
  fill rec bs t = Ok (concat_strings (map (piece_text ms) t)).
Proof.
  intros Hms. induction t as [|[s|i] t IH]; intros Ht; simpl.
  - reflexivity.
  - rewrite IH by (intros i Hi; apply Ht; now right). reflexivity.
  - destruct (lookup_lt_is_Some_2 bs i (Ht i ltac:(now left))) as (b & Hb).
    destruct (Forall2_lookup_l _ _ _ _ _ Hms Hb) as (m & Hm & Hr).
    rewrite Hb, Hr. simpl.
    rewrite IH by (intros j Hj; apply Ht; now right). simpl.
    now rewrite (nth_lookup_Some _ _ "" _ Hm).
Qed.

(** X15: every component class other than the matrix serialises each of
    its blocks exactly once and in the order of the blocks: the blocks
    its template names are 0, 1, ... up to the number of blocks its
    constructor creates.  So the markup of such a component whose blocks
    serialise to [ms] is the literal text of its class with [ms] put in,
    in order. *)
Theorem template_blocks_in_order (k : cls) :
  match k with
  | MatrixComponent _ _ => True
  | _ =>
      omap piece_block (template k) = seq 0 (arity k)
      /\ forall (rec : ref -> res string) (C : Component) (ms : list string),
           class C = k -> length (blocks C) = arity k ->
           Forall2 (fun b m => rec b = Ok m) (blocks C) ms ->
           Component_toLatex rec C
           = Ok (concat_strings (map (piece_text ms) (template k)))
  end.
Proof.
  assert (Hgen : forall rec C ms,
             (match class C with MatrixComponent _ _ => False | _ => True end) ->
             length (blocks C) = arity (class C) ->
             Forall2 (fun b m => rec b = Ok m) (blocks C) ms ->
             Component_toLatex rec C
             = Ok (concat_strings (map (piece_text ms) (template (class C))))).
  { intros rec C ms Hk Hlen Hms. unfold Component_toLatex.
    assert (Hfill : fill rec (blocks C) (template (class C))
                    = Ok (concat_strings
                            (map (piece_text ms) (template (class C))))).
    { apply fill_spec; [exact Hms|].
      intros i Hi. apply template_index in Hi. lia. }
    destruct (class C); try exact Hfill. contradiction. }
  destruct k; try exact I;
    (split; [reflexivity|]);
    intros rec C ms Hk Hlen Hms;
    rewrite <- Hk in Hlen |- *; apply Hgen; auto; now rewrite Hk.
Qed.

Lemma template_blocks_in_order_witness :
  Component_toLatex (fun b => if (b =? 1)%nat then Ok "3" else Ok "x")
    (mkComponent NthRoot [1%nat; 2%nat] Null (Some "red"))
  = Ok "\sqrt[3]{x}".
Proof.
  refine (proj2 (template_blocks_in_order NthRoot) _
            (mkComponent NthRoot [1%nat; 2%nat] Null (Some "red")) ["3"; "x"]
            eq_refl eq_refl _).
  constructor; [reflexivity|]. constructor; [reflexivity|]. constructor.
Defined.

(** ** [isEmpty] *)

(** X16: for a component whose blocks exist, [isEmpty()] returns, and
    returns true exactly when no block has a child; a component without
    blocks (a symbol) is empty, and so is every component just
    constructed. *)
Theorem isEmpty_spec (h : store) (bs : list ref) :
  (forall x, x ∈ bs -> exists X, h !! x = Some (OBlock X)) ->
  (exists e, isEmpty h bs = Ok e
             /\ (e = true <->
                 forall b B, b ∈ bs -> h !! b = Some (OBlock B) ->
                             children B = []))
  /\ isEmpty h [] = Ok true
  /\ forall (k : cls) (par : jsref) (col : string),
       exists C,
         (new_component k par col h).2 !! (new_component k par col h).1
         = Some (OComp C)
         /\ isEmpty (new_component k par col h).2 (blocks C) = Ok true.
Proof.
  intros Hbs. split; [|split; [reflexivity|]].
  - induction bs as [|x bs IH]; simpl.
    + exists true. split; [reflexivity|]. split; [|reflexivity].
      intros _ b B Hb. inversion Hb.
    + destruct (Hbs x ltac:(now left)) as (X & HX). rewrite HX.
      destruct (length (children X) =? 0)%nat eqn:Hlen.
      * destruct IH as (e & He & Hiff); [intros y Hy; apply Hbs; now right|].
        exists e. split; [exact He|]. rewrite Hiff. split.
        -- intros Hall b B Hb HB. apply elem_of_cons in Hb as [->|Hb].
           ++ assert (B = X) as -> by congruence.
              apply Nat.eqb_eq in Hlen. now apply nil_length_inv.
           ++ now apply (Hall b).
        -- intros Hall b B Hb. apply Hall. now right.
      * exists false. split; [reflexivity|]. split; [discriminate|].
        intros Hall. specialize (Hall x X ltac:(now left) HX).
        rewrite Hall in Hlen. discriminate.
  - intros k par col.
    destruct (new_component k par col h) as [n h1] eqn:Hnew.
    destruct (new_component_facts _ _ _ _ _ _ Hnew) as (-> & _ & Hn & Hblocks).
    cbn [fst snd]. eexists. split; [exact Hn|]. cbn [blocks].
    apply isEmpty_true. intros x Hx. apply elem_of_seq in Hx.
    specialize (Hblocks (x - S (length h))%nat ltac:(lia)).
    replace (S (length h) + (x - S (length h)))%nat with x in Hblocks by lia.
    eauto.
Qed.

Lemma isEmpty_spec_witness :
  isEmpty (heap nested_sqrt_state) [1%nat] = Ok false.
Proof.
  destruct (isEmpty_spec (heap nested_sqrt_state) [1%nat]) as ((e & He & Hiff) & _).
  - intros x Hx. apply list_elem_of_singleton in Hx. subst x.
    eexists. reflexivity.
  - rewrite He. f_equal. destruct e; [|reflexivity].
    specialize (proj1 Hiff eq_refl 1%nat _ ltac:(now left) eq_refl).
    discriminate.
Defined.

(** ** A component constructed without parent *)

Lemma indexOf_absent {A} (eqb : A -> A -> bool) (l : list A) (x : A) :
  (forall y, eqb y x = true <-> y = x) -> x ∉ l -> indexOf eqb l x = -1.
Proof.
  intros Heq. unfold indexOf. generalize 0.
  induction l as [|y l IH]; intros i Hx; simpl; [reflexivity|].
  destruct (eqb y x) eqn:Hy.
  - apply Heq in Hy. subst y. exfalso. apply Hx. now left.
  - apply IH. intros Hin. apply Hx. now right.
Qed.

Lemma addComponent_new_in (k : cls) (par : jsref) (col : string) (st : state)
    (b : ref) (B : Block) (i : nat) :
  block st = Ref b -> heap st !! b = Some (OBlock B) ->
  child st = before (Z.of_nat i) -> (i <= length (children B))%nat ->
  addComponent_new k par col st
  = Ok {| heap := <[b := OBlock {| children := take i (children B)
                                               ++ CRef (length (heap st))
                                                  :: drop i (children B);
                                   block_parent := block_parent B |}]>
                    (new_component k par col (heap st)).2;
          components := components st;
          block := if is_leaf_cls k then Ref b
                   else js_ref (seq (S (length (heap st))) (arity k) !! 0%nat);
          component := if is_leaf_cls k then component st
                       else Ref (length (heap st));
          child := if is_leaf_cls k then before (Z.of_nat (S i)) else -1;
          position := position st;
          latex := latex st |}.
Proof.
  intros Hb HB Hch Hi. unfold addComponent_new.
  destruct (new_component k par col (heap st)) as [n h1] eqn:Hnew.
  destruct (new_component_facts _ _ _ _ _ _ Hnew) as (-> & (l & ->) & Hn & _).
  unfold addComponent, set_heap. fields. rewrite Hb.
  rewrite (get_block_Ref _ _ _ (lookup_app_l_Some _ l _ _ HB)).
  cbn [mbind res_bind]. cbv beta iota.
  unfold is_leaf. rewrite Hn. cbn [class].
  rewrite Hch, ceil2_before. unfold Block_addChild.
  rewrite splice_add_nat by exact Hi.
  destruct (is_leaf_cls k).
  - do 2 f_equal. unfold before. lia.
  - rewrite (get_comp_Ref _ _ _ Hn). reflexivity.
Qed.

(** X17: a component that is not a leaf, constructed without parent (as
    the click handler of [registerFunction] does) and added while the
    cursor is inside a block, is put into that block and entered, but its
    [parent] is null.  Backspace in the still empty component then does
    not remove it: the block keeps it, and the cursor is put at top
    level, half a step before the top-level component it was in. *)
Theorem parentless_component_stays (st : state) (k : cls) (col : string)
    (b : ref) :
  reachable_by with_cells st -> block st = Ref b ->
  is_leaf_cls k = false -> (0 < arity k)%nat ->
  exists (st1 st2 : state) (B1 : Block) (N : Component),
    addComponent_new k Undefined col st = Ok st1
    /\ component st1 = Ref (length (heap st))
    /\ block st1 = Ref (S (length (heap st)))
    /\ heap st1 !! length (heap st) = Some (OComp N) /\ parent N = Null
    /\ heap st1 !! b = Some (OBlock B1)
    /\ CRef (length (heap st)) ∈ children B1
    /\ backspace st1 = Ok st2
    /\ heap st2 = heap st1 /\ components st2 = components st
    /\ block st2 = Null /\ component st2 = Null /\ child st2 = -1
    /\ position st2 = position st - 1.
Proof.
  intros Hst Hb Hleafk Har. apply inv_reachable in Hst.
  pose proof Hst as (Hok & Hnd & Htops & Hcur). rewrite Hb in Hcur.
  destruct (inside_facts _ _ _ _ _ _ Hok Hcur)
    as (B & c & C & t & i & j & HB & HpB & Hcv & HC & Hleaf & Hi & Hch
        & Hanc & Hj & Hpos & HokC & HndB & Hin & Hchildren).
  destruct (inv_components_nonempty st b Hst Hb) as (Hlen & Hposne).
  pose proof (lookup_lt_Some _ _ _ HB) as Hblt.
  rewrite (addComponent_new_in k Undefined col st b B i Hb HB Hch Hi).
  destruct (new_component k Undefined col (heap st)) as [n h1] eqn:Hnew.
  destruct (new_component_facts _ _ _ _ _ _ Hnew)
    as (-> & (l & ->) & Hn & Hblocks).
  cbn [snd]. rewrite Hleafk, lookup_seq_lt by exact Har.
  cbn [js_ref from_option]. rewrite Nat.add_0_r.
  match type of Hn with _ = Some (OComp ?X) => set (N := X) in Hn end.
  match goal with
  | |- exists st1 st2 B1 N, Ok ?R = Ok st1 /\ _ => set (st1 := R)
  end.
  assert (HN1 : heap st1 !! length (heap st) = Some (OComp N)).
  { unfold st1. fields. rewrite list_lookup_insert_ne by lia. exact Hn. }
  assert (He : isEmpty (heap st1) (blocks N) = Ok true).
  { apply isEmpty_true. intros x Hx. unfold N in Hx. cbn [blocks] in Hx.
    apply elem_of_seq in Hx.
    specialize (Hblocks (x - S (length (heap st)))%nat ltac:(lia)).
    replace (S (length (heap st)) + (x - S (length (heap st))))%nat
      with x in Hblocks by lia.
    unfold st1. fields. rewrite list_lookup_insert_ne by lia. eauto. }
  assert (Hfresh : length (heap st) ∉ components st).
  { intros Hx. apply (tops_ok_lt _ _ _ Htops) in Hx. lia. }
  assert (Hback : backspace st1
                  = Ok {| heap := heap st1; components := components st;
                          block := Null; component := Null; child := -1;
                          position := position st - 1; latex := latex st |}).
  { rewrite (backspace_start st1 Hlen Hposne).
    change (block st1) with (Ref (S (length (heap st)))). cbv beta iota.
    change (component st1) with (Ref (length (heap st))).
    rewrite (get_comp_Ref _ _ _ HN1). cbn [mbind res_bind]. cbv beta iota.
    rewrite He. cbn [mbind res_bind]. cbv beta iota.
    unfold removeComponent.
    change (block st1) with (Ref (S (length (heap st)))). cbv beta iota.
    unfold removeComponent_in.
    change (component st1) with (Ref (length (heap st))).
    rewrite (get_comp_Ref _ _ _ HN1). cbn [mbind res_bind]. cbv beta iota.
    change (parent N) with Null. cbv beta iota.
    change (components st1) with (components st).
    rewrite (indexOf_absent Nat.eqb _ _ (nat_eqb_iff _) Hfresh).
    reflexivity. }
  eexists st1, _, _, N. split; [reflexivity|].
  split; [reflexivity|]. split; [reflexivity|]. split; [exact HN1|].
  split; [reflexivity|]. split.
  { unfold st1. fields. apply list_lookup_insert_eq.
    rewrite length_app. lia. }
  split; [cbn [children]; apply elem_of_insert_middle; now left|].
  split; [exact Hback|]. fields. auto 10.
Qed.

Lemma parentless_component_stays_witness :
  exists (st1 st2 : state) (B1 : Block),
    addComponent_new Sqrt Undefined "red" nested_sqrt_state = Ok st1
    /\ heap st1 !! 1%nat = Some (OBlock B1)
    /\ CRef (length (heap nested_sqrt_state)) ∈ children B1
    /\ backspace st1 = Ok st2
    /\ heap st2 = heap st1 /\ block st2 = Null
    /\ position st2 = position nested_sqrt_state - 1.
Proof.
  destruct (parentless_component_stays nested_sqrt_state Sqrt "red" 1%nat
              reachable_nested_sqrt eq_refl eq_refl ltac:(simpl; lia))
    as (st1 & st2 & B1 & N & H1 & _ & _ & _ & _ & H2 & H3 & H4 & H5 & _ & H6
        & _ & _ & H7).
  exists st1, st2, B1. auto 10.
Defined.

(** ** The caret inside a block *)

Section contains.
Implicit Types (s t u l r : string).

Lemma contains_refl s : contains s s.
Proof. exists "", "". now rewrite append_nil_l, append_nil_r. Qed.

Lemma contains_trans s t u : contains s t -> contains t u -> contains s u.
Proof.
  intros (l1 & r1 & ->) (l2 & r2 & ->).
  exists (l2 +:+ l1), (r1 +:+ r2). now rewrite !append_assoc.
Qed.

Lemma contains_app_l s t u : contains s t -> contains s (t +:+ u).
Proof.
  intros (l & r & ->). exists l, (r +:+ u). now rewrite !append_assoc.
Qed.

Lemma contains_app_r s t u : contains s u -> contains s (t +:+ u).
Proof.
  intros (l & r & ->). exists (t +:+ l), r. now rewrite !append_assoc.
Qed.

Lemma contains_concat s (ms : list string) :
  s ∈ ms -> contains s (concat_strings ms).
Proof.
  induction ms as [|m ms IH]; intros Hin; [inversion Hin|]. simpl.
  apply elem_of_cons in Hin as [->|Hin].
  - apply contains_app_l, contains_refl.
  - now apply contains_app_r, IH.
Qed.

Lemma ltrim_keeps s l r :
  starts_with_space s = false -> s <> "" ->
  exists l', ltrim (l +:+ s +:+ r) = l' +:+ s +:+ r.
Proof.
  intros Hs Hne. induction l as [|a l (l' & IH)].
  - exists "". rewrite !append_nil_l.
    destruct s as [|a s]; [contradiction|]. rewrite append_cons. simpl.
    simpl in Hs. now rewrite Hs.
  - rewrite append_cons. simpl. destruct (is_space a).
    + now exists l'.
    + exists (String a l). now rewrite append_cons.
Qed.

Lemma rtrim_nonempty s r :
  ends_with_space s = false -> s <> "" ->
  exists r', rtrim (s +:+ r) = s +:+ r'.
Proof.
  intros Hs Hne. induction s as [|a s IH]; [contradiction|].
  rewrite append_cons. simpl. destruct s as [|b s].
  - rewrite append_nil_l. simpl in Hs.
    destruct (rtrim r) as [|c t].
    + exists "". now rewrite Hs.
    + exists (String c t). now rewrite append_cons, append_nil_l.
  - destruct IH as (r' & IH); [exact Hs | discriminate|].
    rewrite IH. rewrite append_cons. exists r'. now rewrite !append_cons.
Qed.

Lemma rtrim_prefix l t t' :
  rtrim t = t' -> t' <> "" -> rtrim (l +:+ t) = l +:+ t'.
Proof.
  intros Ht Hne. induction l as [|a l IH].
  - now rewrite !append_nil_l.
  - rewrite !append_cons. simpl. rewrite IH.
    destruct (l +:+ t') as [|b u] eqn:E; [|reflexivity].
    destruct l; [rewrite append_nil_l in E; contradiction|].
    rewrite append_cons in E. discriminate.
Qed.

(** Trimming keeps a text that neither starts nor ends with white
    space. *)
Lemma contains_trim s t :
  starts_with_space s = false -> ends_with_space s = false -> s <> "" ->
  contains s t -> contains s (trim t).
Proof.
  intros H1 H2 Hne (l & r & ->). unfold trim.
  destruct (ltrim_keeps s l r H1 Hne) as (l' & ->).
  destruct (rtrim_nonempty s r H2 Hne) as (r' & Hr).
  rewrite (rtrim_prefix l' _ _ Hr).
  - now exists l', r'.
  - destruct s; [contradiction|]. rewrite append_cons. discriminate.
Qed.
End contains.

(** More fuel does not change a result. *)
Lemma render_fuel_mono (h : store) (f f' : nat) (x : ref) (s : string) :
  (f <= f')%nat -> render f h x = Ok s -> render f' h x = Ok s.
Proof.
  revert f' x s. induction f as [|f IH]; intros f' x s Hle; [discriminate|].
  destruct f' as [|f']; [lia|].
  rewrite !render_S. destruct (h !! x) as [o|]; [|discriminate].
  assert (Hrec : forall y m, render f h y = Ok m -> render f' h y = Ok m)
    by (intros y m; apply IH; lia).
  destruct o as [B|C]; simpl.
  - unfold Block_toLatex. destruct (children B) as [|ch cs]; [auto|].
    destruct (concat_children (render f h) _ _) as [r| |] eqn:Hr;
      try discriminate.
    now rewrite (concat_children_mono _ _ Hrec _ _ _ Hr).
  - now apply Component_toLatex_mono.
Qed.

Lemma render_fuel_agree (h : store) (f f' : nat) (x : ref) (s s' : string) :
  render f h x = Ok s -> render f' h x = Ok s' -> s = s'.
Proof.
  intros H1 H2.
  apply (render_fuel_mono h f (Nat.max f f')) in H1; [|lia].
  apply (render_fuel_mono h f' (Nat.max f f')) in H2; [|lia].
  congruence.
Qed.

Lemma all_ok_children (rec : ref -> res string) (cs : list child_t) :
  (forall y, CRef y ∈ cs -> exists s, rec y = Ok s) ->
  exists ms, Forall2 (fun c m => child_markup rec c = Ok m) cs ms.
Proof.
  induction cs as [|[s|y] cs IH]; intros Hcs.
  - exists []. constructor.
  - destruct IH as (ms & Hms); [intros z Hz; apply Hcs; now right|].
    exists (s :: ms). now constructor.
  - destruct (Hcs y ltac:(now left)) as (s & Hs).
    destruct IH as (ms & Hms); [intros z Hz; apply Hcs; now right|].
    exists (s :: ms). now constructor.
Qed.

Lemma ends_with_space_app_r (s r : string) :
  r <> "" -> ends_with_space (s +:+ r) = ends_with_space r.
Proof.
  intros Hr. induction s as [|a s IH]; [now rewrite append_nil_l|].
  rewrite append_cons. simpl. rewrite IH.
  destruct (s +:+ r) as [|b u] eqn:E; [|reflexivity].
  destruct s; [rewrite append_nil_l in E; contradiction|].
  rewrite append_cons in E. discriminate.
Qed.

(** Every block of a component is named by the template of its class. *)
Lemma template_blocks (k : cls) :
  match k with
  | MatrixComponent _ _ => True
  | _ => omap piece_block (template k) = seq 0 (arity k)
  end.
Proof. destruct k; try exact I; reflexivity. Qed.

Lemma template_has_block (k : cls) (j : nat) :
  match k with MatrixComponent _ _ => False | _ => True end ->
  (j < arity k)%nat -> Blk j ∈ template k.
Proof.
  intros Hk Hj. pose proof (template_blocks k) as Ht.
  assert (Hin : j ∈ omap piece_block (template k)).
  { destruct k; try contradiction; rewrite Ht; apply elem_of_seq; lia. }
  apply list_elem_of_omap in Hin as (p & Hp & Hpj).
  destruct p as [s|i]; [discriminate|]. injection Hpj as ->. exact Hp.
Qed.

(** A text that occurs in the markup of an object occurs in the markup of
    what holds the object, provided it neither starts nor ends with white
    space. *)
Section display_path.
Variables (h5 : store) (m : ref -> nat) (N : nat) (F : string).
Hypothesis Hr5 : ranked h5 m N.
Hypothesis HF1 : starts_with_space F = false.
Hypothesis HF2 : ends_with_space F = false.
Hypothesis HFne : F <> "".

Lemma shows_block (pb x : ref) (PB : Block) :
  h5 !! pb = Some (OBlock PB) -> CRef x ∈ children PB ->
  shows h5 m N F x -> shows h5 m N F pb.
Proof.
  intros HPB Hx Px f Hf.
  destruct (Hr5 pb _ HPB) as (Hlt & _ & Hch).
  destruct f as [|f]; [lia|].
  rewrite render_S, HPB. cbn [toLatex_obj]. unfold Block_toLatex.
  destruct (all_ok_children (render f h5) (children PB)) as (ms & Hms).
  { intros y Hy. destruct (Hch y Hy) as (Hy' & Hrank).
    apply (render_total h5 m N Hr5); [exact Hy'|lia]. }
  destruct (children PB) as [|ch cs] eqn:Hcs; [inversion Hx|].
  rewrite (concat_children_spec _ _ _ Hms). cbn [mbind res_bind].
  rewrite append_nil_l. eexists. split; [reflexivity|].
  apply contains_trim; auto.
  apply list_elem_of_lookup_1 in Hx as (j & Hj).
  destruct (Forall2_lookup_l _ _ _ _ _ Hms Hj) as (sx & Hsx & Hrx).
  simpl in Hrx.
  destruct (Hch x ltac:(eapply list_elem_of_lookup_2; eauto)) as (_ & Hrank).
  destruct (Px f ltac:(lia)) as (s & Hs & Hcont).
  assert (sx = s) as -> by congruence.
  eapply contains_trans; [exact Hcont|].
  apply contains_concat. eapply list_elem_of_lookup_2; eauto.
Qed.

Lemma shows_component (c x : ref) (C : Component) :
  h5 !! c = Some (OComp C) -> x ∈ blocks C ->
  shows h5 m N F x -> shows h5 m N F c.
Proof.
  intros HC Hx Px f Hf.
  destruct (Hr5 c _ HC) as (Hlt & Hlen & Hbs).
  destruct f as [|f]; [lia|].
  rewrite render_S, HC. cbn [toLatex_obj].
  destruct (all_ok_cells (render f h5) (blocks C)) as (cells & Hcells).
  { intros y Hy. destruct (Hbs y Hy) as (Hy' & Hrank).
    apply (render_total h5 m N Hr5); [exact Hy'|lia]. }
  apply list_elem_of_lookup_1 in Hx as (j & Hj).
  destruct (Forall2_lookup_l _ _ _ _ _ Hcells Hj) as (sx & Hsx & Hrx).
  destruct (Hbs x ltac:(eapply list_elem_of_lookup_2; eauto)) as (_ & Hrank).
  destruct (Px f ltac:(lia)) as (s & Hs & Hcont).
  assert (sx = s) as -> by congruence.
  pose proof (lookup_lt_Some _ _ _ Hj) as Hjlt. rewrite Hlen in Hjlt.
  assert (Hcase : match class C with
                  | MatrixComponent _ _ => False | _ => True end
                  \/ exists rows cols, class C = MatrixComponent rows cols)
    by (destruct (class C); eauto).
  destruct Hcase as [Hk|(rows & cols & Hcl)].
  - assert (Hfill : fill (render f h5) (blocks C) (template (class C))
                    = Ok (concat_strings
                            (map (piece_text cells) (template (class C))))).
    { apply fill_spec; [exact Hcells|].
      intros i Hi. apply template_index in Hi. lia. }
    assert (Hr : Component_toLatex (render f h5) C
                 = Ok (concat_strings
                         (map (piece_text cells) (template (class C))))).
    { unfold Component_toLatex. destruct (class C); try exact Hfill.
      contradiction. }
    rewrite Hr. eexists. split; [reflexivity|].
    eapply contains_trans; [exact Hcont|].
    apply contains_concat. apply list_elem_of_fmap.
    exists (Blk j). split; [|now apply template_has_block].
    simpl. symmetry. now apply nth_lookup_Some with (d := "").
  - unfold Component_toLatex. rewrite Hcl.
    rewrite (Matrix_toLatex_spec _ _ _ rows cols Hcells)
      by (rewrite Hlen, Hcl; reflexivity).
    eexists. split; [reflexivity|].
    eapply contains_trans; [exact Hcont|].
    unfold matrix_markup. apply contains_app_r, contains_app_l.
    eapply contains_trans; [|apply contains_concat].
    + apply (contains_app_l s s (matrix_separator rows cols j)).
      apply contains_refl.
    + apply (list_elem_of_lookup_2 _ j). rewrite list_lookup_imap, Hsx.
      reflexivity.
Qed.
End display_path.

Section caret_in_block.
Variables (h : store) (b c i : nat) (B : Block) (C : Component).
Hypothesis Hok : store_ok h.
Hypothesis HB : h !! b = Some (OBlock B).
Hypothesis HpB : block_parent B = Ref c.
Hypothesis HC : h !! c = Some (OComp C).
Hypothesis Hin : (S c <= b < S c + arity (class C))%nat.
Hypothesis Hbl : blocks C = seq (S c) (arity (class C)).
Hypothesis Hi : (i <= length (children B))%nat.

Lemma display_store_facts :
  ranked (display_store h b c i B C)
    (display_rank (length h + 2) b) (2 * (length h + 4))
  /\ display_store h b c i B C !! b
     = Some (OBlock {| children := take i (children B)
                                   ++ CRef (length h) :: drop i (children B);
                       block_parent := block_parent B |})
  /\ display_store h b c i B C !! (length h + 2)%nat
     = Some (OComp {| class := FrameBox; blocks := [b];
                      parent := Ref b; color := None |})
  /\ display_store h b c i B C !! c
     = Some (OComp {| class := class C;
                      blocks := <[(b - S c)%nat := (length h + 2)%nat]> (blocks C);
                      parent := parent C; color := color C |})
  /\ display_store h b c i B C !! length h
     = Some (OComp {| class := TextComponent; blocks := [S (length h)];
                      parent := Ref b; color := None |})
  /\ display_store h b c i B C !! S (length h)
     = Some (OBlock {| children := [CStr "|"];
                       block_parent := Ref (length h) |})
  /\ (forall x o, x <> b -> x <> c -> h !! x = Some o ->
        display_store h b c i B C !! x = Some o).
Proof.
  unfold display_store.
  destruct (new_text (Ref b) "|" h) as [n h1] eqn:Hnew1. cbn [snd].
  destruct (new_component FrameBox (Ref b) "" h1) as [f h2] eqn:Hnew2.
  destruct (display_alloc _ _ _ _ _ _ Hnew1 Hnew2)
    as (-> & -> & Hlen2 & Hext & HK & HKB & HF & HFB).
  cbn [snd].
  pose proof (lookup_lt_Some _ _ _ HB) as Hblt.
  pose proof (lookup_lt_Some _ _ _ HC) as Hclt.
  split.
  { exact (display_ranked h h2 b c i B C Hok HB HC Hin Hlen2 Hext HK HKB HFB). }
  split.
  { apply list_lookup_insert_eq. rewrite !length_insert. lia. }
  split.
  { rewrite list_lookup_insert_ne by lia.
    apply list_lookup_insert_eq. rewrite length_insert. lia. }
  split.
  { do 2 rewrite list_lookup_insert_ne by lia.
    apply list_lookup_insert_eq. lia. }
  split.
  { do 3 rewrite list_lookup_insert_ne by lia. exact HK. }
  split.
  { do 3 rewrite list_lookup_insert_ne by lia. exact HKB. }
  intros x o Hxb Hxc Hx. pose proof (lookup_lt_Some _ _ _ Hx) as Hxlt.
  do 3 rewrite list_lookup_insert_ne by (congruence || lia).
  now apply Hext.
Qed.

(** What lies below the current block serialises as before. *)
Lemma render_above (f : nat) (x : ref) :
  (b < x)%nat -> (x < length h)%nat ->
  render f (display_store h b c i B C) x = render f h x.
Proof.
  destruct display_store_facts as (_ & H5b & _ & H5c & _ & _ & Hsame).
  pose proof (ranked_store_ok h Hok) as Hr.
  revert x. induction f as [|f IH]; intros x Hbx Hxn; [reflexivity|].
  destruct (lookup_lt_is_Some_2 h x Hxn) as (o & Ho).
  rewrite !render_S, Ho, (Hsame x o) by (lia || exact Ho).
  destruct (Hr x o Ho) as (_ & Ho'). unfold id in Ho'.
  destruct o as [X|X]; simpl.
  - destruct Ho' as (Hpar & Hch). unfold Block_toLatex.
    destruct (children X) as [|ch cs] eqn:Hcs.
    + destruct (Hpar eq_refl) as (p & -> & [o Hp]).
      destruct (decide (p = b)) as [->|Hpb].
      { rewrite H5b, HB. reflexivity. }
      destruct (decide (p = c)) as [->|Hpc].
      { rewrite H5c, HC. reflexivity. }
      now rewrite (Hsame p o Hpb Hpc Hp), Hp.
    + rewrite (concat_children_ext (render f (display_store h b c i B C))
                 (render f h)); [reflexivity|].
      intros y Hy. destruct (Hch y Hy) as ([oy Hy'] & Hlt).
      apply lookup_lt_Some in Hy'. apply IH; lia.
  - destruct Ho' as (_ & Hbs). apply Component_toLatex_ext.
    intros y Hy. destruct (Hbs y Hy) as ([oy Hy'] & Hlt).
    apply lookup_lt_Some in Hy'. apply IH; lia.
Qed.

Variables (fuel : nat) (ms : list string).
Hypothesis Hms :
  Forall2 (fun ch m => child_markup (render fuel h) ch = Ok m) (children B) ms.

(** The frame serialises to the box around the markup of the block with
    the caret put in. *)
Lemma frame_text (f : nat) :
  (2 * (length h + 4) - display_rank (length h + 2) b (length h + 2) <= f)%nat ->
  render f (display_store h b c i B C) (length h + 2)
  = Ok ("\boxed{"
        +:+ trim (concat_strings (take i ms ++ "|" :: drop i ms))
        +:+ "}").
Proof.
  intros Hf.
  destruct display_store_facts as (_ & H5b & H5f & _ & H5k & H5kb & _).
  pose proof (ranked_store_ok h Hok) as Hr.
  pose proof (lookup_lt_Some _ _ _ HB) as Hblt.
  assert (Hf' : (2 * (length h - b) + 9 <= f)%nat).
  { unfold display_rank in Hf. rewrite decide_True in Hf by reflexivity. lia. }
  destruct f as [|[|f]]; try lia.
  rewrite render_S, H5f. cbn [toLatex_obj]. unfold Component_toLatex.
  cbn [class blocks template fill]. change ([b] !! 0%nat) with (Some b).
  cbv beta iota. rewrite render_S, H5b. cbn [toLatex_obj].
  unfold Block_toLatex. cbn [children].
  assert (Hms5 : Forall2
            (fun ch m => child_markup (render f (display_store h b c i B C)) ch
                         = Ok m)
            (take i (children B) ++ CRef (length h) :: drop i (children B))
            (take i ms ++ "|" :: drop i ms)).
  { assert (Hold : Forall2
              (fun ch m => child_markup (render f (display_store h b c i B C))
                             ch = Ok m) (children B) ms).
    { apply Forall2_same_length_lookup.
      split; [exact (Forall2_length _ _ _ Hms)|].
      intros j ch m0 Hj Hmj.
      pose proof (Forall2_lookup_lr _ _ _ _ _ _ Hms Hj Hmj) as Hm0.
      assert (Hch : ch ∈ children B)
        by (eapply list_elem_of_lookup_2; eauto).
      destruct ch as [s|y]; [exact Hm0|]. simpl in *.
      destruct (Hr b _ HB) as (_ & _ & HchB).
      destruct (HchB y Hch) as ([oy Hy] & Hlt). unfold id in Hlt.
      pose proof (lookup_lt_Some _ _ _ Hy) as Hylt.
      rewrite render_above by lia.
      destruct (render_total h id (length h) Hr f y (ex_intro _ oy Hy))
        as (s' & Hs'); [unfold id; lia|].
      rewrite Hs'. f_equal. symmetry.
      exact (render_fuel_agree _ _ _ _ _ _ Hm0 Hs'). }
    apply Forall2_app; [now apply Forall2_take|].
    constructor; [|now apply Forall2_drop].
    simpl. replace "|" with (trim "|") by reflexivity.
    apply (render_text _ _ (S (length h)) "|" (Ref b)); auto. lia. }
  destruct (take i (children B) ++ CRef (length h) :: drop i (children B))
    as [|ch cs] eqn:Hcs.
  { symmetry in Hcs. now apply app_cons_not_nil in Hcs. }
  rewrite (concat_children_spec _ _ _ Hms5). cbn [mbind res_bind].
  now rewrite append_nil_l, append_nil_r.
Qed.
End caret_in_block.

Lemma concat_components_grows (rec : ref -> res string) (cs : list ref) :
  forall acc s, concat_components rec cs acc = Ok s -> exists r, s = acc +:+ r.
Proof.
  induction cs as [|z l IHl]; intros acc s; simpl.
  - intros [= <-]. exists "". now rewrite append_nil_r.
  - destruct (rec z) as [sz| |]; try discriminate. simpl.
    intros H. destruct (IHl _ _ H) as (r & ->).
    exists (sz +:+ r). now rewrite append_assoc.
Qed.

Lemma concat_components_contains (rec : ref -> res string) (cs : list ref)
    (x : ref) (sx : string) :
  x ∈ cs -> rec x = Ok sx ->
  forall acc s, concat_components rec cs acc = Ok s -> contains sx s.
Proof.
  intros Hx Hsx. induction cs as [|y cs IH]; [inversion Hx|].
  intros acc s. simpl.
  destruct (rec y) as [sy| |] eqn:Hy; try discriminate. simpl.
  destruct (decide (y = x)) as [->|Hne].
  - assert (sy = sx) as -> by congruence. intros H.
    destruct (concat_components_grows _ _ _ _ H) as (r & ->).
    exists acc, r. now rewrite append_assoc.
  - apply IH. apply elem_of_cons in Hx as [->|Hx]; [contradiction|exact Hx].
Qed.

Lemma shows_anc (h h5 : store) (m : ref -> nat) (N : nat) (F : string)
    (c0 x t : ref) :
  store_ok h -> ranked h5 m N ->
  starts_with_space F = false -> ends_with_space F = false -> F <> "" ->
  (forall y o, (y < c0)%nat -> h !! y = Some o -> h5 !! y = Some o) ->
  anc h x t -> (x <= c0)%nat ->
  shows h5 m N F x -> shows h5 m N F t.
Proof.
  intros Hok Hr5 HF1 HF2 HFne Hsame Hanc.
  induction Hanc as [x X HX Hpar
                    |x pb c' t X X' PB HX Hpar HPB Hin HpPB HX' Hleaf Hlt1 Hlt2 _ IH];
    intros Hle Px; [exact Px|].
  apply IH; [lia|].
  destruct (store_ok_block _ _ _ Hok HPB) as (_ & c1 & C1 & Hp1 & HC1 & Hin1 & _).
  assert (c1 = c') as -> by congruence.
  assert (C1 = X') as -> by congruence.
  apply (shows_component h5 m N F Hr5 c' pb X');
    [apply Hsame; [lia | exact HX'] | exact Hin1 |].
  apply (shows_block h5 m N F Hr5 HF1 HF2 HFne pb x PB);
    [apply Hsame; [lia | exact HPB] | exact Hin | exact Px].
Qed.

(** The markup [toDisplayLatex] returns inside a block is the markup of
    the expression in the store that shows the caret. *)
Lemma toDisplayLatex_inside_markup (st : state) (fuel : nat) (b c i : nat)
    (B : Block) (C : Component) (d : string) (st' : state) :
  block st = Ref b -> heap st !! b = Some (OBlock B) ->
  component st = Ref c -> heap st !! c = Some (OComp C) ->
  blocks C = seq (S c) (arity (class C)) ->
  (S c <= b < S c + arity (class C))%nat ->
  child st = before (Z.of_nat i) -> (i <= length (children B))%nat ->
  toDisplayLatex fuel st = Ok (d, st') ->
  Expression_toLatex fuel (display_store (heap st) b c i B C) (components st)
  = Ok d.
Proof.
  intros Hb HB Hcv HC Hbl Hin Hch Hi H.
  unfold toDisplayLatex in H. rewrite Hb in H. unfold display_store.
  destruct (new_text (Ref b) "|" (heap st)) as [n h1] eqn:Hnew1. cbn [snd].
  destruct (new_component FrameBox (Ref b) "" h1) as [f h2] eqn:Hnew2.
  cbn [snd].
  destruct (display_alloc _ _ _ _ _ _ Hnew1 Hnew2)
    as (-> & -> & Hlen2 & Hext & HK & HKB & HF & HFB).
  assert (Hjlt : (b - S c < length (blocks C))%nat)
    by (rewrite Hbl, length_seq; lia).
  rewrite Hcv, (get_comp_Ref _ _ _ (Hext _ _ HC)), bind_ok_l in H.
  rewrite (get_block_Ref _ _ _ (Hext _ _ HB)), bind_ok_l in H.
  rewrite (get_comp_Ref _ _ _ HF), bind_ok_l in H.
  cbv beta iota in H.
  assert (Hj : index_of_block (blocks C) (Ref b) = Z.of_nat (b - S c)).
  { simpl. rewrite Hbl. apply indexOf_seq. lia. }
  rewrite Hj, replace_block_insert in H by exact Hjlt.
  unfold set_block0 in H. cbn [blocks class parent color] in H.
  change (<[0%nat := b]> [S (length (heap st) + 2)]) with [b] in H.
  unfold Block_addChild in H.
  rewrite Hch, ceil2_before, splice_add_nat in H by exact Hi.
  unfold toLatex, set_heap in H. fields in H.
  destruct (Expression_toLatex fuel _ (components st)) as [l| |] eqn:E;
    try discriminate H.
  rewrite !bind_ok_l in H. cbv beta iota in H.
  inv_ok H. congruence.
Qed.

(** X18: in every reachable state with the cursor inside a block, in the
    gap before child [i], [toDisplayLatex] returns a markup in which the
    box around the markup of that block occurs, with the caret put
    between the markup of the children before and after the gap, and
    leaves the document as it was. *)
Theorem toDisplayLatex_block_caret (st : state) (fuel : nat) (b : ref)
    (B : Block) (i : nat) (ms : list string) :
  reachable_by with_cells st ->
  block st = Ref b -> heap st !! b = Some (OBlock B) ->
  child st = before (Z.of_nat i) ->
  (2 * (length (heap st) + 4) <= fuel)%nat ->
  Forall2 (fun ch m => child_markup (render fuel (heap st)) ch = Ok m)
    (children B) ms ->
  exists d st',
    toDisplayLatex fuel st = Ok (d, st')
    /\ same_document st st'
    /\ contains ("\boxed{"
                 +:+ trim (concat_strings (take i ms) +:+ "|"
                           +:+ concat_strings (drop i ms))
                 +:+ "}") d.
Proof.
  intros Hst Hb HB Hch Hfuel Hms. apply inv_reachable in Hst.
  destruct (toDisplayLatex_inside st fuel b Hst Hb Hfuel)
    as (d & st' & Hd & Hsame).
  exists d, st'. split; [exact Hd|]. split; [exact Hsame|].
  pose proof Hst as (Hok & Hnd & Htops & Hcur). rewrite Hb in Hcur.
  destruct (inside_facts _ _ _ _ _ _ Hok Hcur)
    as (B' & c & C & t & i' & k & HB' & HpB & Hcv & HC & Hleaf & Hi & Hch'
        & Hanc & Hk & Hpos & HokC & HndB & Hin & Hchildren).
  assert (B' = B) as -> by congruence.
  assert (i' = i) as -> by (unfold before in *; lia).
  pose proof HokC as (Hbl & _).
  pose proof (toDisplayLatex_inside_markup st fuel b c i B C d st'
                Hb HB Hcv HC Hbl Hin Hch Hi Hd) as Hexp.
  destruct (display_store_facts (heap st) b c i B C Hok HB HC Hin Hi)
    as (Hr5 & H5b & H5f & H5c & _ & _ & Hsame5).
  set (h5 := display_store (heap st) b c i B C) in *.
  set (n := length (heap st)) in *.
  set (F := "\boxed{"
            +:+ trim (concat_strings (take i ms ++ "|" :: drop i ms))
            +:+ "}").
  assert (HFeq : "\boxed{"
                 +:+ trim (concat_strings (take i ms) +:+ "|"
                           +:+ concat_strings (drop i ms))
                 +:+ "}" = F).
  { unfold F. now rewrite concat_strings_app. }
  rewrite HFeq.
  assert (HF1 : starts_with_space F = false) by reflexivity.
  assert (HF2 : ends_with_space F = false).
  { unfold F. rewrite <- append_assoc.
    now rewrite ends_with_space_app_r by discriminate. }
  assert (HFne : F <> "") by discriminate.
  assert (Pf : shows h5 (display_rank (n + 2) b) (2 * (n + 4)) F (n + 2)%nat).
  { intros f Hf. exists F. split; [|apply contains_refl].
    now apply (frame_text (heap st) b c i B C Hok HB HC Hin Hi fuel ms Hms). }
  assert (Pc : shows h5 (display_rank (n + 2) b) (2 * (n + 4)) F c).
  { eapply (shows_component h5 _ _ F Hr5 c (n + 2)%nat); [exact H5c| |exact Pf].
    cbn [blocks]. apply (list_elem_of_lookup_2 _ (b - S c)%nat).
    apply list_lookup_insert_eq. rewrite Hbl, length_seq. lia. }
  assert (Pt : shows h5 (display_rank (n + 2) b) (2 * (n + 4)) F t).
  { apply (shows_anc (heap st) h5 _ _ F c c t); auto.
    intros y o Hy Ho. apply Hsame5; [lia | lia | exact Ho]. }
  destruct (Pt fuel ltac:(lia)) as (s & Hs & Hcont).
  unfold Expression_toLatex in Hexp.
  destruct (concat_components (render fuel h5) (components st) "")
    as [s0| |] eqn:Hs0; try discriminate.
  injection Hexp as <-.
  apply contains_trim; auto.
  eapply contains_trans; [exact Hcont|].
  eapply (concat_components_contains _ _ t s); [|exact Hs|exact Hs0].
  eapply list_elem_of_lookup_2; eauto.
Qed.

Lemma toDisplayLatex_block_caret_witness :
  exists d st',
    toDisplayLatex 20 nested_sqrt_state = Ok (d, st')
    /\ same_document nested_sqrt_state st'
    /\ contains "\boxed{\sqrt{a}|}" d.
Proof.
  refine (toDisplayLatex_block_caret nested_sqrt_state 20 1%nat
            (mkBlock [CRef 2%nat] (Ref 0%nat)) 1 ["\sqrt{a}"]
            reachable_nested_sqrt eq_refl eq_refl eq_refl _ _).
  - simpl. lia.
  - constructor; [reflexivity|constructor].
Defined.

(** * A refresh that throws *)

Lemma get_comp_fuel (h : store) (v : jsref) : get_comp h v <> OutOfFuel.
Proof. unfold get_comp. repeat case_match; discriminate. Qed.

Lemma get_block_fuel (h : store) (v : jsref) : get_block h v <> OutOfFuel.
Proof. unfold get_block. repeat case_match; discriminate. Qed.

(** [toDisplayLatex] is the outcome without what a throw leaves behind. *)
Lemma toDisplayLatex_outcome_result (fuel : nat) (st : state) :
  result_of (toDisplayLatex_outcome fuel st) = toDisplayLatex fuel st.
Proof.
  unfold toDisplayLatex_outcome, toDisplayLatex.
  destruct (new_text (block st) "|" (heap st)) as [caret h0].
  destruct (new_component FrameBox (block st) "" h0) as [frame h].
  destruct (block st) as [| |b].
  - destruct (toLatex fuel _) as [[l st2]| |]; reflexivity.
  - destruct (get_comp h (component st)) as [[c C]| |] eqn:Hc;
      [reflexivity | reflexivity | now apply get_comp_fuel in Hc].
  - destruct (get_comp h (component st)) as [[c C]| |] eqn:Hc;
      [| reflexivity | now apply get_comp_fuel in Hc].
    destruct (get_block h (Ref b)) as [[b' B]| |] eqn:Hb;
      [| reflexivity | now apply get_block_fuel in Hb].
    destruct (get_comp h (Ref frame)) as [[f F]| |] eqn:Hf;
      [| reflexivity | now apply get_comp_fuel in Hf].
    cbn [mbind res_bind]. cbv beta iota.
    destruct (toLatex fuel _) as [[l st2]| |]; [| reflexivity | reflexivity].
    cbn [mbind res_bind]. cbv beta iota.
    destruct (get_comp (heap st2) (component st2)) as [[c2 C2]| |] eqn:Hc2;
      [| reflexivity | now apply get_comp_fuel in Hc2].
    cbn [mbind res_bind]. cbv beta iota.
    destruct (get_block _ (block st2)) as [[b2 B2]| |] eqn:Hb2;
      [reflexivity | reflexivity | now apply get_block_fuel in Hb2].
Qed.

(** X20: in every state reached from the initial one by the five
    operations, a matrix that was inserted having a cell, the insertion of
    a matrix without cells is undone by a backspace that follows at once;
    but a refresh of the display in between throws and leaves the matrix
    with the frame among its blocks, the cursor as it was.  In the state
    the refresh leaves, all five operations and a further refresh throw:
    the matrix cannot be removed any more. *)
Theorem empty_matrix_refresh_sticks (st : state) (rows cols : nat)
    (col : string) (fuel : nat) :
  reachable_by with_cells st -> (rows * cols = 0)%nat ->
  exists (st1 st2 : state) (t : thrown) (M F : Component),
    insert (MatrixComponent rows cols) col st = Ok st1
    /\ backspace st1 = Ok st2 /\ same_document st st2
    /\ toDisplayLatex_outcome fuel st1 = Throws t
    /\ components (left_behind t) = components st1
    /\ block (left_behind t) = Undefined
    /\ component (left_behind t) = Ref (length (heap st))
    /\ child (left_behind t) = child st1
    /\ position (left_behind t) = position st1
    /\ heap (left_behind t) !! length (heap st) = Some (OComp M)
    /\ class M = MatrixComponent rows cols
    /\ blocks M = [(length (heap st1) + 2)%nat]
    /\ heap (left_behind t) !! (length (heap st1) + 2)%nat = Some (OComp F)
    /\ class F = FrameBox
    /\ voided t = [((length (heap st1) + 2)%nat, 0%nat, Undefined)]
    /\ backspace (left_behind t) = TypeError
    /\ (forall text, addText text (left_behind t) = TypeError)
    /\ (forall k c, insert k c (left_behind t) = TypeError)
    /\ seekLeft (left_behind t) = TypeError
    /\ seekRight (left_behind t) = TypeError
    /\ (forall fuel', toDisplayLatex fuel' (left_behind t) = TypeError).
Proof.
  intros Hst Hcells. apply inv_reachable in Hst.
  destruct (insert_empty_matrix st rows cols col Hst Hcells)
    as (st1 & st2 & Hins & Hb1 & Hc1 & Hch1 & (N & HN & HclN & HblN) & Hp1
        & Hback & Hsame).
  destruct (new_text Undefined "|" (heap st1)) as [n h1] eqn:Hnew1.
  destruct (new_component FrameBox Undefined "" h1) as [f h2] eqn:Hnew2.
  destruct (display_alloc _ _ _ _ _ _ Hnew1 Hnew2)
    as (-> & -> & Hlen2 & Hext & HK & HKB & HF & HFB).
  pose proof (lookup_lt_Some _ _ _ HN) as Hm.
  set (m := length (heap st)) in *.
  set (f := (length (heap st1) + 2)%nat) in *.
  set (M := replace_block N (-1) f).
  set (h3 := <[m := OComp M]> h2).
  assert (Hout : toDisplayLatex_outcome fuel st1
                 = Throws (mkThrown (set_heap st1 h3) [(f, 0%nat, Undefined)])).
  { unfold toDisplayLatex_outcome. rewrite Hb1, Hnew1, Hnew2.
    rewrite Hc1, (get_comp_Ref _ _ _ (Hext _ _ HN)). reflexivity. }
  assert (HM3 : h3 !! m = Some (OComp M)).
  { unfold h3. apply list_lookup_insert_eq. lia. }
  assert (HF3 : h3 !! f
                = Some (OComp {| class := FrameBox; blocks := [S f];
                                 parent := Null; color := None |})).
  { unfold h3. rewrite list_lookup_insert_ne by (unfold f; lia). exact HF. }
  assert (HblM : blocks M = [f]).
  { unfold M, replace_block. cbn [blocks]. now rewrite HblN. }
  exists st1, st2. eexists _, M, _.
  split; [exact Hins|]. split; [exact Hback|]. split; [exact Hsame|].
  split; [exact Hout|]. cbn [left_behind voided]. unfold set_heap. fields.
  split; [reflexivity|]. split; [exact Hb1|]. split; [exact Hc1|].
  split; [reflexivity|]. split; [reflexivity|]. split; [exact HM3|].
  split; [exact HclN|]. split; [exact HblM|]. split; [exact HF3|].
  split; [reflexivity|]. split; [reflexivity|].
  match goal with |- backspace ?S = _ /\ _ => set (st3 := S) end.
  split.
  - unfold backspace.
    assert (Hlen : (length (components st3) =? 0)%nat = false).
    { apply Nat.eqb_neq. unfold st3. fields. unfold before in Hp1. lia. }
    assert (Hpos : (position st3 =? -1) = false).
    { apply Z.eqb_neq. unfold st3. fields. lia. }
    rewrite Hlen, Hpos.
    replace (block st3) with Undefined by (symmetry; exact Hb1).
    replace (component st3) with (Ref m) by (symmetry; exact Hc1).
    change (heap st3) with h3.
    rewrite (get_comp_Ref _ _ _ HM3). cbn [mbind res_bind]. cbv beta iota.
    rewrite HblM. cbn [isEmpty]. now rewrite HF3.
  - apply (undefined_block_throws st3 m M); [exact Hb1 | exact Hc1 | exact Hch1
                                            | exact HM3 | exact Hp1].
Qed.

Lemma empty_matrix_refresh_sticks_witness :
  exists (st1 : state) (t : thrown),
    insert (MatrixComponent 0 3) "red" nested_sqrt_state = Ok st1
    /\ toDisplayLatex_outcome 5 st1 = Throws t
    /\ backspace (left_behind t) = TypeError.
Proof.
  destruct (empty_matrix_refresh_sticks nested_sqrt_state 0 3 "red" 5
              reachable_nested_sqrt eq_refl)
    as (st1 & st2 & t & M & F & H1 & _ & _ & H2 & _ & _ & _ & _ & _ & _ & _
        & _ & _ & _ & _ & H3 & _).
  exists st1, t. auto.
Defined.
